(** * Bitflag stringer: the table builder and the decode routines

    A shallow embedding of [cmd/stringer/bitflag.go]: the run partitioner
    [splitIntoBitflagRuns], the name table builder [nameAndRest], the generator
    entry point [buildBitflag], and the decode routines the generator emits
    (the per-type [String] methods and the shared [_stringerBitflag.mstring]
    with its caching wrapper).  The last part follows the generator through
    what surrounds these: [intString], the per-type caches, the batch loop of
    [genFile], and [splitIntoRuns], the partitioner [generate] uses without
    [-bitflag].

    Conventions.
    - A Go [uint64] is a [Z] in [0, 2^64); every operation that can leave the
      range is wrapped with [uint64].  A [uint8] is a [Z] in [0, 256).
    - A Go [string] and a [[]byte] are a [string] (a list of bytes); [len] is
      [String.length].
    - A run-time panic (index or slice out of range), [os.Exit] and a loop that
      never exits are results of their own, see [abort]. *)

From Stdlib Require Import ZArith Lia Bool List String Ascii.
From stdpp Require Import base option list gmap strings sorting.

Local Open Scope Z_scope.

(** ** Machine integers *)

Definition uint64 (z : Z) : Z := z mod 2 ^ 64.
Definition uint8 (z : Z) : Z := z mod 2 ^ 8.

(** [v << k] on a [uint64]; a count of 64 or more leaves 0. *)
Definition shl64 (v k : Z) : Z := uint64 (Z.shiftl v k).

(** [int64(v)]: the same bit pattern read as a signed number. *)
Definition int64 (v : Z) : Z := if v <? 2 ^ 63 then v else v - 2 ^ 64.

(** ** Outcomes of the generator *)

Inductive abort : Type :=
| ExitNameTooLong (o : Z) (n : string)
    (* "stringer: name too long (o): n" on stderr, then os.Exit(1) *)
| ExitNoValues (typeName : string)
    (* log.Fatalf("no values defined for type %s") *)
| PanicIndex
    (* runtime error: index out of range *)
| NoReturn.
    (* a loop that never exits *)

Inductive result (A : Type) : Type :=
| Ok (a : A)
| Abort (e : abort).
Arguments Ok {A} a.
Arguments Abort {A} e.

Definition rbind {A B} (r : result A) (k : A → result B) : result B :=
  match r with
  | Ok a => k a
  | Abort e => Abort e
  end.

Notation "x <-! r ; k" := (rbind r (fun x => k))
  (at level 100, r at next level, right associativity).

Definition index_or_panic {A} (l : list A) (i : nat) : result A :=
  match l !! i with
  | Some x => Ok x
  | None => Abort PanicIndex
  end.

(** ** Declared constants *)

(** [Value] of stringer.go.  [value] is the constant's bit pattern.  The field
    [str] of the source is the decimal text of the same constant; the generated
    code reads that text back as a constant of the flag type, so the embedding
    keeps the number it denotes, which is [value] again (see [Value_String]).
    A generated file that does not compile (the text of a negative constant
    inside [uint64(...)]) is outside the embedding. *)
Record Value : Type := mkValue {
  name : string;
  value : Z;
  signed : bool
}.

Definition Value_String (v : Value) : Z := value v.

(** [byValue.Less]. *)
Definition byValue_Less (a b : Value) : bool :=
  if signed a then int64 (value a) <? int64 (value b)
  else value a <? value b.

(** [sort.Stable(byValue(values))].  For a strict weak order the stable
    sorted arrangement is unique; insertion from the right builds it. *)
Fixpoint insert_stable (x : Value) (l : list Value) : list Value :=
  match l with
  | [] => [x]
  | y :: l' => if byValue_Less y x then y :: insert_stable x l' else x :: l
  end.

Fixpoint sort_Stable (l : list Value) : list Value :=
  match l with
  | [] => []
  | x :: l' => insert_stable x (sort_Stable l')
  end.

(** ** Run partitioner *)

(** [singleBitSet]: [v != 0 && (v&(v-1)) == 0]. *)
Definition singleBitSet (v : Z) : bool :=
  negb (v =? 0) && (Z.land v (uint64 (v - 1)) =? 0).

Definition clear_signed (v : Value) : Value :=
  {| name := name v; value := value v; signed := false |}.

(** [for values[0].value == 0 { values = values[1:] }]: indexing the slice
    once it is empty panics. *)
Fixpoint strip_zeros (values : list Value) : result (list Value) :=
  match values with
  | [] => Abort PanicIndex
  | v :: rest => if value v =? 0 then strip_zeros rest else Ok values
  end.

(** The in-place duplicate filter
    [for i := 1; i < len(values); i++ { if ... { values[j] = values[i]; j++ } }];
    [n] counts the iterations left, so [i < len(values)] and both reads
    succeed.  The slots are read and written through the slice, as in the
    source. *)
Fixpoint dedup_loop (n i j : nat) (values : list Value) : list Value * nat :=
  match n with
  | O => (values, j)
  | S n' =>
      match values !! i, values !! (i - 1)%nat with
      | Some vi, Some vp =>
          if negb (value vi =? value vp) && singleBitSet (value vi)
          then dedup_loop n' (S i) (S j) (<[j := vi]> values)
          else dedup_loop n' (S i) j values
      | _, _ => (values, j)
      end
  end.

(** [for i < len(values) && values[i].value == values[i-1].value<<1 { i++ }];
    [n] counts the elements not yet looked at. *)
Fixpoint run_end (n i : nat) (values : list Value) : nat :=
  match n with
  | O => i
  | S n' =>
      match values !! i, values !! (i - 1)%nat with
      | Some vi, Some vp =>
          if value vi =? shl64 (value vp) 1 then run_end n' (S i) values else i
      | _, _ => i
      end
  end.

(** [for len(values) > 0 { ...; runs = append(runs, values[:i]); values = values[i:] }].
    Every round removes at least one element, so [length values] rounds of
    fuel are never used up (lemma [runs_loop_fuel]). *)
Fixpoint runs_loop (fuel : nat) (values : list Value) (runs : list (list Value))
  : list (list Value) :=
  match fuel with
  | O => runs
  | S fuel' =>
      match values with
      | [] => runs
      | _ :: _ =>
          let i := run_end (length values - 1) 1 values in
          runs_loop fuel' (drop i values) (runs ++ [take i values])
      end
  end.

(** [splitIntoBitflagRuns].  [zero] points at slot 0 of the sorted array.  The
    slice [values] is advanced past every zero before the filter writes
    [values[j]], so the writes land behind that slot and the name read through
    [zero] afterwards is the one the sort put first. *)
Definition splitIntoBitflagRuns (values : list Value)
  : result (option Value * list (list Value)) :=
  let values := map clear_signed values in
  let values := sort_Stable values in
  v0 <-! index_or_panic values 0;
  zv <-! (if value v0 =? 0
          then (rest <-! strip_zeros values; Ok (Some v0, rest))
          else Ok (None, values));
  let '(zero, values) := zv in
  let '(values, j) := dedup_loop (length values - 1) 1 1 values in
  let values := take j values in
  Ok (zero, runs_loop (length values) values []).

(** ** Name table builder *)

(** [shiftCount]: [for prev < next { count++; prev <<= 1 }].  After 64 shifts
    [prev] is 0 and stays 0, so a loop still running then never exits. *)
Fixpoint shiftCount_loop (fuel : nat) (count prev next : Z) : result Z :=
  if prev <? next then
    match fuel with
    | O => Abort NoReturn
    | S fuel' => shiftCount_loop fuel' (count + 1) (shl64 prev 1) next
    end
  else Ok count.

Definition shiftCount (prev next : Z) : result Z :=
  shiftCount_loop 64 0 prev next.

(** [runLastValue]: [&run[len(run)-1]]. *)
Definition runLastValue (run : list Value) : result Value :=
  match run with
  | [] => Abort PanicIndex
  | _ :: _ => index_or_panic run (length run - 1)
  end.

Record table_acc : Type := mkAcc {
  acc_names : list string;
  acc_offsets : list Z;
  acc_skips : list Z
}.

(** The inner loop of [nameAndRest] over one run. *)
Fixpoint nameAndRest_run (run : list Value) (a : table_acc) : result table_acc :=
  match run with
  | [] => Ok a
  | v :: run' =>
      let n := name v in
      let o := Z.of_nat (String.length n) in
      let names := acc_names a ++ [n] in
      if 255 <? o then Abort (ExitNameTooLong o n)
      else nameAndRest_run run'
             (mkAcc names (acc_offsets a ++ [o]) (acc_skips a))
  end.

(** The outer loop of [nameAndRest]; [r < len(runs)-1] holds exactly when a
    next run exists. *)
Fixpoint nameAndRest_loop (runs : list (list Value)) (a : table_acc)
  : result table_acc :=
  match runs with
  | [] => Ok a
  | run :: rest =>
      a <-! nameAndRest_run run a;
      match rest with
      | [] => Ok a
      | next :: _ =>
          lastv <-! runLastValue run;
          firstv <-! index_or_panic next 0;
          c <-! shiftCount (value lastv) (value firstv);
          nameAndRest_loop rest
            (mkAcc (acc_names a) (acc_offsets a ++ [0]) (acc_skips a ++ [c - 1]))
      end
  end.

(** [strings.Join(names, "")]. *)
Definition join (names : list string) : string :=
  fold_right String.append EmptyString names.

Definition nameAndRest (runs : list (list Value))
  : result (string * list Z * list Z) :=
  a <-! nameAndRest_loop runs (mkAcc [] [] []);
  Ok (join (acc_names a), acc_offsets a, acc_skips a).

(** ** The generator *)

(** The data of one flag type as the generated file holds it:
    [_stringerBitflag] of the table-driven templates, and the constants
    [_T_name], [_T_offset], [_T_skips] with the literals substituted into the
    per-type templates. *)
Record stringerBitflag : Type := mkSB {
  typename : string;
  zero : string;
  names : string;
  first : Z;
  offsets : list Z;
  skips : list Z
}.

Inductive template : Type :=
| stringBitflagCode
| stringBitflagCacheCode
| stringBitflagCodeWithSkips
| stringBitflagCacheCodeWithSkips
| stringBitflagTableDrivenCached
| stringBitflagTableDrivenNotCached.

Record Generator : Type := mkGenerator {
  cache : bool;
  table : bool
}.

Definition capCache : Z := 256.

(** [buildBitflag]: the template chosen and the data substituted into it. *)
Definition buildBitflag (g : Generator) (values : list Value) (typeName : string)
  : result (template * stringerBitflag) :=
  zr <-! splitIntoBitflagRuns values;
  let '(zero, runs) := zr in
  let zeroName :=
    match zero with
    | Some z => name z
    | None => typeName +:+ "(0)"
    end in
  run0 <-! index_or_panic runs 0;
  v0 <-! index_or_panic run0 0;
  let initialValue := Value_String v0 in
  nos <-! nameAndRest runs;
  let '(name, offsets, skips) := nos in
  let sb := mkSB typeName zeroName name initialValue offsets skips in
  if table g then
    Ok (if cache g then stringBitflagTableDrivenCached
        else stringBitflagTableDrivenNotCached, sb)
  else if cache g then
    Ok (if (length skips =? 0)%nat then stringBitflagCacheCode
        else stringBitflagCacheCodeWithSkips, sb)
  else
    Ok (if (length skips =? 0)%nat then stringBitflagCode
        else stringBitflagCodeWithSkips, sb).

(** [generate] for one type of the batch, its constants already collected by
    the front end; [buf] is the generator's output buffer. *)
Definition generate (g : Generator) (typeName : string) (values : list Value)
    (buf : list (template * stringerBitflag))
  : result (list (template * stringerBitflag)) :=
  if (length values =? 0)%nat then Abort (ExitNoValues typeName)
  else
    code <-! buildBitflag g values typeName;
    Ok (buf ++ [code]).

(** [genFile]: [for _, typeName := range typeNames { g.generate(...) }], and
    only then is the buffer formatted and written.  An exit inside the loop
    ends the process; nothing is written. *)
Fixpoint genFile_loop (g : Generator) (batch : list (string * list Value))
    (buf : list (template * stringerBitflag))
  : result (list (template * stringerBitflag)) :=
  match batch with
  | [] => Ok buf
  | (typeName, values) :: rest =>
      buf <-! generate g typeName values buf;
      genFile_loop g rest buf
  end.

Definition genFile (g : Generator) (batch : list (string * list Value))
  : result (list (template * stringerBitflag)) :=
  genFile_loop g batch [].

(** ** Run-time support of the generated code *)

(** [s[p0:p1]]; out of range is a run-time panic. *)
Definition slice (s : string) (p0 p1 : Z) : result string :=
  if (0 <=? p0) && (p0 <=? p1) && (p1 <=? Z.of_nat (String.length s))
  then Ok (substring (Z.to_nat p0) (Z.to_nat (p1 - p0)) s)
  else Abort PanicIndex.

(** [strconv.FormatUint(m, 16)]: lower-case digits, no leading zero.  A
    [uint64] has at most 16 of them. *)
Definition hex_digit (d : Z) : ascii :=
  ascii_of_nat (Z.to_nat (if d <? 10 then 48 + d else 87 + d)).

Fixpoint FormatUint_loop (fuel : nat) (m : Z) (acc : string) : string :=
  match fuel with
  | O => acc
  | S fuel' =>
      let acc := String (hex_digit (m mod 16)) acc in
      if m / 16 =? 0 then acc else FormatUint_loop fuel' (m / 16) acc
  end.

Definition FormatUint16 (m : Z) : string := FormatUint_loop 16 m "".

(** The numeric rendering [typename + "(0x" + hex + ")"]. *)
Definition hexname (typename : string) (m : Z) : string :=
  typename +:+ "(0x" +:+ FormatUint16 m +:+ ")".

(** The variables of the decode loop: the mask [m], the candidate bit [v],
    the gap index [si], the blob cursor [p1] and the buffer [b]. *)
Record decode_state : Type := mkSt {
  st_m : Z;
  st_v : Z;
  st_si : nat;
  st_p1 : Z;
  st_b : string
}.

(** How the loop ends: a [return] inside it, or all offsets used up. *)
Inductive loop_exit : Type :=
| Returned (s : string)
| Exhausted (st : decode_state).

(** The part of the loop body after [if v&m == 0 { continue }], shared by all
    templates: [m] is already [m ^ v] and [nm] is [names[p0:p1]].  [inl] is a
    [return], [inr] the buffer carried to the next round. *)
Definition emit_name (m : Z) (b nm : string) : string + string :=
  if (String.length b =? 0)%nat then
    if m =? 0 then inl nm
    else inr ("(" +:+ nm)
  else
    let b := b +:+ "|" +:+ nm in
    if m =? 0 then inl (b +:+ ")") else inr b.

(** The statements after the loop. *)
Definition finish (typename : string) (m : Z) (b : string) : string :=
  let s := hexname typename m in
  if (String.length b =? 0)%nat then s
  else b +:+ "|" +:+ s +:+ ")".

(** ** The shared decode routine *)

(** The loop of [_stringerBitflag.mstring]. *)
Fixpoint mstring_loop (sb : stringerBitflag) (offs : list Z) (st : decode_state)
  : result loop_exit :=
  match offs with
  | [] => Ok (Exhausted st)
  | o :: offs' =>
      if o =? 0 then
        sk <-! index_or_panic (skips sb) (st_si st);
        let v := shl64 (st_v st) (uint8 (sk - 1)) in
        mstring_loop sb offs'
          (mkSt (st_m st) (shl64 v 1) (S (st_si st)) (st_p1 st) (st_b st))
      else
        let p0 := st_p1 st in
        let p1 := st_p1 st + o in
        if Z.land (st_v st) (st_m st) =? 0 then
          mstring_loop sb offs'
            (mkSt (st_m st) (shl64 (st_v st) 1) (st_si st) p1 (st_b st))
        else
          let m := Z.lxor (st_m st) (st_v st) in
          nm <-! slice (names sb) p0 p1;
          match emit_name m (st_b st) nm with
          | inl s => Ok (Returned s)
          | inr b =>
              mstring_loop sb offs'
                (mkSt m (shl64 (st_v st) 1) (st_si st) p1 b)
          end
  end.

Definition mstring_exit (typename : string) (e : loop_exit) : string :=
  match e with
  | Returned s => s
  | Exhausted st => finish typename (st_m st) (st_b st)
  end.

(** [_stringerBitflag.mstring]. *)
Definition mstring (sb : stringerBitflag) (m : Z) : result string :=
  if m =? 0 then Ok (zero sb)
  else
    e <-! mstring_loop sb (offsets sb) (mkSt m (first sb) 0 0 "");
    Ok (mstring_exit (typename sb) e).

(** ** The caching wrapper of the shared routine *)

(** [_stringerBitflagCache]; [cached] is [nil] until the first insertion. *)
Record stringerBitflagCache : Type := mkCache {
  sb : stringerBitflag;
  cached : option (gmap Z string)
}.

Definition cache_lookup (c : stringerBitflagCache) (m : Z) : option string :=
  match cached c with
  | Some mp => mp !! m
  | None => None
  end.

(** [if c.cached == nil || len(c.cached) >= cap { c.cached = make(...) }]. *)
Definition cache_room (c : stringerBitflagCache) : gmap Z string :=
  match cached c with
  | None => ∅
  | Some mp => if capCache <=? Z.of_nat (size mp) then ∅ else mp
  end.

(** [_stringerBitflagCache.mstring]: the string returned and the cache
    left behind. *)
Definition cache_mstring (c : stringerBitflagCache) (m : Z)
  : result (string * stringerBitflagCache) :=
  if m =? 0 then Ok (zero (sb c), c)
  else
    match cache_lookup c m with
    | Some s => Ok (s, c)
    | None =>
        s <-! mstring (sb c) m;
        Ok (s, mkCache (sb c) (Some (<[m := s]> (cache_room c))))
    end.

(** ** The per-type decode routines *)

(** The flag type [T] of a per-type template: an integer type of [bits] bits.
    A value of [T] is its bit pattern, a [Z] in [0, 2^bits). *)
Record IntType : Type := mkIntType {
  bits : Z;
  is_signed : bool
}.

(** [T(c)] for a constant [c], and [v << k] at type [T]. *)
Definition convT (T : IntType) (z : Z) : Z := z mod 2 ^ bits T.
Definition shlT (T : IntType) (v k : Z) : Z := convT T (Z.shiftl v k).

(** [uint64(m)] for [m] of type [T]: a signed [T] is sign-extended. *)
Definition toUint64 (T : IntType) (m : Z) : Z :=
  if is_signed T && (2 ^ (bits T - 1) <=? m) then uint64 (m - 2 ^ bits T)
  else m.

(** The loop of [stringBitflagCode] (and of [_string] in
    [stringBitflagCacheCode]): every offset is a name length. *)
Fixpoint String_loop (T : IntType) (c : stringerBitflag) (offs : list Z)
    (st : decode_state) : result loop_exit :=
  match offs with
  | [] => Ok (Exhausted st)
  | o :: offs' =>
      let p0 := st_p1 st in
      let p1 := st_p1 st + o in
      if Z.land (st_v st) (st_m st) =? 0 then
        String_loop T c offs'
          (mkSt (st_m st) (shlT T (st_v st) 1) (st_si st) p1 (st_b st))
      else
        let m := Z.lxor (st_m st) (st_v st) in
        nm <-! slice (names c) p0 p1;
        match emit_name m (st_b st) nm with
        | inl s => Ok (Returned s)
        | inr b =>
            String_loop T c offs'
              (mkSt m (shlT T (st_v st) 1) (st_si st) p1 b)
        end
  end.

(** The loop of [stringBitflagCodeWithSkips] (and of [_string] in
    [stringBitflagCacheCodeWithSkips]). *)
Fixpoint String_loop_skips (T : IntType) (c : stringerBitflag) (offs : list Z)
    (st : decode_state) : result loop_exit :=
  match offs with
  | [] => Ok (Exhausted st)
  | o :: offs' =>
      if o =? 0 then
        sk <-! index_or_panic (skips c) (st_si st);
        let v := shlT T (st_v st) (uint8 (sk - 1)) in
        String_loop_skips T c offs'
          (mkSt (st_m st) (shlT T v 1) (S (st_si st)) (st_p1 st) (st_b st))
      else
        let p0 := st_p1 st in
        let p1 := st_p1 st + o in
        if Z.land (st_v st) (st_m st) =? 0 then
          String_loop_skips T c offs'
            (mkSt (st_m st) (shlT T (st_v st) 1) (st_si st) p1 (st_b st))
        else
          let m := Z.lxor (st_m st) (st_v st) in
          nm <-! slice (names c) p0 p1;
          match emit_name m (st_b st) nm with
          | inl s => Ok (Returned s)
          | inr b =>
              String_loop_skips T c offs'
                (mkSt m (shlT T (st_v st) 1) (st_si st) p1 b)
          end
  end.

Definition String_exit (T : IntType) (typename : string) (e : loop_exit)
  : string :=
  match e with
  | Returned s => s
  | Exhausted st => finish typename (toUint64 T (st_m st)) (st_b st)
  end.

(** [String] of [stringBitflagCode]. *)
Definition String_code (T : IntType) (c : stringerBitflag) (m : Z)
  : result string :=
  if m =? 0 then Ok (zero c)
  else
    e <-! String_loop T c (offsets c) (mkSt m (convT T (first c)) 0 0 "");
    Ok (String_exit T (typename c) e).

(** [String] of [stringBitflagCodeWithSkips]. *)
Definition String_code_skips (T : IntType) (c : stringerBitflag) (m : Z)
  : result string :=
  if m =? 0 then Ok (zero c)
  else
    e <-! String_loop_skips T c (offsets c) (mkSt m (convT T (first c)) 0 0 "");
    Ok (String_exit T (typename c) e).

(** The variable [_T_stringer] of the table-driven templates:
    [first: uint64(initialValue)]. *)
Definition descriptor (c : stringerBitflag) : stringerBitflag :=
  mkSB (typename c) (zero c) (names c) (uint64 (first c)) (offsets c) (skips c).

(** [String] of the table-driven templates, the cache left aside:
    [_T_stringer.mstring(uint64(m))]. *)
Definition String_table (T : IntType) (c : stringerBitflag) (m : Z)
  : result string :=
  mstring (descriptor c) (toUint64 T m).

(** What [String] computes under each template; a cache in front of it stores
    results and changes none. *)
Definition String_of (T : IntType) (code : template * stringerBitflag) (m : Z)
  : result string :=
  match fst code with
  | stringBitflagCode | stringBitflagCacheCode => String_code T (snd code) m
  | stringBitflagCodeWithSkips | stringBitflagCacheCodeWithSkips =>
      String_code_skips T (snd code) m
  | stringBitflagTableDrivenCached | stringBitflagTableDrivenNotCached =>
      String_table T (snd code) m
  end.

(** [String] of the per-type cache templates around [_string]: the map
    [_T_cache] exists from the start. *)
Definition String_cache (_string : Z → result string) (cache : gmap Z string)
    (m : Z) : result (string * gmap Z string) :=
  match cache !! m with
  | Some s => Ok (s, cache)
  | None =>
      s <-! _string m;
      let cache := if capCache <=? Z.of_nat (size cache) then ∅ else cache in
      Ok (s, <[m := s]> cache)
  end.

Definition uint64_t : IntType := mkIntType 64 false.
Definition int64_t : IntType := mkIntType 64 true.
Definition int_t : IntType := int64_t.

(** ** The golden inputs of the test suite *)

Definition flag (n : string) (bit : Z) : Value := mkValue n (2 ^ bit) true.

Definition days_in_bitflag : list Value :=
  [flag "Monday" 0; flag "Tuesday" 1; flag "Wednesday" 2; flag "Thursday" 3;
   flag "Friday" 4; flag "Saturday" 5; flag "Sunday" 6].

Definition gap_in_bitflag : list Value :=
  [mkValue "Zero" 0 true; flag "Two" 2; flag "Three" 3; flag "Five" 5;
   flag "Six" 6; flag "Seven" 7; flag "Eight" 8; flag "Nine" 9;
   flag "Eleven" 11].

Definition days_table : stringerBitflag :=
  mkSB "Days" "Days(0)" "MondayTuesdayWednesdayThursdayFridaySaturdaySunday"
       1 [6; 7; 9; 8; 6; 8; 6] [].

Definition gap_table : stringerBitflag :=
  mkSB "Gap" "Zero" "TwoThreeFiveSixSevenEightNineEleven"
       4 [3; 5; 0; 4; 3; 5; 5; 4; 0; 6] [1; 1].

Definition largegap_in_bitflag : list Value :=
  [mkValue "Seven" (2 ^ 7) false; mkValue "ThirtyOne" (2 ^ 31) false;
   mkValue "SixtyThree" (2 ^ 63) false].

Definition largestgap_in_bitflag : list Value :=
  [mkValue "Zero" (2 ^ 0) false; mkValue "SixtyThree" (2 ^ 63) false].

Definition largegap_table : stringerBitflag :=
  mkSB "Gap" "Gap(0)" "SevenThirtyOneSixtyThree" 128 [5; 0; 9; 0; 10] [23; 31].

Definition largestgap_table : stringerBitflag :=
  mkSB "Gap" "Gap(0)" "ZeroSixtyThree" 1 [4; 0; 10] [62].

(** ** Well-formed tables *)

(** The sum of the non-zero entries and the number of zero entries of
    [offsets]. *)
Definition sum_nonzero (offs : list Z) : Z :=
  foldr Z.add 0 (filter (λ o, o ≠ 0) offs).

Definition count_zero (offs : list Z) : nat :=
  length (filter (λ o, o = 0) offs).

(** The table invariants of the data model: the name lengths add up to the
    blob, and every gap sentinel has its skip count.  The ranges are those of
    the Go types ([uint8] entries, a [uint64] first bit). *)
Record well_formed (t : stringerBitflag) : Prop := mkWf {
  wf_offsets : Forall (λ o, 0 ≤ o < 256) (offsets t);
  wf_skips : Forall (λ k, 0 ≤ k < 256) (skips t);
  wf_first : 0 ≤ first t < 2 ^ 64;
  wf_blob : sum_nonzero (offsets t) = Z.of_nat (String.length (names t));
  wf_gaps : length (skips t) = count_zero (offsets t)
}.

(** The loop invariant of totality: the cursor and the gap index leave room
    for the offsets still to come, and the mask is a non-zero [uint64]. *)
Record loop_ready (t : stringerBitflag) (offs : list Z) (st : decode_state)
  : Prop := mkReady {
  ready_offsets : Forall (λ o, 0 ≤ o < 256) offs;
  ready_p1 : 0 ≤ st_p1 st;
  ready_blob : st_p1 st + sum_nonzero offs ≤ Z.of_nat (String.length (names t));
  ready_gaps : (st_si st + count_zero offs ≤ length (skips t))%nat;
  ready_m : 0 < st_m st < 2 ^ 64;
  ready_v : 0 ≤ st_v st < 2 ^ 64
}.

(** ** Sequences of calls on a cache *)

Definition cache_map (c : stringerBitflagCache) : gmap Z string :=
  default ∅ (cached c).

Definition cache_size (c : stringerBitflagCache) : nat := size (cache_map c).

Fixpoint cache_calls (c : stringerBitflagCache) (ms : list Z)
  : result stringerBitflagCache :=
  match ms with
  | [] => Ok c
  | m :: ms' =>
      r <-! cache_mstring c m;
      cache_calls (snd r) ms'
  end.

(** The cache states a sequence of calls can lead to, from the value the
    generated file declares. *)
Inductive reachable (t : stringerBitflag) : stringerBitflagCache → Prop :=
| reachable_init : reachable t (mkCache t None)
| reachable_call c m s c' :
    reachable t c →
    cache_mstring c m = Ok (s, c') →
    reachable t c'.

(** ** The zero name *)

(** The first constant declared with value 0, if any. *)
Definition first_zero (values : list Value) : option Value :=
  List.find (λ v, value v =? 0) values.

Definition zero_name (values : list Value) (typeName : string) : string :=
  match first_zero values with
  | Some z => name z
  | None => typeName +:+ "(0)"
  end.

(** ** A batch with a name that does not fit *)

Fixpoint repeat_byte (n : nat) (c : ascii) : string :=
  match n with
  | O => EmptyString
  | S n' => String c (repeat_byte n' c)
  end.

(** A name of 256 bytes. *)
Definition long_name : string := repeat_byte 256 "x"%char.

Definition long_batch : list (string * list Value) :=
  [("Long", [mkValue long_name 1 false]); ("Days", days_in_bitflag)].

(** ** Inputs on which the generator goes wrong *)

(** The smallest constant has two bits set. *)
Definition multibit_first : list Value :=
  [mkValue "A" 3 false; mkValue "B" 4 false; mkValue "C" 8 false].

Definition multibit_first_table : stringerBitflag :=
  mkSB "T" "T(0)" "ABC" 3 [1; 0; 1; 1] [0].

(** A two-bit constant below a flag at bit 4. *)
Definition multibit_gap : list Value :=
  [mkValue "A" 3 false; mkValue "B" 16 false].

Definition multibit_gap_table : stringerBitflag :=
  mkSB "T" "T(0)" "AB" 3 [1; 0; 1] [2].

(** A constant whose name is empty once the prefix [-trimprefix] names has
    been cut off (or whose line comment, used with [-linecomment], is
    empty). *)
Definition empty_name : list Value := [mkValue "" 1 false].

Definition empty_name_table : stringerBitflag :=
  mkSB "T" "T(0)" "" 1 [0] [].

(** ** What the partitioner computes *)

(** After [signed] is cleared the order is the unsigned one. *)
Definition unsigned_value (v : Value) : Prop :=
  signed v = false ∧ 0 ≤ value v < 2 ^ 64.

(** The unsigned order on the constants. *)
Definition value_le (a b : Value) : Prop := value a ≤ value b.
Definition value_lt (a b : Value) : Prop := value a < value b.

(** The duplicate filter as a function of the sorted list: an element is kept
    when it differs from its predecessor in the list and has a single bit. *)
Fixpoint dedup_from (prev : Value) (l : list Value) : list Value :=
  match l with
  | [] => []
  | x :: l' =>
      if negb (value x =? value prev) && singleBitSet (value x)
      then x :: dedup_from x l'
      else dedup_from x l'
  end.

(** The sorted constants with the leading zeros dropped. *)
Fixpoint drop_zeros (l : list Value) : list Value :=
  match l with
  | [] => []
  | v :: l' => if value v =? 0 then drop_zeros l' else l
  end.

Definition nonzero_sorted (values : list Value) : list Value :=
  drop_zeros (sort_Stable (map clear_signed values)).

(** The constants that reach the table, in table order. *)
Definition survivors (values : list Value) : list Value :=
  match nonzero_sorted values with
  | [] => []
  | v0 :: rest => v0 :: dedup_from v0 rest
  end.

(** The longest prefix of [l] that continues the run after [prev], and what
    is left of [l]. *)
Fixpoint span_chain (prev : Value) (l : list Value)
  : list Value * list Value :=
  match l with
  | [] => ([], [])
  | y :: l' =>
      if value y =? shl64 (value prev) 1
      then (y :: fst (span_chain y l'), snd (span_chain y l'))
      else ([], l)
  end.

(** A run: each value is the one before it shifted left once. *)
Fixpoint chain (run : list Value) : Prop :=
  match run with
  | [] => True
  | x :: run' =>
      match run' with
      | [] => True
      | y :: _ => value y = shl64 (value x) 1 ∧ chain run'
      end
  end.

(** Runs that are not empty and cannot be extended: the value that opens a
    run is not the shifted last value of the run before. *)
Fixpoint maximal_runs (runs : list (list Value)) : Prop :=
  match runs with
  | [] => True
  | run :: rest =>
      run ≠ [] ∧ chain run ∧
      match rest with
      | [] => True
      | next :: _ =>
          (∀ l f, last run = Some l → head next = Some f →
                  value f ≠ shl64 (value l) 1) ∧
          maximal_runs rest
      end
  end.

(** ** What a table encodes *)

(** The candidate bit and the name of every name offset, as the decode loop
    meets them. *)
Fixpoint table_entries_loop (t : stringerBitflag) (offs : list Z) (v : Z)
    (si : nat) (p1 : Z) : result (list (Z * string)) :=
  match offs with
  | [] => Ok []
  | o :: offs' =>
      if o =? 0 then
        sk <-! index_or_panic (skips t) si;
        table_entries_loop t offs'
          (shl64 (shl64 v (uint8 (sk - 1))) 1) (S si) p1
      else
        nm <-! slice (names t) p1 (p1 + o);
        es <-! table_entries_loop t offs' (shl64 v 1) si (p1 + o);
        Ok ((v, nm) :: es)
  end.

Definition table_entries (t : stringerBitflag) : result (list (Z * string)) :=
  table_entries_loop t (offsets t) (first t) 0 0.

(** The decode loop over the entries of a table. *)
Fixpoint decode_entries (es : list (Z * string)) (m : Z) (b : string)
  : string + Z * string :=
  match es with
  | [] => inr (m, b)
  | (v, nm) :: es' =>
      if Z.land v m =? 0 then decode_entries es' m b
      else
        match emit_name (Z.lxor m v) b nm with
        | inl s => inl s
        | inr b' => decode_entries es' (Z.lxor m v) b'
        end
  end.

Definition exit_view (e : loop_exit) : string + Z * string :=
  match e with
  | Returned s => inl s
  | Exhausted st => inr (st_m st, st_b st)
  end.

(** What [mstring] returns for a mask that is not 0, on the entries of the
    table. *)
Definition decode_table (typename : string) (es : list (Z * string)) (m : Z)
  : string :=
  match decode_entries es m "" with
  | inl s => s
  | inr (m', b) => finish typename m' b
  end.

(** A flag: a constant with exactly one of the 64 bits set. *)
Definition is_flag (v : Z) : Prop := ∃ k, 0 ≤ k < 64 ∧ v = 2 ^ k.

(** [entry f]: what the table holds of the constant [f]. *)
Definition entry (f : Value) : Z * string := (value f, name f).

(** The first constant declared with the value [c]. *)
Definition first_with_value (values : list Value) (c : Z) : option Value :=
  List.find (λ v, value v =? c) values.

(** The constants the table is meant to hold: for every single-bit value
    that occurs, the constant declared first with it. *)
Definition declared_flag (values : list Value) (f : Value) : Prop :=
  is_flag (value f) ∧
  first_with_value (map clear_signed values) (value f) = Some f.

(** The input is in order for the partitioner: the smallest constant that is
    not 0 has a single bit (the filter loop never looks at that one). *)
Definition smallest_is_flag (values : list Value) : Prop :=
  ∀ v0, head (nonzero_sorted values) = Some v0 → is_flag (value v0).

(** ** What the builder computes *)

Definition name_len (f : Value) : Z := Z.of_nat (String.length (name f)).

(** A name the table can hold as a name: not empty (a length 0 would read as
    a gap sentinel) and at most 255 bytes. *)
Definition fits (f : Value) : Prop := 0 < name_len f ≤ 255.

(** The offsets and the skip counts for a list of runs. *)
Fixpoint offsets_of (runs : list (list Value)) : list Z :=
  match runs with
  | [] => []
  | run :: rest =>
      map name_len run ++
      match rest with
      | [] => []
      | _ :: _ => 0 :: offsets_of rest
      end
  end.

Definition gap_skip (run next : list Value) : Z :=
  match last run, head next with
  | Some l, Some f => Z.log2 (value f) - Z.log2 (value l) - 1
  | _, _ => 0
  end.

Fixpoint skips_of (runs : list (list Value)) : list Z :=
  match runs with
  | [] => []
  | run :: rest =>
      match rest with
      | [] => []
      | next :: _ => gap_skip run next :: skips_of rest
      end
  end.

(** Runs as the data model has them: runs of flags with names that fit, and
    between two runs at least one bit position that is not used. *)
Fixpoint proper_runs (runs : list (list Value)) : Prop :=
  match runs with
  | [] => True
  | run :: rest =>
      run ≠ [] ∧ chain run ∧
      Forall (λ f, is_flag (value f) ∧ fits f) run ∧
      match rest with
      | [] => True
      | next :: _ =>
          (∀ l f, last run = Some l → head next = Some f →
                  2 * value l < value f) ∧
          proper_runs rest
      end
  end.

(** ** Inputs in order and what is built from them *)

(** A bit position in a gap: between two declared flags, and not the
    position of a declared flag. *)
Definition gap_bit (values : list Value) (k : Z) : Prop :=
  0 ≤ k < 64 ∧
  (∃ f g, declared_flag values f ∧ declared_flag values g ∧
          value f < 2 ^ k < value g) ∧
  ∀ f, declared_flag values f → value f ≠ 2 ^ k.

(** What [buildBitflag] is meant to return for [values]: the entries of the
    table are the survivors in table order, the table is well-formed, and
    every skip count is at least 1. *)
Record built_in_order (values : list Value) (typeName : string)
    (t : stringerBitflag) : Prop := mkBuilt {
  built_typename : typename t = typeName;
  built_zero : zero t = zero_name values typeName;
  built_entries : table_entries t = Ok (map entry (survivors values));
  built_wf : well_formed t;
  built_skips : Forall (λ k, 1 ≤ k ≤ 62) (skips t);
  built_first : ∃ v0, head (survivors values) = Some v0 ∧ first t = value v0
}.

(** Runs the builder can walk: no run is empty, the values are positive, and
    every run but the first opens with a value of at most [2^63]. *)
Fixpoint walkable (runs : list (list Value)) : Prop :=
  match runs with
  | [] => True
  | run :: rest =>
      run ≠ [] ∧ Forall (λ f, 0 < value f < 2 ^ 64) run ∧
      match rest with
      | [] => True
      | next :: _ =>
          (∀ f, head next = Some f → value f ≤ 2 ^ 63) ∧ walkable rest
      end
  end.

(** ** What the partitioner keeps *)

(** The constants that reach the runs: the constant declared first with its
    value, for every value that has a single bit, and for the smallest value
    that is not 0 (which the filter loop never tests). *)
Definition kept (values : list Value) (f : Value) : Prop :=
  first_with_value (map clear_signed values) (value f) = Some f ∧
  value f ≠ 0 ∧
  (is_flag (value f) ∨ ∀ v, v ∈ values → value v ≠ 0 → value f ≤ value v).

(** Constants with a 0, a value declared twice and a value of two bits above
    the smallest flag. *)
Definition mixed_in_bitflag : list Value :=
  [mkValue "Both" 12 false; mkValue "None" 0 false; mkValue "Low" 4 false;
   mkValue "High" 8 false; mkValue "Top" 32 false; mkValue "Alias" 8 false].

(** ** What a mask decodes to *)

(** The parts of a decoded mask separated by [|]. *)
Fixpoint bar_join (ps : list string) : string :=
  match ps with
  | [] => ""
  | p :: ps' =>
      match ps' with
      | [] => p
      | _ :: _ => p +:+ "|" +:+ bar_join ps'
      end
  end.

(** One part is printed as it is, several between parentheses. *)
Definition render (ps : list string) : string :=
  match ps with
  | [] => ""
  | [p] => p
  | _ :: _ :: _ => "(" +:+ bar_join ps +:+ ")"
  end.

(** The flags of [fs] that the mask [m] holds, and the bits of [m] that are
    the bit of no flag of [fs]. *)
Definition named (fs : list Value) (m : Z) : list Value :=
  filter (λ f, Z.land (value f) m ≠ 0) fs.

Definition flag_bits (fs : list Value) : Z :=
  foldr Z.lor 0 (map value fs).

Definition unnamed (fs : list Value) (m : Z) : Z :=
  Z.ldiff m (flag_bits fs).

(** The string for a mask [m] that is not 0, with the flags [fs] in table
    order: the names of the flags in [m], then the bits left in hex. *)
Definition decoded (typename : string) (fs : list Value) (m : Z) : string :=
  render (map name (named fs m) ++
          if unnamed fs m =? 0 then [] else [hexname typename (unnamed fs m)]).

(** The buffer of the decode loop after the parts [acc]. *)
Definition open_paren (acc : list string) : string :=
  match acc with
  | [] => ""
  | _ :: _ => "(" +:+ bar_join acc
  end.

(** ** Constants of a flag type *)

(** A constant of the flag type [T] as the front end records it: [value] is
    the 64-bit pattern of a value of [T], sign-extended when [T] is signed. *)
Definition typed (T : IntType) (v : Value) : Prop :=
  ∃ x, 0 ≤ x < 2 ^ bits T ∧ value v = toUint64 T x.

Definition uint8_t : IntType := mkIntType 8 false.
Definition int16_t : IntType := mkIntType 16 true.

(** The runs of [gap_in_bitflag]. *)
Definition gap_runs : list (list Value) :=
  [[mkValue "Two" (2 ^ 2) false; mkValue "Three" (2 ^ 3) false];
   [mkValue "Five" (2 ^ 5) false; mkValue "Six" (2 ^ 6) false;
    mkValue "Seven" (2 ^ 7) false; mkValue "Eight" (2 ^ 8) false;
    mkValue "Nine" (2 ^ 9) false];
   [mkValue "Eleven" (2 ^ 11) false]].

(** ** Sequences of calls on a per-type cache *)

(** The states of the map [_T_cache] of a per-type cache template: empty when
    the program starts, then whatever the calls of [String] leave. *)
Inductive reachable_cache (_string : Z → result string)
  : gmap Z string → Prop :=
| reachable_cache_init : reachable_cache _string ∅
| reachable_cache_call cache m s cache' :
    reachable_cache _string cache →
    String_cache _string cache m = Ok (s, cache') →
    reachable_cache _string cache'.

(** What [genFile] asks of one type of the batch. *)
Definition builds (g : Generator) (tv : string * list Value)
    (code : template * stringerBitflag) : Prop :=
  snd tv ≠ [] ∧ buildBitflag g (snd tv) (fst tv) = Ok code.

(** ** The integer lists of the generated file *)

(** [%d] of an [int]: decimal digits, no leading zero, [-] before a negative
    number.  An [int] has at most 19 digits. *)
Definition dec_digit (d : Z) : ascii := ascii_of_nat (Z.to_nat (48 + d)).

Fixpoint FormatInt_loop (fuel : nat) (n : Z) (acc : string) : string :=
  match fuel with
  | O => acc
  | S fuel' =>
      let acc := String (dec_digit (n mod 10)) acc in
      if n / 10 =? 0 then acc else FormatInt_loop fuel' (n / 10) acc
  end.

Definition FormatInt (n : Z) : string :=
  if n <? 0 then String "-" (FormatInt_loop 19 (- n) "")
  else FormatInt_loop 19 n "".

(** [intString]: [for _, v := range values { fmt.Fprintf(r, "%s%d", sep, v);
    sep = ", " }]. *)
Fixpoint intString_loop (values : list Z) (sep r : string) : string :=
  match values with
  | [] => r
  | v :: values' => intString_loop values' ", " (r +:+ sep +:+ FormatInt v)
  end.

Definition intString (values : list Z) : string :=
  intString_loop values "" "".

(** Reading the elements of a list literal back: decimal numbers separated by
    a comma and blanks. *)
Definition digit_of (c : ascii) : option Z :=
  let n := Z.of_nat (nat_of_ascii c) in
  if (48 <=? n) && (n <=? 57) then Some (n - 48) else None.

Fixpoint read_ints (s : string) (cur : option Z) (acc : list Z)
  : option (list Z) :=
  match s with
  | EmptyString =>
      match cur with
      | Some n => Some (acc ++ [n])
      | None => match acc with [] => Some [] | _ :: _ => None end
      end
  | String c s' =>
      match digit_of c with
      | Some d => read_ints s' (Some (10 * default 0 cur + d)) acc
      | None =>
          if Ascii.eqb c ","%char then
            match cur with
            | Some n => read_ints s' None (acc ++ [n])
            | None => None
            end
          else if Ascii.eqb c " "%char then
            match cur with
            | Some _ => None
            | None => read_ints s' None acc
            end
          else None
      end
  end.
(** The text [intString] has appended to [r]. *)
Fixpoint intString_body (values : list Z) (sep : string) : string :=
  match values with
  | [] => ""
  | v :: values' => sep +:+ FormatInt v +:+ intString_body values' ", "
  end.

(** ** What the output depends on *)

(** [buildBitflag] after the partitioner, from the zero name and the runs. *)
Definition build_from (g : Generator) (typeName zeroName : string)
    (runs : list (list Value)) : result (template * stringerBitflag) :=
  run0 <-! index_or_panic runs 0;
  v0 <-! index_or_panic run0 0;
  let initialValue := Value_String v0 in
  nos <-! nameAndRest runs;
  let '(name, offsets, skips) := nos in
  let sb := mkSB typeName zeroName name initialValue offsets skips in
  if table g then
    Ok (if cache g then stringBitflagTableDrivenCached
        else stringBitflagTableDrivenNotCached, sb)
  else if cache g then
    Ok (if (length skips =? 0)%nat then stringBitflagCacheCode
        else stringBitflagCacheCodeWithSkips, sb)
  else
    Ok (if (length skips =? 0)%nat then stringBitflagCode
        else stringBitflagCodeWithSkips, sb).

(** The constants the flag set is made of: those that are 0 and those of a
    single bit. *)
Definition zero_or_flag (v : Value) : bool :=
  (value v =? 0) || singleBitSet (value v).

(** The days of the package documentation, with a constant of two bits. *)
Definition weekend_in_bitflag : list Value :=
  days_in_bitflag ++ [mkValue "Weekend" (Z.lor (2 ^ 5) (2 ^ 6)) true].

(** ** The partitioner of the plain stringer *)

(** The duplicate filter of [splitIntoRuns]:
    [if values[i].value != values[i-1].value { values[j] = values[i]; j++ }]. *)
Fixpoint uniq_loop (n i j : nat) (values : list Value) : list Value * nat :=
  match n with
  | O => (values, j)
  | S n' =>
      match values !! i, values !! (i - 1)%nat with
      | Some vi, Some vp =>
          if negb (value vi =? value vp)
          then uniq_loop n' (S i) (S j) (<[j := vi]> values)
          else uniq_loop n' (S i) j values
      | _, _ => (values, j)
      end
  end.

(** [for i < len(values) && values[i].value == values[i-1].value+1 { i++ }]. *)
Fixpoint succ_end (n i : nat) (values : list Value) : nat :=
  match n with
  | O => i
  | S n' =>
      match values !! i, values !! (i - 1)%nat with
      | Some vi, Some vp =>
          if value vi =? uint64 (value vp + 1) then succ_end n' (S i) values
          else i
      | _, _ => i
      end
  end.

Fixpoint succ_runs_loop (fuel : nat) (values : list Value)
    (runs : list (list Value)) : list (list Value) :=
  match fuel with
  | O => runs
  | S fuel' =>
      match values with
      | [] => runs
      | _ :: _ =>
          let i := succ_end (length values - 1) 1 values in
          succ_runs_loop fuel' (drop i values) (runs ++ [take i values])
      end
  end.

(** [splitIntoRuns].  The input slice is known to be non-empty, as the source
    says: [generate] exits before the call when it is empty. *)
Definition splitIntoRuns (values : list Value) : list (list Value) :=
  let values := sort_Stable values in
  let '(values, j) := uniq_loop (length values - 1) 1 1 values in
  let values := take j values in
  succ_runs_loop (length values) values [].

(** The three shapes of the generated [String] method, and the choice
    [generate] makes between them. *)
Inductive pattern : Type :=
| OneRun
| MultipleRuns
| Map.

Definition choose_pattern (runs : list (list Value)) : pattern :=
  if (length runs =? 1)%nat then OneRun
  else if (length runs <=? 10)%nat then MultipleRuns
  else Map.

(** [generate] without [-bitflag], up to the choice of the method; the
    builders are not part of the embedding. *)
Definition generate_plain (typeName : string) (values : list Value)
  : result (pattern * list (list Value)) :=
  if (length values =? 0)%nat then Abort (ExitNoValues typeName)
  else
    let runs := splitIntoRuns values in
    Ok (choose_pattern runs, runs).

(** ** What the plain partitioner computes *)

(** The number [byValue.Less] compares: the value read as the type has it. *)
Definition key (v : Value) : Z :=
  if signed v then int64 (value v) else value v.

Definition key_le (a b : Value) : Prop := key a ≤ key b.
Definition key_lt (a b : Value) : Prop := key a < key b.

(** The constants of one type: 64-bit patterns, all signed or all unsigned. *)
Definition of_one_type (s : bool) (v : Value) : Prop :=
  0 ≤ value v < 2 ^ 64 ∧ signed v = s.

Fixpoint uniq_from (prev : Value) (l : list Value) : list Value :=
  match l with
  | [] => []
  | x :: l' =>
      if negb (value x =? value prev) then x :: uniq_from x l'
      else uniq_from x l'
  end.

Fixpoint span_succ (prev : Value) (l : list Value)
  : list Value * list Value :=
  match l with
  | [] => ([], [])
  | y :: l' =>
      if value y =? uint64 (value prev + 1)
      then (y :: fst (span_succ y l'), snd (span_succ y l'))
      else ([], l)
  end.

(** A run of the plain stringer: each value is the one before it plus 1. *)
Fixpoint succ_chain (run : list Value) : Prop :=
  match run with
  | [] => True
  | x :: run' =>
      match run' with
      | [] => True
      | y :: _ => value y = uint64 (value x + 1) ∧ succ_chain run'
      end
  end.

Fixpoint succ_maximal (runs : list (list Value)) : Prop :=
  match runs with
  | [] => True
  | run :: rest =>
      run ≠ [] ∧ succ_chain run ∧
      match rest with
      | [] => True
      | next :: _ =>
          (∀ l f, last run = Some l → head next = Some f →
                  value f ≠ uint64 (value l + 1)) ∧
          succ_maximal rest
      end
  end.

(** Constants of a signed type around 0, with a repeated value. *)
Definition signed_in_plain : list Value :=
  [mkValue "One" 1 true; mkValue "MinusOne" (2 ^ 64 - 1) true;
   mkValue "Zero" 0 true; mkValue "Uno" 1 true; mkValue "Five" 5 true].

(** ** Reading the hex rendering back *)

Definition hex_of (c : ascii) : option Z :=
  let n := Z.of_nat (nat_of_ascii c) in
  if (48 <=? n) && (n <=? 57) then Some (n - 48)
  else if (97 <=? n) && (n <=? 102) then Some (n - 87)
  else None.

Fixpoint read_hex_loop (s : string) (cur : Z) : option Z :=
  match s with
  | EmptyString => Some cur
  | String c s' =>
      match hex_of c with
      | Some d => read_hex_loop s' (16 * cur + d)
      | None => None
      end
  end.

(** The number a non-empty string of lower-case hex digits denotes. *)
Definition read_hex (s : string) : option Z :=
  match s with
  | EmptyString => None
  | String _ _ => read_hex_loop s 0
  end.

(** * Properties *)

(** ** Basic facts *)

(** The case distinction of [buildBitflag] on the generator options. *)
Ltac template_cases g :=
  destruct (table g), (cache g); try destruct (Nat.eqb _ _).

Lemma rbind_Ok {A B} (r : result A) (k : A → result B) (b : B) :
  rbind r k = Ok b ↔ ∃ a, r = Ok a ∧ k a = Ok b.
Proof.
  destruct r as [a|e]; simpl; split.
  - eauto.
  - intros (a' & [= ->] & ?). done.
  - done.
  - intros (a' & ? & ?). done.
Qed.

Lemma uint64_range z : 0 ≤ uint64 z < 2 ^ 64.
Proof. unfold uint64. apply Z.mod_pos_bound. lia. Qed.

Lemma uint64_small z : 0 ≤ z < 2 ^ 64 → uint64 z = z.
Proof. intros. unfold uint64. by apply Z.mod_small. Qed.

Lemma shl64_range v k : 0 ≤ shl64 v k < 2 ^ 64.
Proof. apply uint64_range. Qed.

Lemma lxor_range a b :
  0 ≤ a < 2 ^ 64 → 0 ≤ b < 2 ^ 64 → 0 ≤ Z.lxor a b < 2 ^ 64.
Proof.
  intros Ha Hb.
  assert (0 ≤ Z.lxor a b) by (apply Z.lxor_nonneg; lia).
  split; [done|].
  destruct (Z.eq_dec (Z.lxor a b) 0) as [->|Hne]; [lia|].
  apply Z.log2_lt_pow2; [lia|].
  pose proof (Z.log2_lxor a b ltac:(lia) ltac:(lia)) as Hl.
  assert (Z.log2 a < 64).
  { destruct (Z.eq_dec a 0) as [->|]; [simpl; lia|]. apply Z.log2_lt_pow2; lia. }
  assert (Z.log2 b < 64).
  { destruct (Z.eq_dec b 0) as [->|]; [simpl; lia|]. apply Z.log2_lt_pow2; lia. }
  lia.
Qed.

Lemma sum_nonzero_cons o offs :
  sum_nonzero (o :: offs) = o + sum_nonzero offs.
Proof.
  unfold sum_nonzero. rewrite filter_cons.
  destruct (decide (o ≠ 0)) as [|Hz]; simpl; [done|].
  assert (o = 0) by lia. lia.
Qed.

Lemma count_zero_cons o offs :
  count_zero (o :: offs) =
  if o =? 0 then S (count_zero offs) else count_zero offs.
Proof.
  unfold count_zero. rewrite filter_cons.
  destruct (Z.eqb_spec o 0) as [->|Hne].
  - by rewrite decide_True.
  - by rewrite decide_False.
Qed.

Lemma sum_nonzero_nonneg offs :
  Forall (λ o, 0 ≤ o < 256) offs → 0 ≤ sum_nonzero offs.
Proof.
  induction 1 as [|o offs Ho _ IH]; [done|].
  rewrite sum_nonzero_cons. lia.
Qed.

Lemma slice_Ok s p0 p1 :
  0 ≤ p0 → p0 ≤ p1 → p1 ≤ Z.of_nat (String.length s) →
  slice s p0 p1 = Ok (substring (Z.to_nat p0) (Z.to_nat (p1 - p0)) s).
Proof.
  intros H0 H1 H2. unfold slice.
  destruct (Z.leb_spec 0 p0); [|lia].
  destruct (Z.leb_spec p0 p1); [|lia].
  destruct (Z.leb_spec p1 (Z.of_nat (String.length s))); [|lia].
  done.
Qed.

(** ** The decode loop never fails on a well-formed table *)

Lemma emit_name_inr m b nm b' : emit_name m b nm = inr b' → m ≠ 0.
Proof.
  unfold emit_name.
  destruct (String.length b =? 0)%nat, (Z.eqb_spec m 0); congruence.
Qed.

Lemma emit_name_inl m b nm s : emit_name m b nm = inl s → m = 0.
Proof.
  unfold emit_name.
  destruct (String.length b =? 0)%nat, (Z.eqb_spec m 0); congruence.
Qed.

Lemma index_or_panic_Ok {A} (l : list A) (i : nat) :
  (i < length l)%nat → ∃ x, index_or_panic l i = Ok x ∧ l !! i = Some x.
Proof.
  intros Hi. unfold index_or_panic.
  destruct (lookup_lt_is_Some_2 l i Hi) as [x Hx].
  rewrite Hx. eauto.
Qed.

Lemma mstring_loop_total t offs : ∀ st,
  loop_ready t offs st →
  ∃ e, mstring_loop t offs st = Ok e ∧
       match e with
       | Returned _ => True
       | Exhausted st' => 0 < st_m st' < 2 ^ 64
       end.
Proof.
  induction offs as [|o offs IH]; intros st [Hoffs Hp1 Hblob Hgaps Hm Hv].
  - simpl. eauto.
  - apply Forall_cons in Hoffs as [Ho Hoffs].
    rewrite sum_nonzero_cons in Hblob. rewrite count_zero_cons in Hgaps.
    pose proof (sum_nonzero_nonneg offs Hoffs) as Hsum.
    simpl. destruct (Z.eqb_spec o 0) as [->|Hne].
    + destruct (index_or_panic_Ok (skips t) (st_si st)) as (sk & -> & _); [lia|].
      simpl. apply IH. constructor; simpl; auto using shl64_range; lia.
    + destruct (Z.eqb_spec (Z.land (st_v st) (st_m st)) 0) as [Hz|Hnz].
      * apply IH. constructor; simpl; auto using shl64_range; lia.
      * rewrite slice_Ok by lia. simpl.
        destruct (emit_name _ _ _) as [s|b] eqn:Hemit.
        { by exists (Returned s). }
        apply emit_name_inr in Hemit.
        pose proof (lxor_range (st_m st) (st_v st) ltac:(lia) Hv).
        apply IH. constructor; simpl; auto using shl64_range; lia.
Qed.

Lemma well_formed_ready t m :
  well_formed t → 0 < m < 2 ^ 64 →
  loop_ready t (offsets t) (mkSt m (first t) 0 0 "").
Proof.
  intros [Hoffs _ Hfirst Hblob Hgaps] Hm.
  constructor; simpl; auto; lia.
Qed.

Lemma mstring_Ok t m :
  well_formed t → 0 ≤ m < 2 ^ 64 → ∃ s, mstring t m = Ok s.
Proof.
  intros Hwf Hm. unfold mstring.
  destruct (Z.eqb_spec m 0) as [->|Hne]; [eauto|].
  destruct (mstring_loop_total t (offsets t) (mkSt m (first t) 0 0 ""))
    as (e & -> & _); [|simpl; eauto].
  apply well_formed_ready; [done|lia].
Qed.

(** C1. Totality of the decode routine.  On every well-formed table and for
    every 64-bit mask [mstring] returns a string: no index into [skips] and no
    slice of [names] leaves its bounds.  The mask 0 yields the zero name; for
    any other mask the loop either returns from inside, having matched every
    bit, or runs out of offsets with a non-zero remainder of the mask, which
    is then rendered as the hexadecimal fallback [typename(0x...)]. *)
Theorem C1_mstring_total (t : stringerBitflag) (m : Z) :
  well_formed t → 0 ≤ m < 2 ^ 64 →
  ∃ s, mstring t m = Ok s ∧
       (m = 0 → s = zero t) ∧
       (m ≠ 0 →
        ∃ e, mstring_loop t (offsets t) (mkSt m (first t) 0 0 "") = Ok e ∧
             match e with
             | Returned s' => s = s'
             | Exhausted st =>
                 0 < st_m st < 2 ^ 64 ∧
                 s = finish (typename t) (st_m st) (st_b st)
             end).
Proof.
  intros Hwf Hm. unfold mstring.
  destruct (Z.eqb_spec m 0) as [->|Hne].
  - exists (zero t). split; [done|]. split; [done|]. intros []. done.
  - destruct (mstring_loop_total t (offsets t) (mkSt m (first t) 0 0 ""))
      as (e & He & Hres).
    { apply well_formed_ready; [done|lia]. }
    rewrite He. simpl. eexists. split; [done|].
    split; [intros; lia|]. intros _. exists e. split; [done|].
    destruct e; simpl; auto.
Qed.

Lemma gap_table_well_formed : well_formed gap_table.
Proof.
  constructor; simpl.
  - repeat constructor; lia.
  - repeat constructor; lia.
  - lia.
  - reflexivity.
  - reflexivity.
Qed.

Lemma days_table_well_formed : well_formed days_table.
Proof.
  constructor; simpl.
  - repeat constructor; lia.
  - constructor.
  - lia.
  - reflexivity.
  - reflexivity.
Qed.

Lemma C1_mstring_total_witness :
  ∃ s, mstring gap_table (2 ^ 4 + 2 ^ 11) = Ok s ∧
       (2 ^ 4 + 2 ^ 11 = 0 → s = zero gap_table) ∧
       (2 ^ 4 + 2 ^ 11 ≠ 0 →
        ∃ e, mstring_loop gap_table (offsets gap_table)
               (mkSt (2 ^ 4 + 2 ^ 11) (first gap_table) 0 0 "") = Ok e ∧
             match e with
             | Returned s' => s = s'
             | Exhausted st =>
                 0 < st_m st < 2 ^ 64 ∧
                 s = finish (typename gap_table) (st_m st) (st_b st)
             end).
Proof.
  apply (C1_mstring_total gap_table (2 ^ 4 + 2 ^ 11)).
  - exact gap_table_well_formed.
  - lia.
Defined.

(** ** The bounded cache *)

Lemma cache_lookup_map c m : cache_lookup c m = cache_map c !! m.
Proof.
  unfold cache_lookup, cache_map. destruct (cached c); [done|].
  simpl. by rewrite lookup_empty.
Qed.

Lemma cache_room_below c :
  (cache_size c < 256)%nat → cache_room c = cache_map c.
Proof.
  unfold cache_size, cache_room, cache_map, capCache.
  destruct (cached c) as [mp|]; simpl; [|done].
  intros Hlt. destruct (Z.leb_spec 256 (Z.of_nat (size mp))); [lia|done].
Qed.

Lemma cache_room_full c :
  (256 ≤ cache_size c)%nat → cache_room c = ∅.
Proof.
  unfold cache_size, cache_room, cache_map, capCache.
  destruct (cached c) as [mp|]; simpl; [|done].
  intros Hge. destruct (Z.leb_spec 256 (Z.of_nat (size mp))); [done|lia].
Qed.

Lemma cache_room_size c : (size (cache_room c) < 256)%nat.
Proof.
  unfold cache_room, capCache.
  destruct (cached c) as [mp|]; [|rewrite map_size_empty; lia].
  destruct (Z.leb_spec 256 (Z.of_nat (size mp)));
    [rewrite map_size_empty|]; lia.
Qed.

(** The three ways a call can end. *)
Lemma cache_mstring_cases c m s c' :
  cache_mstring c m = Ok (s, c') →
  c' = c ∨
  (m ≠ 0 ∧ cache_lookup c m = None ∧ mstring (sb c) m = Ok s ∧
   c' = mkCache (sb c) (Some (<[m := s]> (cache_room c)))).
Proof.
  unfold cache_mstring. destruct (Z.eqb_spec m 0) as [->|Hne].
  - intros [= <- <-]. by left.
  - destruct (cache_lookup c m) as [s0|] eqn:Hhit.
    + intros [= <- <-]. by left.
    + intros Hr. apply rbind_Ok in Hr as (s1 & Hs1 & [= <- <-]).
      right. done.
Qed.

Lemma cache_mstring_miss c m s :
  m ≠ 0 → cache_lookup c m = None → mstring (sb c) m = Ok s →
  cache_mstring c m = Ok (s, mkCache (sb c) (Some (<[m := s]> (cache_room c)))).
Proof.
  intros Hne Hmiss Hs. unfold cache_mstring.
  destruct (Z.eqb_spec m 0); [done|]. by rewrite Hmiss, Hs.
Qed.

Lemma reachable_size t c : reachable t c → (cache_size c ≤ 256)%nat.
Proof.
  induction 1 as [|c m s c' _ IH Hcall].
  - unfold cache_size, cache_map. simpl. rewrite map_size_empty. lia.
  - apply cache_mstring_cases in Hcall as [->|(_ & _ & _ & ->)]; [done|].
    unfold cache_size, cache_map. simpl.
    pose proof (cache_room_size c).
    pose proof (map_size_insert m s (cache_room c)) as Hsz.
    destruct (cache_room c !! m); unfold id in Hsz; lia.
Qed.

Lemma reachable_sb t c : reachable t c → sb c = t.
Proof.
  induction 1 as [|c m s c' _ IH Hcall]; [done|].
  by apply cache_mstring_cases in Hcall as [->|(_ & _ & _ & ->)].
Qed.

Lemma cache_calls_app c ms1 ms2 :
  cache_calls c (ms1 ++ ms2) = (c1 <-! cache_calls c ms1; cache_calls c1 ms2).
Proof.
  revert c. induction ms1 as [|m ms1 IH]; intros c; simpl; [done|].
  destruct (cache_mstring c m) as [[s c1]|e]; simpl; [apply IH|done].
Qed.

Lemma cache_calls_reachable t ms : ∀ c c',
  reachable t c → cache_calls c ms = Ok c' → reachable t c'.
Proof.
  induction ms as [|m ms IH]; intros c c' Hc; simpl.
  - by intros [= <-].
  - intros Hr. apply rbind_Ok in Hr as ([s c1] & Hcall & Hrest).
    eapply IH; [|exact Hrest]. simpl. eapply reachable_call; eauto.
Qed.

(** Distinct masks that are not cached yet each add one entry, as long as
    the capacity is not reached. *)
Lemma cache_calls_distinct ms : ∀ c,
  well_formed (sb c) →
  NoDup ms →
  Forall (λ m, 0 < m < 2 ^ 64) ms →
  Forall (λ m, cache_map c !! m = None) ms →
  (cache_size c + length ms ≤ 256)%nat →
  ∃ c', cache_calls c ms = Ok c' ∧ sb c' = sb c ∧
        cache_size c' = (cache_size c + length ms)%nat ∧
        ∀ k, k ∉ ms → cache_map c !! k = None → cache_map c' !! k = None.
Proof.
  induction ms as [|m ms IH]; intros c Hwf Hnd Hrange Hfresh Hsize.
  - exists c. simpl. split_and!; [done|done|lia|auto].
  - apply NoDup_cons in Hnd as [Hm Hnd].
    apply Forall_cons in Hrange as [Hmr Hrange].
    apply Forall_cons in Hfresh as [Hmf Hfresh].
    simpl in Hsize.
    destruct (mstring_Ok (sb c) m Hwf ltac:(lia)) as [s Hs].
    simpl. rewrite (cache_mstring_miss c m s); [|lia|by rewrite cache_lookup_map|done].
    simpl. rewrite cache_room_below by lia.
    set (c1 := mkCache (sb c) (Some (<[m := s]> (cache_map c)))).
    assert (Hsz1 : cache_size c1 = S (cache_size c)).
    { unfold cache_size at 1. unfold cache_map at 1. simpl.
      by rewrite map_size_insert_None. }
    destruct (IH c1) as (c' & Hcalls & Hsb & Hsz & Hframe).
    + done.
    + done.
    + done.
    + apply Forall_forall. intros k Hk.
      unfold cache_map at 1. simpl.
      rewrite lookup_insert_ne by (intros ->; done).
      by eapply Forall_forall in Hfresh.
    + lia.
    + exists c'. split_and!; [done|done|lia|].
      intros k Hk Hkc. apply Hframe.
      * intros Hin. apply Hk. by right.
      * unfold cache_map at 1. simpl.
        rewrite lookup_insert_ne; [done|]. intros ->. apply Hk. by left.
Qed.

(** C7. The cache of the shared routine is flushed whole at capacity.  For a
    well-formed table and 257 distinct non-zero masks [ms ++ [m]] decoded in
    turn from the initial state: the first 256 calls fill the cache to
    exactly 256 entries, and the 257th leaves exactly one entry, the new one.
    The rule behind it holds in every state: an insertion that finds 256 or
    more entries leaves the singleton map; and no state reachable by calls
    holds more than 256 entries. *)
Theorem C7_cache_flush (t : stringerBitflag) (ms : list Z) (m : Z) :
  well_formed t →
  NoDup (ms ++ [m]) →
  Forall (λ k, 0 < k < 2 ^ 64) (ms ++ [m]) →
  length ms = 256%nat →
  (∃ c256 s c257,
      cache_calls (mkCache t None) ms = Ok c256 ∧
      cache_size c256 = 256%nat ∧
      cache_mstring c256 m = Ok (s, c257) ∧
      cached c257 = Some {[m := s]} ∧
      cache_size c257 = 1%nat) ∧
  (∀ c k s c',
      cache_mstring c k = Ok (s, c') →
      k ≠ 0 → cache_lookup c k = None → (256 ≤ cache_size c)%nat →
      cached c' = Some {[k := s]} ∧ cache_size c' = 1%nat) ∧
  (∀ c, reachable t c → (cache_size c ≤ 256)%nat).
Proof.
  intros Hwf Hnd Hrange Hlen.
  assert (Hflush : ∀ c k s c',
      cache_mstring c k = Ok (s, c') →
      k ≠ 0 → cache_lookup c k = None → (256 ≤ cache_size c)%nat →
      cached c' = Some {[k := s]} ∧ cache_size c' = 1%nat).
  { intros c k s c' Hcall Hk Hmiss Hfull.
    unfold cache_mstring in Hcall.
    destruct (Z.eqb_spec k 0); [done|]. rewrite Hmiss in Hcall.
    apply rbind_Ok in Hcall as (s1 & _ & [= <- <-]).
    rewrite cache_room_full by done. rewrite insert_empty.
    split; [done|]. unfold cache_size, cache_map. simpl.
    apply map_size_singleton. }
  split_and!; [|exact Hflush|apply reachable_size].
  apply NoDup_app in Hnd as (Hndms & Hdisj & _).
  apply Forall_app in Hrange as [Hrms Hrm].
  apply Forall_cons in Hrm as [Hrm _].
  destruct (cache_calls_distinct ms (mkCache t None)) as (c256 & Hcalls & Hsb & Hsz & Hframe).
  - done.
  - done.
  - done.
  - apply Forall_forall. intros k _. unfold cache_map. simpl. apply lookup_empty.
  - unfold cache_size, cache_map. simpl. rewrite map_size_empty. lia.
  - assert (Hsz256 : cache_size c256 = 256%nat).
    { rewrite Hsz. unfold cache_size, cache_map. simpl.
      rewrite map_size_empty. lia. }
    assert (Hmiss : cache_lookup c256 m = None).
    { rewrite cache_lookup_map. apply Hframe.
      - intros Hin. apply (Hdisj m Hin). by left.
      - unfold cache_map. simpl. apply lookup_empty. }
    destruct (mstring_Ok (sb c256) m) as [s Hs]; [by rewrite Hsb|lia|].
    pose proof (cache_mstring_miss c256 m s ltac:(lia) Hmiss Hs) as Hcall.
    destruct (Hflush _ _ _ _ Hcall ltac:(lia) Hmiss ltac:(lia)) as [Hc Hone].
    eexists c256, s, _. split_and!; eauto.
Qed.

Lemma C7_cache_flush_witness :
  (∃ c256 s c257,
      cache_calls (mkCache gap_table None) (Z.of_nat <$> seq 1 256) = Ok c256 ∧
      cache_size c256 = 256%nat ∧
      cache_mstring c256 257 = Ok (s, c257) ∧
      cached c257 = Some {[257 := s]} ∧
      cache_size c257 = 1%nat) ∧
  (∀ c k s c',
      cache_mstring c k = Ok (s, c') →
      k ≠ 0 → cache_lookup c k = None → (256 ≤ cache_size c)%nat →
      cached c' = Some {[k := s]} ∧ cache_size c' = 1%nat) ∧
  (∀ c, reachable gap_table c → (cache_size c ≤ 256)%nat).
Proof.
  apply (C7_cache_flush gap_table (Z.of_nat <$> seq 1 256) 257).
  - exact gap_table_well_formed.
  - apply (bool_decide_unpack _). vm_compute. exact I.
  - apply (bool_decide_unpack _). vm_compute. exact I.
  - reflexivity.
Defined.

(** ** The zero name *)

Lemma insert_stable_Forall (P : Value → Prop) x l :
  P x → Forall P l → Forall P (insert_stable x l).
Proof.
  intros Hx. induction 1 as [|y l Hy Hl IH]; simpl.
  - by constructor.
  - destruct (byValue_Less y x); constructor; auto.
Qed.

Lemma sort_Stable_Forall (P : Value → Prop) l :
  Forall P l → Forall P (sort_Stable l).
Proof.
  induction 1; simpl; [constructor|]. by apply insert_stable_Forall.
Qed.

Lemma insert_stable_head x l :
  head (insert_stable x l) =
  match head l with
  | Some y => if byValue_Less y x then Some y else Some x
  | None => Some x
  end.
Proof. destruct l as [|y l]; simpl; [done|]. by destruct (byValue_Less y x). Qed.

Lemma byValue_Less_unsigned a b :
  signed a = false → byValue_Less a b = (value a <? value b).
Proof. intros Ha. unfold byValue_Less. by rewrite Ha. Qed.

Lemma clear_signed_unsigned values :
  Forall (λ v, 0 ≤ value v < 2 ^ 64) values →
  Forall unsigned_value (map clear_signed values).
Proof.
  induction 1; simpl; constructor; [|done]. by split.
Qed.

(** The stable sort puts the first-declared zero in front, and no zero in
    front when there is none. *)
Lemma sort_Stable_head_zero l :
  Forall unsigned_value l →
  match first_zero l with
  | Some z => head (sort_Stable l) = Some z
  | None => ∀ v, head (sort_Stable l) = Some v → value v ≠ 0
  end.
Proof.
  unfold first_zero.
  induction 1 as [|x l [Hsx Hvx] Hl IH]; simpl; [done|].
  rewrite insert_stable_head.
  pose proof (sort_Stable_Forall _ _ Hl) as Hsorted.
  destruct (Z.eqb_spec (value x) 0) as [Hz|Hnz].
  - destruct (sort_Stable l) as [|y s]; simpl; [done|].
    apply Forall_cons in Hsorted as [[Hsy Hvy] _].
    rewrite byValue_Less_unsigned by done.
    destruct (Z.ltb_spec (value y) (value x)); [lia|done].
  - destruct (find _ l) as [z|] eqn:Hfind.
    + rewrite IH. apply find_some in Hfind as [Hin Hzero].
      apply Z.eqb_eq in Hzero.
      assert (signed z = false) as Hsz.
      { apply list_elem_of_In in Hin. rewrite Forall_forall in Hl.
        by destruct (Hl z Hin). }
      rewrite byValue_Less_unsigned by done.
      destruct (Z.ltb_spec (value z) (value x)); [done|lia].
    + intros v. destruct (head (sort_Stable l)) as [y|] eqn:Hhd.
      * destruct (byValue_Less y x); intros [= <-]; auto.
      * by intros [= <-].
Qed.

Lemma first_zero_clear_signed values :
  first_zero (map clear_signed values) = clear_signed <$> first_zero values.
Proof.
  unfold first_zero. induction values as [|v l IH]; simpl; [done|].
  by destruct (value v =? 0).
Qed.

(** What [splitIntoBitflagRuns] returns as [zero]. *)
Lemma splitIntoBitflagRuns_zero values zero runs :
  Forall (λ v, 0 ≤ value v < 2 ^ 64) values →
  splitIntoBitflagRuns values = Ok (zero, runs) →
  zero = clear_signed <$> first_zero values.
Proof.
  intros Hrange. unfold splitIntoBitflagRuns.
  pose proof (sort_Stable_head_zero _ (clear_signed_unsigned _ Hrange)) as Hhd.
  rewrite first_zero_clear_signed in Hhd.
  set (sorted := sort_Stable (map clear_signed values)) in *.
  intros Hr. apply rbind_Ok in Hr as (v0 & Hv0 & Hr).
  unfold index_or_panic in Hv0.
  destruct (sorted !! 0%nat) as [v0'|] eqn:Hlook; [|done].
  injection Hv0 as ->. rewrite <- head_lookup in Hlook.
  apply rbind_Ok in Hr as ([z vs] & Hzv & Hr).
  destruct (dedup_loop _ _ _ _) as [vs' j]. injection Hr as <- _.
  destruct (first_zero values) as [fz|] eqn:Hfz; simpl in Hhd |- *.
  - rewrite Hhd in Hlook. injection Hlook as <-.
    apply find_some in Hfz as [_ Hz].
    change (value (clear_signed fz)) with (value fz) in Hzv.
    rewrite Hz in Hzv.
    apply rbind_Ok in Hzv as (rest & _ & [= <- _]). done.
  - specialize (Hhd _ Hlook).
    destruct (Z.eqb_spec (value v0) 0); [done|]. by injection Hzv as <- _.
Qed.

Lemma buildBitflag_zero g values typeName code :
  Forall (λ v, 0 ≤ value v < 2 ^ 64) values →
  buildBitflag g values typeName = Ok code →
  zero (snd code) = zero_name values typeName ∧
  typename (snd code) = typeName.
Proof.
  intros Hrange Hb. unfold buildBitflag in Hb.
  apply rbind_Ok in Hb as ([z runs] & Hsplit & Hb).
  apply splitIntoBitflagRuns_zero in Hsplit; [|done].
  apply rbind_Ok in Hb as (run0 & _ & Hb).
  apply rbind_Ok in Hb as (v0 & _ & Hb).
  apply rbind_Ok in Hb as ([[nm offs] sks] & _ & Hb).
  assert (zero (snd code) =
          match z with Some z => name z | None => typeName +:+ "(0)" end
          ∧ typename (snd code) = typeName) as [-> ->].
  { destruct (table g), (cache g), (length sks =? 0)%nat;
      injection Hb as <-; done. }
  split; [|done]. unfold zero_name. subst z.
  by destruct (first_zero values).
Qed.

Lemma toUint64_0 T : 0 < bits T → toUint64 T 0 = 0.
Proof.
  intros Hb. unfold toUint64.
  assert (0 < 2 ^ (bits T - 1)) by (apply Z.pow_pos_nonneg; lia).
  destruct (Z.leb_spec (2 ^ (bits T - 1)) 0); [lia|].
  by rewrite andb_false_r.
Qed.

(** C8. Decoding the mask 0 returns the zero name.  Whenever [buildBitflag]
    produces a table for the declared constants [values] (in declaration
    order), the zero name stored in it is the name of the first constant
    declared with value 0, or [typeName ++ "(0)"] when no constant is 0; and
    the shared routine [mstring], like the [String] method of every template,
    returns that name for the mask 0. *)
Theorem C8_decode_zero (g : Generator) (values : list Value) (typeName : string)
    (code : template * stringerBitflag) :
  Forall (λ v, 0 ≤ value v < 2 ^ 64) values →
  buildBitflag g values typeName = Ok code →
  zero (snd code) = zero_name values typeName ∧
  mstring (snd code) 0 = Ok (zero_name values typeName) ∧
  mstring (descriptor (snd code)) 0 = Ok (zero_name values typeName) ∧
  ∀ T, 0 < bits T → String_of T code 0 = Ok (zero_name values typeName).
Proof.
  intros Hrange Hb.
  destruct (buildBitflag_zero _ _ _ _ Hrange Hb) as [Hz _].
  split_and!; [done|by rewrite <- Hz|by rewrite <- Hz|].
  intros T HT. rewrite <- Hz. unfold String_of, String_table.
  rewrite toUint64_0 by done.
  by destruct (fst code).
Qed.

Lemma C8_decode_zero_witness :
  zero (snd (stringBitflagTableDrivenNotCached, gap_table)) =
    zero_name gap_in_bitflag "Gap" ∧
  mstring (snd (stringBitflagTableDrivenNotCached, gap_table)) 0 =
    Ok (zero_name gap_in_bitflag "Gap") ∧
  mstring (descriptor (snd (stringBitflagTableDrivenNotCached, gap_table))) 0 =
    Ok (zero_name gap_in_bitflag "Gap") ∧
  ∀ T, 0 < bits T →
       String_of T (stringBitflagTableDrivenNotCached, gap_table) 0 =
         Ok (zero_name gap_in_bitflag "Gap").
Proof.
  apply (C8_decode_zero (mkGenerator false true) gap_in_bitflag "Gap"
           (stringBitflagTableDrivenNotCached, gap_table)).
  - apply (bool_decide_unpack _). vm_compute. exact I.
  - vm_compute. reflexivity.
Defined.

(** ** The golden files of the test suite *)

(** The tables the generator builds for the four inputs of the golden test
    are the tables of the expected output files. *)
Example golden_days :
  buildBitflag (mkGenerator false false) days_in_bitflag "Days" =
    Ok (stringBitflagCode, days_table) ∧
  buildBitflag (mkGenerator true true) days_in_bitflag "Days" =
    Ok (stringBitflagTableDrivenCached, days_table).
Proof. split; vm_compute; reflexivity. Qed.

Example golden_gap :
  buildBitflag (mkGenerator false false) gap_in_bitflag "Gap" =
    Ok (stringBitflagCodeWithSkips, gap_table) ∧
  buildBitflag (mkGenerator true false) gap_in_bitflag "Gap" =
    Ok (stringBitflagCacheCodeWithSkips, gap_table).
Proof. split; vm_compute; reflexivity. Qed.

Example golden_largegap :
  buildBitflag (mkGenerator false true) largegap_in_bitflag "Gap" =
    Ok (stringBitflagTableDrivenNotCached, largegap_table).
Proof. vm_compute. reflexivity. Qed.

Example golden_largestgap :
  buildBitflag (mkGenerator false true) largestgap_in_bitflag "Gap" =
    Ok (stringBitflagTableDrivenNotCached, largestgap_table).
Proof. vm_compute. reflexivity. Qed.

(** The two scenarios of the specification. *)
Example scenario_days :
  mstring days_table 0 = Ok "Days(0)" ∧
  mstring days_table (2 ^ 2) = Ok "Wednesday" ∧
  mstring days_table (Z.lor (2 ^ 0) (2 ^ 6)) = Ok "(Monday|Sunday)".
Proof. split_and!; vm_compute; reflexivity. Qed.

Example scenario_gap :
  mstring gap_table 0 = Ok "Zero" ∧
  mstring gap_table (2 ^ 4) = Ok "Gap(0x10)" ∧
  mstring gap_table (Z.lor (2 ^ 2) (2 ^ 11)) = Ok "(Two|Eleven)".
Proof. split_and!; vm_compute; reflexivity. Qed.

Example scenario_largestgap :
  mstring largestgap_table (2 ^ 63) = Ok "SixtyThree" ∧
  mstring largestgap_table (2 ^ 62) = Ok "Gap(0x4000000000000000)" ∧
  String_of int64_t (stringBitflagCodeWithSkips, largestgap_table)
    (Z.lor 1 (2 ^ 63)) = Ok "(Zero|SixtyThree)".
Proof. split_and!; vm_compute; reflexivity. Qed.

(** ** Exits and panics of the generator *)

Lemma genFile_loop_app g pre post : ∀ buf,
  genFile_loop g (pre ++ post) buf =
  (buf' <-! genFile_loop g pre buf; genFile_loop g post buf').
Proof.
  induction pre as [|[tn vs] pre IH]; intros buf; simpl; [done|].
  destruct (generate g tn vs buf) as [buf1|e]; simpl; [apply IH|done].
Qed.

Lemma nameAndRest_run_abort run : ∀ a e,
  nameAndRest_run run a = Abort e →
  ∃ v, v ∈ run ∧ 255 < Z.of_nat (String.length (name v)) ∧
       e = ExitNameTooLong (Z.of_nat (String.length (name v))) (name v).
Proof.
  induction run as [|v run IH]; intros a e; simpl; [done|].
  destruct (Z.ltb_spec 255 (Z.of_nat (String.length (name v)))) as [Hlong|Hfit].
  - intros [= <-]. exists v. split_and!; [by left|done|done].
  - intros Hr. destruct (IH _ _ Hr) as (w & Hw & Hlong & ->).
    exists w. split_and!; [by right|done|done].
Qed.

(** The first name over 255 bytes in a run stops the builder there. *)
Lemma nameAndRest_run_long run : ∀ a,
  Exists (λ v, 255 < Z.of_nat (String.length (name v))) run →
  ∃ v, v ∈ run ∧ 255 < Z.of_nat (String.length (name v)) ∧
       nameAndRest_run run a =
         Abort (ExitNameTooLong (Z.of_nat (String.length (name v))) (name v)).
Proof.
  induction run as [|v run IH]; intros a Hex; [by apply Exists_nil in Hex|].
  simpl.
  destruct (Z.ltb_spec 255 (Z.of_nat (String.length (name v)))) as [Hlong|Hfit].
  - exists v. split_and!; [by left|done|done].
  - apply Exists_cons in Hex as [Hv|Hex]; [lia|].
    destruct (IH (mkAcc (acc_names a ++ [name v])
                        (acc_offsets a ++ [Z.of_nat (String.length (name v))])
                        (acc_skips a)) Hex) as (w & Hw & Hlong & ->).
    exists w. split_and!; [by right|done|done].
Qed.

Lemma index_or_panic_Abort {A} (l : list A) i e :
  index_or_panic l i = Abort e → e = PanicIndex.
Proof. unfold index_or_panic. destruct (l !! i); congruence. Qed.

Lemma runLastValue_Abort run e : runLastValue run = Abort e → e = PanicIndex.
Proof.
  unfold runLastValue. destruct run; [congruence|].
  apply index_or_panic_Abort.
Qed.

Lemma shiftCount_loop_Abort fuel : ∀ count prev next e,
  shiftCount_loop fuel count prev next = Abort e → e = NoReturn.
Proof.
  induction fuel as [|fuel IH]; intros count prev next e; simpl.
  - destruct (prev <? next); congruence.
  - destruct (prev <? next); [apply IH|congruence].
Qed.

Lemma nameAndRest_loop_exit runs : ∀ a o n,
  nameAndRest_loop runs a = Abort (ExitNameTooLong o n) →
  255 < o ∧ o = Z.of_nat (String.length n) ∧
  ∃ run v, run ∈ runs ∧ v ∈ run ∧ name v = n.
Proof.
  induction runs as [|run rest IH]; intros a o n; simpl; [done|].
  destruct (nameAndRest_run run a) as [a1|e] eqn:Hrun; simpl.
  - destruct rest as [|next rest']; [done|].
    destruct (runLastValue run) as [lastv|e1] eqn:Hlast; simpl.
    2: { intros [= ->]. by apply runLastValue_Abort in Hlast. }
    destruct (index_or_panic next 0) as [firstv|e2] eqn:Hidx; simpl.
    2: { intros [= ->]. by apply index_or_panic_Abort in Hidx. }
    destruct (shiftCount (value lastv) (value firstv)) as [c|e3] eqn:Hsc; simpl.
    2: { intros [= ->]. by apply shiftCount_loop_Abort in Hsc. }
    intros Hr. destruct (IH _ _ _ Hr) as (Ho & Hn & run' & v & Hrun' & Hv & Hnm).
    split_and!; [done|done|]. exists run', v. split_and!; [by right|done|done].
  - intros [= ->].
    destruct (nameAndRest_run_abort _ _ _ Hrun) as (v & Hv & Hlong & [= -> ->]).
    split_and!; [done|done|]. exists run, v. split_and!; [by left|done|done].
Qed.

Lemma strip_zeros_Abort values e : strip_zeros values = Abort e → e = PanicIndex.
Proof.
  induction values as [|v rest IH]; simpl; [congruence|].
  destruct (value v =? 0); [done|congruence].
Qed.

Lemma splitIntoBitflagRuns_Abort values e :
  splitIntoBitflagRuns values = Abort e → e = PanicIndex.
Proof.
  unfold splitIntoBitflagRuns.
  destruct (index_or_panic _ 0) as [v0|e0] eqn:Hidx; simpl.
  2: { intros [= <-]. by apply index_or_panic_Abort in Hidx. }
  destruct (value v0 =? 0); simpl.
  - destruct (strip_zeros _) as [rest|e1] eqn:Hstrip; simpl.
    + by destruct (dedup_loop _ _ _ _).
    + intros [= <-]. by apply strip_zeros_Abort in Hstrip.
  - by destruct (dedup_loop _ _ _ _).
Qed.

(** An exit of [buildBitflag] for a long name comes from [nameAndRest], for
    a name it met in one of the runs. *)
Lemma buildBitflag_exit g values typeName o n :
  buildBitflag g values typeName = Abort (ExitNameTooLong o n) →
  255 < o ∧ o = Z.of_nat (String.length n) ∧
  ∃ zero runs run v,
    splitIntoBitflagRuns values = Ok (zero, runs) ∧
    run ∈ runs ∧ v ∈ run ∧ name v = n.
Proof.
  unfold buildBitflag.
  destruct (splitIntoBitflagRuns values) as [[zero runs]|e] eqn:Hsplit; simpl.
  2: { intros [= ->]. by apply splitIntoBitflagRuns_Abort in Hsplit. }
  destruct (index_or_panic runs 0) as [run0|e] eqn:Hrun0; simpl.
  2: { intros [= ->]. by apply index_or_panic_Abort in Hrun0. }
  destruct (index_or_panic run0 0) as [v0|e] eqn:Hv0; simpl.
  2: { intros [= ->]. by apply index_or_panic_Abort in Hv0. }
  unfold nameAndRest.
  destruct (nameAndRest_loop runs _) as [a|e] eqn:Hloop; simpl.
  - by destruct (table g), (cache g), (length (acc_skips a) =? 0)%nat.
  - intros [= ->].
    destruct (nameAndRest_loop_exit _ _ _ _ Hloop) as (Ho & Hn & run & v & ? & ? & ?).
    split_and!; [done|done|]. by exists zero, runs, run, v.
Qed.

(** * The generator on inputs in order *)

(** ** The partitioner *)

Lemma strip_zeros_drop l rest :
  strip_zeros l = Ok rest → rest = drop_zeros l ∧ rest ≠ [].
Proof.
  induction l as [|v l IH]; simpl; [done|].
  destruct (value v =? 0); [done|]. intros [= <-]. done.
Qed.

Lemma drop_zeros_strip l :
  drop_zeros l ≠ [] → strip_zeros l = Ok (drop_zeros l).
Proof.
  induction l as [|v l IH]; simpl; [done|].
  destruct (value v =? 0); [done|]. done.
Qed.

Lemma dedup_loop_inv (orig : list Value) : ∀ n i j arr,
  length arr = length orig → (1 ≤ j ≤ i)%nat → (i + n = length orig)%nat →
  (∀ p, (j ≤ p)%nat → arr !! p = orig !! p) →
  arr !! (i - 1)%nat = orig !! (i - 1)%nat →
  ∃ prev, orig !! (i - 1)%nat = Some prev ∧
    take (snd (dedup_loop n i j arr)) (fst (dedup_loop n i j arr)) =
    take j arr ++ dedup_from prev (drop i orig).
Proof.
  induction n as [|n IH]; intros i j arr Hlen Hji Hin Hhi Hprev.
  - destruct (lookup_lt_is_Some_2 orig (i - 1)%nat ltac:(lia)) as [prev Hp].
    exists prev. split; [done|]. simpl.
    rewrite drop_ge by lia. simpl. by rewrite app_nil_r.
  - destruct (lookup_lt_is_Some_2 orig (i - 1)%nat ltac:(lia)) as [prev Hp].
    destruct (lookup_lt_is_Some_2 orig i ltac:(lia)) as [vi Hvi].
    exists prev. split; [done|]. simpl.
    rewrite (Hhi i) by lia. rewrite Hvi, Hprev, Hp.
    rewrite (drop_S _ _ _ Hvi). simpl.
    destruct (negb (value vi =? value prev) && singleBitSet (value vi)).
    + destruct (IH (S i) (S j) (<[j:=vi]> arr)) as (prev' & Hp' & ->).
      * by rewrite length_insert.
      * lia.
      * lia.
      * intros p Hpj. rewrite list_lookup_insert_ne by lia. apply Hhi. lia.
      * simpl. rewrite Nat.sub_0_r. destruct (decide (i = j)) as [->|Hne].
        -- rewrite list_lookup_insert_eq by lia. done.
        -- rewrite list_lookup_insert_ne by lia. rewrite Hhi by lia. done.
      * simpl in Hp'. rewrite Nat.sub_0_r in Hp'.
        assert (prev' = vi) as -> by congruence.
        rewrite (take_S_r _ _ vi).
        2: { apply list_lookup_insert_eq. lia. }
        rewrite take_insert_ge by lia. by rewrite <- app_assoc.
    + destruct (IH (S i) j arr) as (prev' & Hp' & ->).
      * done.
      * lia.
      * lia.
      * done.
      * simpl. rewrite Nat.sub_0_r. rewrite Hhi by lia. done.
      * simpl in Hp'. rewrite Nat.sub_0_r in Hp'.
        assert (prev' = vi) as -> by congruence. done.
Qed.

(** The in-place filter computes [dedup_from]. *)
Lemma dedup_loop_spec v0 rest :
  take (snd (dedup_loop (length (v0 :: rest) - 1) 1 1 (v0 :: rest)))
       (fst (dedup_loop (length (v0 :: rest) - 1) 1 1 (v0 :: rest))) =
  v0 :: dedup_from v0 rest.
Proof.
  destruct (dedup_loop_inv (v0 :: rest) (length (v0 :: rest) - 1) 1 1 (v0 :: rest))
    as (prev & Hp & ->); simpl; try done; try lia.
  simpl in Hp. by injection Hp as <-.
Qed.

(** ** The stable sort *)

Lemma insert_stable_perm x l : insert_stable x l ≡ₚ x :: l.
Proof.
  induction l as [|y l IH]; simpl; [done|].
  destruct (byValue_Less y x); [|done].
  rewrite IH. apply Permutation_swap.
Qed.

Lemma sort_Stable_perm l : sort_Stable l ≡ₚ l.
Proof.
  induction l as [|x l IH]; simpl; [done|].
  rewrite insert_stable_perm. by rewrite IH.
Qed.

Lemma insert_stable_sorted x l :
  signed x = false → Forall (λ v, signed v = false) l →
  StronglySorted value_le l → StronglySorted value_le (insert_stable x l).
Proof.
  intros Hx Hl Hs. induction Hs as [|y l Hs IH Hy]; simpl.
  - repeat constructor.
  - apply Forall_cons in Hl as [Hsy Hl].
    rewrite byValue_Less_unsigned by done.
    destruct (Z.ltb_spec (value y) (value x)) as [Hlt|Hge].
    + constructor; [by apply IH|].
      rewrite insert_stable_perm. constructor; [unfold value_le; lia|done].
    + constructor; [by constructor|].
      constructor; [done|].
      eapply Forall_impl; [exact Hy|]. unfold value_le. simpl. intros; lia.
Qed.

Lemma sort_Stable_sorted l :
  Forall (λ v, signed v = false) l → StronglySorted value_le (sort_Stable l).
Proof.
  induction 1 as [|x l Hx Hl IH]; simpl; [constructor|].
  apply insert_stable_sorted; [done| |done].
  by apply sort_Stable_Forall.
Qed.

(** Stability: constants of one value keep their order of declaration. *)
Lemma insert_stable_find x l c :
  signed x = false → Forall (λ v, signed v = false) l →
  List.find (λ v, value v =? c) (insert_stable x l) =
  List.find (λ v, value v =? c) (x :: l).
Proof.
  intros Hx. induction 1 as [|y l Hy Hl IH]; simpl; [done|].
  rewrite byValue_Less_unsigned by done.
  destruct (Z.ltb_spec (value y) (value x)) as [Hlt|Hge]; simpl; [|done].
  rewrite IH. simpl.
  destruct (Z.eqb_spec (value y) c), (Z.eqb_spec (value x) c); try done. lia.
Qed.

Lemma sort_Stable_find l c :
  Forall (λ v, signed v = false) l →
  List.find (λ v, value v =? c) (sort_Stable l) =
  List.find (λ v, value v =? c) l.
Proof.
  induction 1 as [|x l Hx Hl IH]; simpl; [done|].
  rewrite insert_stable_find; [|done|by apply sort_Stable_Forall].
  simpl. by rewrite IH.
Qed.

Lemma drop_zeros_find l c :
  c ≠ 0 →
  List.find (λ v, value v =? c) (drop_zeros l) = List.find (λ v, value v =? c) l.
Proof.
  intros Hc. induction l as [|x l IH]; simpl; [done|].
  destruct (Z.eqb_spec (value x) 0) as [Hz|Hnz]; simpl; [|done].
  rewrite IH. destruct (Z.eqb_spec (value x) c); [lia|done].
Qed.

Lemma drop_zeros_suffix l : ∃ zs, l = zs ++ drop_zeros l.
Proof.
  induction l as [|x l [zs IH]]; simpl; [by exists []|].
  destruct (value x =? 0); [|by exists []].
  exists (x :: zs). simpl. by rewrite <- IH.
Qed.

Lemma drop_zeros_head l v : head (drop_zeros l) = Some v → value v ≠ 0.
Proof.
  induction l as [|x l IH]; simpl; [done|].
  destruct (Z.eqb_spec (value x) 0); [done|]. by intros [= <-].
Qed.

Lemma drop_zeros_sorted l :
  StronglySorted value_le l → StronglySorted value_le (drop_zeros l).
Proof.
  intros Hs. destruct (drop_zeros_suffix l) as [zs Hzs].
  rewrite Hzs in Hs. by apply StronglySorted_app_1_r in Hs.
Qed.

(** ** The run loop *)

Lemma span_chain_app prev l :
  fst (span_chain prev l) ++ snd (span_chain prev l) = l.
Proof.
  revert prev. induction l as [|y l IH]; intros prev; simpl; [done|].
  destruct (value y =? shl64 (value prev) 1); simpl; [|done].
  by rewrite IH.
Qed.

Lemma run_end_span l : ∀ pre p,
  run_end (length l) (S (length pre)) (pre ++ p :: l) =
  (S (length pre) + length (fst (span_chain p l)))%nat.
Proof.
  induction l as [|y l IH]; intros pre p; simpl; [lia|].
  rewrite Nat.sub_0_r.
  rewrite (lookup_app_r pre) by lia.
  replace (S (length pre) - length pre)%nat with 1%nat by lia. simpl.
  rewrite (lookup_app_r pre) by lia. rewrite Nat.sub_diag. simpl.
  destruct (value y =? shl64 (value p) 1); simpl; [|lia].
  replace (pre ++ p :: y :: l) with ((pre ++ [p]) ++ y :: l)
    by (by rewrite <- app_assoc).
  replace (S (S (length pre))) with (S (length (pre ++ [p])))
    by (rewrite length_app; simpl; lia).
  rewrite IH. rewrite length_app. simpl. lia.
Qed.

Lemma runs_loop_acc fuel : ∀ values runs,
  runs_loop fuel values runs = runs ++ runs_loop fuel values [].
Proof.
  induction fuel as [|fuel IH]; intros values runs; simpl.
  - by rewrite app_nil_r.
  - destruct values as [|x l]; [by rewrite app_nil_r|].
    rewrite IH. rewrite (IH _ [_]). by rewrite <- app_assoc.
Qed.

(** One round of the run loop cuts off [x] and the chain after it. *)
Lemma runs_loop_step fuel x l :
  runs_loop (S fuel) (x :: l) [] =
  (x :: fst (span_chain x l)) :: runs_loop fuel (snd (span_chain x l)) [].
Proof.
  simpl. rewrite Nat.sub_0_r.
  pose proof (run_end_span l [] x) as Hend. simpl in Hend. rewrite Hend.
  simpl. rewrite runs_loop_acc. simpl.
  pose proof (span_chain_app x l) as Happ.
  set (a := fst (span_chain x l)) in *. set (b := snd (span_chain x l)) in *.
  clearbody a b. subst l. by rewrite take_app_length, drop_app_length.
Qed.

Lemma span_chain_length prev l :
  (length (snd (span_chain prev l)) ≤ length l)%nat.
Proof.
  revert prev. induction l as [|y l IH]; intros prev; simpl; [done|].
  destruct (value y =? shl64 (value prev) 1); simpl; [|done].
  specialize (IH y). lia.
Qed.

Lemma chain_span prev l : chain (prev :: fst (span_chain prev l)).
Proof.
  revert prev. induction l as [|y l IH]; intros prev; [done|].
  simpl. destruct (Z.eqb_spec (value y) (shl64 (value prev) 1)); [|done].
  simpl. split; [done|]. apply IH.
Qed.

Lemma span_chain_stop prev l f :
  head (snd (span_chain prev l)) = Some f →
  ∀ lst, last (prev :: fst (span_chain prev l)) = Some lst →
  value f ≠ shl64 (value lst) 1.
Proof.
  revert prev. induction l as [|y l IH]; intros prev; simpl; [done|].
  destruct (Z.eqb_spec (value y) (shl64 (value prev) 1)) as [Heq|Hne]; simpl.
  - intros Hf lst Hl. eapply IH; [done|].
    by destruct (fst (span_chain y l)).
  - intros [= <-] lst [= <-]. done.
Qed.

(** The run loop never runs out of fuel, returns the list cut into pieces,
    and the pieces are maximal runs. *)
Lemma runs_loop_spec fuel : ∀ values,
  (length values ≤ fuel)%nat →
  concat (runs_loop fuel values []) = values ∧
  maximal_runs (runs_loop fuel values []) ∧
  head (runs_loop fuel values []) ≫= head = head values.
Proof.
  induction fuel as [|fuel IH]; intros values Hfuel.
  - destruct values; [done|simpl in Hfuel; lia].
  - destruct values as [|x l]; [done|].
    rewrite runs_loop_step.
    pose proof (span_chain_length x l).
    destruct (IH (snd (span_chain x l))) as (Hcat & Hmax & Hhd);
      [simpl in Hfuel; lia|].
    split_and!.
    + simpl. rewrite Hcat. by rewrite span_chain_app.
    + simpl. split; [done|]. split; [apply chain_span|].
      destruct (runs_loop fuel (snd (span_chain x l)) []) as [|next rs] eqn:Hrs;
        [done|].
      split; [|done]. intros lst f Hl Hf.
      eapply span_chain_stop; [|exact Hl].
      rewrite <- Hhd. simpl. done.
    + done.
Qed.

(** ** Flags *)

Lemma is_flag_range v : is_flag v → 0 < v < 2 ^ 64.
Proof.
  intros (k & Hk & ->). split; [apply Z.pow_pos_nonneg; lia|].
  apply Z.pow_lt_mono_r; lia.
Qed.

Lemma land_pow2_ones k : 0 ≤ k → Z.land (2 ^ k) (2 ^ k - 1) = 0.
Proof.
  intros Hk. apply Z.bits_inj'. intros i Hi.
  rewrite Z.land_spec, Z.bits_0.
  replace (2 ^ k - 1) with (Z.ones k) by (rewrite Z.ones_equiv; lia).
  rewrite Z.pow2_bits_eqb by done.
  destruct (Z.eqb_spec k i) as [->|Hne]; simpl; [|done].
  apply Z.ones_spec_high. lia.
Qed.

Lemma singleBitSet_flag v : is_flag v → singleBitSet v = true.
Proof.
  intros Hf. pose proof (is_flag_range v Hf) as Hr.
  destruct Hf as (k & Hk & ->). unfold singleBitSet.
  destruct (Z.eqb_spec (2 ^ k) 0); [lia|]. simpl.
  rewrite uint64_small by lia. rewrite land_pow2_ones by lia. done.
Qed.

Lemma flag_singleBitSet v :
  0 ≤ v < 2 ^ 64 → singleBitSet v = true → is_flag v.
Proof.
  intros Hr. unfold singleBitSet.
  destruct (Z.eqb_spec v 0) as [|Hne]; [done|]. simpl.
  rewrite uint64_small by lia. intros Hland. apply Z.eqb_eq in Hland.
  assert (0 < v) as Hpos by lia.
  destruct (Z.log2_spec v Hpos) as [Hlo Hhi].
  pose proof (Z.log2_nonneg v) as Hk.
  exists (Z.log2 v). split.
  - split; [done|]. apply Z.log2_lt_pow2; lia.
  - destruct (Z.eq_dec v (2 ^ Z.log2 v)) as [|Hneq]; [done|]. exfalso.
    assert (Z.testbit (Z.land v (v - 1)) (Z.log2 v) = true) as Hbit.
    { rewrite Z.land_spec. rewrite Z.bit_log2 by done. simpl.
      assert (Z.log2 (v - 1) = Z.log2 v) as <-.
      { apply Z.log2_unique; [done|]. lia. }
      apply Z.bit_log2. lia. }
    rewrite Hland in Hbit. by rewrite Z.bits_0 in Hbit.
Qed.

Lemma shl64_pow2 k n :
  0 ≤ k → 0 ≤ n → k + n < 64 → shl64 (2 ^ k) n = 2 ^ (k + n).
Proof.
  intros Hk Hn Hkn. unfold shl64. rewrite Z.shiftl_mul_pow2 by done.
  rewrite <- Z.pow_add_r by done. apply uint64_small.
  split; [apply Z.pow_nonneg; lia|]. apply Z.pow_lt_mono_r; lia.
Qed.

Lemma pow2_inj_lt a b : 0 ≤ a → 0 ≤ b → 2 ^ a < 2 ^ b → a < b.
Proof. intros Ha Hb. apply Z.pow_lt_mono_r_iff; lia. Qed.

(** Two flags do not overlap. *)
Lemma flags_disjoint v w : is_flag v → is_flag w → v ≠ w → Z.land v w = 0.
Proof.
  intros (a & Ha & ->) (b & Hb & ->) Hne.
  apply Z.bits_inj'. intros i Hi.
  rewrite Z.land_spec, Z.bits_0, !Z.pow2_bits_eqb by lia.
  destruct (Z.eqb_spec a i) as [->|]; [|done].
  destruct (Z.eqb_spec b i) as [->|]; done.
Qed.

Lemma flag_land_self v : is_flag v → Z.land v v ≠ 0.
Proof. intros Hf. rewrite Z.land_diag. apply is_flag_range in Hf. lia. Qed.

(** ** The filter on a sorted list *)

Lemma dedup_from_single prev l :
  Forall (λ x, singleBitSet (value x) = true) (dedup_from prev l).
Proof.
  revert prev. induction l as [|y l IH]; intros prev; simpl; [constructor|].
  destruct (negb (value y =? value prev)) eqn:Hne; simpl; [|apply IH].
  destruct (singleBitSet (value y)) eqn:Hs; [|apply IH].
  constructor; [done|apply IH].
Qed.

Lemma dedup_from_sorted prev l :
  StronglySorted value_le (prev :: l) →
  Forall (value_lt prev) (dedup_from prev l) ∧
  StronglySorted value_lt (dedup_from prev l).
Proof.
  revert prev. induction l as [|y l IH]; intros prev Hs; simpl.
  - split; constructor.
  - apply StronglySorted_inv in Hs as [Hs Hprev].
    apply Forall_cons in Hprev as [Hpy Hprev]. unfold value_le in Hpy.
    destruct (IH y Hs) as [Hlt Hsorted].
    assert (Forall (value_lt prev) (dedup_from y l)) as Hlt'.
    { eapply Forall_impl; [exact Hlt|]. unfold value_lt. simpl. intros; lia. }
    destruct (Z.eqb_spec (value y) (value prev)) as [Heq|Hne]; simpl; [done|].
    destruct (singleBitSet (value y)); [|done].
    split.
    + constructor; [unfold value_lt; lia|done].
    + by constructor.
Qed.

Lemma dedup_from_elem prev l x :
  StronglySorted value_le (prev :: l) →
  x ∈ dedup_from prev l ↔
  singleBitSet (value x) = true ∧ value x ≠ value prev ∧
  List.find (λ v, value v =? value x) l = Some x.
Proof.
  revert prev. induction l as [|y l IH]; intros prev Hs; simpl.
  - split; [by intros ?%elem_of_nil|by intros (_ & _ & ?)].
  - apply StronglySorted_inv in Hs as [Hs Hprev].
    apply Forall_cons in Hprev as [Hpy Hprev]. unfold value_le in Hpy.
    specialize (IH y Hs).
    assert (x ∈ dedup_from y l → value y < value x) as Hgt.
    { intros Hin. destruct (dedup_from_sorted y l Hs) as [Hlt _].
      rewrite Forall_forall in Hlt. by apply Hlt. }
    destruct (Z.eqb_spec (value y) (value x)) as [Hyx|Hyx].
    + (* x has the value of y: only y itself can be x *)
      split.
      * intros Hin.
        destruct (Z.eqb_spec (value y) (value prev)) as [Heq|Hne]; simpl in Hin.
        { apply Hgt in Hin. lia. }
        destruct (singleBitSet (value y)) eqn:Hsb.
        -- apply elem_of_cons in Hin as [->|Hin]; [|apply Hgt in Hin; lia].
           split_and!; [done|lia|done].
        -- apply Hgt in Hin. lia.
      * intros (Hsb & Hne & [= ->]).
        destruct (Z.eqb_spec (value x) (value prev)); [done|]. simpl.
        rewrite Hsb. by left.
    + assert (x ∈ (if negb (value y =? value prev) && singleBitSet (value y)
                   then y :: dedup_from y l else dedup_from y l)
              ↔ x ∈ dedup_from y l) as ->.
      { destruct (negb (value y =? value prev) && singleBitSet (value y));
          [|done].
        rewrite elem_of_cons. split; [|by right].
        intros [->|?]; done. }
      rewrite IH. split.
      * intros (Hsb & Hne & Hfind). split_and!; [done| |done].
        apply find_some in Hfind as [Hin _].
        apply list_elem_of_In in Hin.
        apply StronglySorted_inv in Hs as [_ Hy].
        rewrite Forall_forall in Hy. specialize (Hy x Hin).
        unfold value_le in *. lia.
      * intros (Hsb & Hne & Hfind). split_and!; [done|lia|done].
Qed.

(** ** What the partitioner returns *)

Lemma drop_zeros_nil_strip l : drop_zeros l = [] → strip_zeros l = Abort PanicIndex.
Proof.
  induction l as [|v l IH]; simpl; [done|].
  destruct (value v =? 0); [done|]. done.
Qed.

Lemma drop_zeros_id l v :
  head l = Some v → value v ≠ 0 → drop_zeros l = l.
Proof.
  destruct l as [|x l]; simpl; [done|]. intros [= ->] Hne.
  by destruct (Z.eqb_spec (value v) 0).
Qed.

Lemma nonzero_sorted_unsigned values :
  Forall (λ v, 0 ≤ value v < 2 ^ 64) values →
  Forall unsigned_value (nonzero_sorted values).
Proof.
  intros Hr. unfold nonzero_sorted.
  pose proof (sort_Stable_Forall _ _ (clear_signed_unsigned _ Hr)) as Hs.
  destruct (drop_zeros_suffix (sort_Stable (map clear_signed values))) as [zs Hzs].
  rewrite Hzs in Hs. by apply Forall_app in Hs as [_ ?].
Qed.

Lemma nonzero_sorted_sorted values :
  Forall (λ v, 0 ≤ value v < 2 ^ 64) values →
  StronglySorted value_le (nonzero_sorted values).
Proof.
  intros Hr. apply drop_zeros_sorted, sort_Stable_sorted.
  eapply Forall_impl; [apply (clear_signed_unsigned _ Hr)|].
  by intros v [? _].
Qed.

Lemma nonzero_sorted_find values c :
  Forall (λ v, 0 ≤ value v < 2 ^ 64) values → c ≠ 0 →
  first_with_value (nonzero_sorted values) c =
  first_with_value (map clear_signed values) c.
Proof.
  intros Hr Hc. unfold first_with_value, nonzero_sorted.
  rewrite drop_zeros_find by done. apply sort_Stable_find.
  eapply Forall_impl; [apply (clear_signed_unsigned _ Hr)|].
  by intros v [? _].
Qed.

(** [splitIntoBitflagRuns] returns, for an input with a constant that is not
    0: the first zero, and the survivors cut into runs. *)
Lemma splitIntoBitflagRuns_spec values :
  Forall (λ v, 0 ≤ value v < 2 ^ 64) values →
  nonzero_sorted values ≠ [] →
  splitIntoBitflagRuns values =
    Ok (clear_signed <$> first_zero values,
        runs_loop (length (survivors values)) (survivors values) []).
Proof.
  intros Hr Hne.
  assert (∃ z, splitIntoBitflagRuns values =
               Ok (z, runs_loop (length (survivors values)) (survivors values) []))
    as [z Hz].
  { unfold splitIntoBitflagRuns, survivors, nonzero_sorted in *.
    set (sorted := sort_Stable (map clear_signed values)) in *.
    destruct sorted as [|s0 sorted'] eqn:Hsorted; [done|].
    change (index_or_panic (s0 :: sorted') 0) with (Ok (A:=Value) s0).
    cbn [rbind].
    destruct (Z.eqb_spec (value s0) 0) as [Hz0|Hnz0].
    - rewrite drop_zeros_strip by done. cbn [rbind].
      destruct (drop_zeros (s0 :: sorted')) as [|v0 rest] eqn:Hdz; [done|].
      pose proof (dedup_loop_spec v0 rest) as Hspec.
      destruct (dedup_loop _ _ _ _) as [arr j]. simpl in Hspec.
      rewrite Hspec. eauto.
    - assert (drop_zeros (s0 :: sorted') = s0 :: sorted') as Hid.
      { by apply (drop_zeros_id _ s0). }
      rewrite Hid in *. cbn [rbind].
      pose proof (dedup_loop_spec s0 sorted') as Hspec.
      destruct (dedup_loop _ _ _ _) as [arr j]. simpl in Hspec.
      rewrite Hspec. eauto. }
  rewrite Hz. f_equal. f_equal. by eapply splitIntoBitflagRuns_zero.
Qed.

Lemma splitIntoBitflagRuns_nonzero values zero runs :
  splitIntoBitflagRuns values = Ok (zero, runs) → nonzero_sorted values ≠ [].
Proof.
  unfold splitIntoBitflagRuns, nonzero_sorted.
  set (sorted := sort_Stable (map clear_signed values)).
  destruct sorted as [|s0 sorted'] eqn:Hsorted; [done|].
  change (index_or_panic (s0 :: sorted') 0) with (Ok (A:=Value) s0).
  cbn [rbind].
  destruct (Z.eqb_spec (value s0) 0) as [Hz0|Hnz0].
  - intros Hr Hnil. rewrite (drop_zeros_nil_strip _ Hnil) in Hr. done.
  - intros _. rewrite (drop_zeros_id _ s0); done.
Qed.

(** The survivors are sorted strictly, and all but the first are flags. *)
Lemma survivors_sorted values :
  Forall (λ v, 0 ≤ value v < 2 ^ 64) values →
  StronglySorted value_lt (survivors values).
Proof.
  intros Hr. unfold survivors.
  pose proof (nonzero_sorted_sorted values Hr) as Hs.
  destruct (nonzero_sorted values) as [|v0 rest]; [constructor|].
  destruct (dedup_from_sorted v0 rest Hs). by constructor.
Qed.

Lemma survivors_in_range values :
  Forall (λ v, 0 ≤ value v < 2 ^ 64) values →
  Forall (λ f, 0 ≤ value f < 2 ^ 64) (survivors values).
Proof.
  intros Hr. pose proof (nonzero_sorted_unsigned values Hr) as Hu.
  pose proof (nonzero_sorted_sorted values Hr) as Hs.
  unfold survivors. destruct (nonzero_sorted values) as [|v0 rest]; [constructor|].
  apply Forall_cons in Hu as [[_ Hv0] Hu]. constructor; [done|].
  apply Forall_forall. intros x Hx.
  apply (dedup_from_elem v0 rest x Hs) in Hx as (_ & _ & Hfind).
  apply find_some in Hfind as [Hin _]. apply list_elem_of_In in Hin.
  rewrite Forall_forall in Hu. by destruct (Hu x Hin).
Qed.

Lemma survivors_tail_flags values v0 rest :
  Forall (λ v, 0 ≤ value v < 2 ^ 64) values →
  survivors values = v0 :: rest → Forall (λ f, is_flag (value f)) rest.
Proof.
  intros Hr Hsv. pose proof (survivors_in_range values Hr) as Hrange.
  rewrite Hsv in Hrange. apply Forall_cons in Hrange as [_ Hrange].
  unfold survivors in Hsv.
  destruct (nonzero_sorted values) as [|w0 l]; [done|].
  injection Hsv as -> <-.
  pose proof (dedup_from_single v0 l) as Hsingle.
  apply Forall_forall. intros x Hx.
  rewrite Forall_forall in Hrange, Hsingle.
  apply flag_singleBitSet; auto.
Qed.

(** On an input in order, the survivors are exactly the declared flags. *)
Lemma survivors_declared values f :
  Forall (λ v, 0 ≤ value v < 2 ^ 64) values →
  smallest_is_flag values →
  f ∈ survivors values ↔ declared_flag values f.
Proof.
  intros Hr Hsmall. unfold declared_flag.
  pose proof (nonzero_sorted_sorted values Hr) as Hs.
  pose proof (nonzero_sorted_unsigned values Hr) as Hu.
  pose proof (λ c, nonzero_sorted_find values c Hr) as Hfind.
  unfold smallest_is_flag, survivors in *.
  destruct (nonzero_sorted values) as [|v0 rest].
  - split; [by intros ?%elem_of_nil|].
    intros [Hflag Hfw]. apply is_flag_range in Hflag.
    rewrite <- Hfind in Hfw by lia. done.
  - specialize (Hsmall v0 eq_refl).
    rewrite elem_of_cons, (dedup_from_elem v0 rest f Hs).
    split.
    + intros [->|(Hsb & Hne & Hf)].
      * split; [done|]. pose proof (is_flag_range _ Hsmall).
        rewrite <- Hfind by lia. unfold first_with_value. simpl.
        by rewrite Z.eqb_refl.
      * assert (0 ≤ value f < 2 ^ 64) as Hfr.
        { apply find_some in Hf as [Hin _]. apply list_elem_of_In in Hin.
          apply Forall_cons in Hu as [_ Hu]. rewrite Forall_forall in Hu.
          by destruct (Hu f Hin). }
        pose proof (flag_singleBitSet _ Hfr Hsb) as Hflag.
        split; [done|]. pose proof (is_flag_range _ Hflag).
        rewrite <- Hfind by lia. unfold first_with_value. simpl.
        destruct (Z.eqb_spec (value v0) (value f)); [lia|done].
    + intros [Hflag Hfw]. pose proof (is_flag_range _ Hflag).
      rewrite <- Hfind in Hfw by lia. unfold first_with_value in Hfw.
      simpl in Hfw.
      destruct (Z.eqb_spec (value v0) (value f)) as [Heq|Hne].
      * left. by injection Hfw as ->.
      * right. split_and!; [by apply singleBitSet_flag|lia|done].
Qed.

(** ** Strings *)

Lemma append_nil_l s : "" +:+ s = s.
Proof. reflexivity. Qed.

Lemma append_cons c s1 s2 : String c s1 +:+ s2 = String c (s1 +:+ s2).
Proof. reflexivity. Qed.

Lemma append_length s1 s2 :
  String.length (s1 +:+ s2) = (String.length s1 + String.length s2)%nat.
Proof.
  induction s1 as [|c s1 IH]; [done|].
  rewrite append_cons. simpl. by rewrite IH.
Qed.

Lemma append_assoc s1 s2 s3 : (s1 +:+ s2) +:+ s3 = s1 +:+ s2 +:+ s3.
Proof.
  induction s1 as [|c s1 IH]; [done|].
  rewrite !append_cons. by rewrite IH.
Qed.

Lemma append_nil_r s : s +:+ "" = s.
Proof.
  induction s as [|c s IH]; [done|].
  rewrite append_cons. by rewrite IH.
Qed.

Lemma substring_skip pre s n :
  substring (String.length pre) n (pre +:+ s) = substring 0 n s.
Proof.
  induction pre as [|c pre IH]; [done|].
  rewrite append_cons. simpl. apply IH.
Qed.

Lemma substring_prefix s post :
  substring 0 (String.length s) (s +:+ post) = s.
Proof.
  induction s as [|c s IH].
  - rewrite append_nil_l. by destruct post.
  - rewrite append_cons. simpl. by rewrite IH.
Qed.

(** The name found at the cursor. *)
Lemma slice_name pre n post :
  slice (pre +:+ n +:+ post) (Z.of_nat (String.length pre))
        (Z.of_nat (String.length pre) + Z.of_nat (String.length n)) = Ok n.
Proof.
  rewrite slice_Ok.
  - rewrite Nat2Z.id.
    replace (Z.of_nat (String.length pre) + Z.of_nat (String.length n) -
             Z.of_nat (String.length pre)) with (Z.of_nat (String.length n))
      by lia.
    rewrite Nat2Z.id, substring_skip, substring_prefix. done.
  - lia.
  - lia.
  - rewrite !append_length. lia.
Qed.

Lemma join_cons n ns : join (n :: ns) = n +:+ join ns.
Proof. done. Qed.

Lemma join_append ns1 ns2 : join (ns1 ++ ns2) = join ns1 +:+ join ns2.
Proof.
  induction ns1 as [|n ns1 IH]; [done|].
  rewrite <- app_comm_cons, !join_cons, IH. by rewrite append_assoc.
Qed.

(** ** The shift count between two flags *)

Lemma shiftCount_loop_flags fuel : ∀ count a b,
  0 ≤ a ≤ b → b < 64 → (Z.to_nat (b - a) ≤ fuel)%nat →
  shiftCount_loop fuel count (2 ^ a) (2 ^ b) = Ok (count + (b - a)).
Proof.
  induction fuel as [|fuel IH]; intros count a b Hab Hb Hfuel.
  - assert (a = b) as -> by lia. simpl.
    rewrite Z.ltb_irrefl. f_equal. lia.
  - simpl. destruct (Z.ltb_spec (2 ^ a) (2 ^ b)) as [Hlt|Hge].
    + apply pow2_inj_lt in Hlt; [|lia|lia].
      rewrite (shl64_pow2 a 1) by lia.
      rewrite IH by lia. f_equal. lia.
    + assert (a = b) as ->.
      { destruct (Z.eq_dec a b); [done|].
        assert (2 ^ a < 2 ^ b) by (apply Z.pow_lt_mono_r; lia). lia. }
      f_equal. lia.
Qed.

Lemma shiftCount_flags a b :
  0 ≤ a ≤ b → b < 64 → shiftCount (2 ^ a) (2 ^ b) = Ok (b - a).
Proof.
  intros Hab Hb. unfold shiftCount.
  rewrite shiftCount_loop_flags by lia. done.
Qed.

(** Two flags with more than a factor 2 between them are at least two bit
    positions apart. *)
Lemma flags_apart l f :
  is_flag l → is_flag f → 2 * l < f →
  ∃ a b, l = 2 ^ a ∧ f = 2 ^ b ∧ 0 ≤ a ∧ a + 2 ≤ b ∧ b < 64.
Proof.
  intros (a & Ha & ->) (b & Hb & ->) Hlt.
  exists a, b. split_and!; [done|done|lia| |lia].
  replace (2 * 2 ^ a) with (2 ^ (a + 1)) in Hlt
    by (rewrite Z.pow_add_r by lia; lia).
  apply pow2_inj_lt in Hlt; lia.
Qed.

Lemma gap_skip_flags run next l f a b :
  last run = Some l → head next = Some f →
  value l = 2 ^ a → value f = 2 ^ b → 0 ≤ a → 0 ≤ b →
  gap_skip run next = b - a - 1.
Proof.
  intros Hl Hf Ha Hb Ha0 Hb0. unfold gap_skip.
  rewrite Hl, Hf, Ha, Hb. by rewrite !Z.log2_pow2.
Qed.

(** ** The builder on proper runs *)

Lemma nameAndRest_run_fits run : ∀ a,
  Forall (λ f, name_len f ≤ 255) run →
  nameAndRest_run run a =
    Ok (mkAcc (acc_names a ++ map name run)
              (acc_offsets a ++ map name_len run) (acc_skips a)).
Proof.
  induction run as [|v run IH]; intros a Hfit; simpl.
  - rewrite !app_nil_r. by destruct a.
  - apply Forall_cons in Hfit as [Hv Hfit]. unfold name_len in Hv.
    destruct (Z.ltb_spec 255 (Z.of_nat (String.length (name v)))); [lia|].
    rewrite IH by done. simpl. by rewrite <- !app_assoc.
Qed.

Lemma runLastValue_last run l :
  last run = Some l → runLastValue run = Ok l.
Proof.
  intros Hl. unfold runLastValue. destruct run as [|x run]; [done|].
  unfold index_or_panic. rewrite last_lookup in Hl.
  replace (length (x :: run) - 1)%nat with (pred (length (x :: run))) by lia.
  by rewrite Hl.
Qed.

Lemma nameAndRest_loop_proper runs : ∀ a,
  proper_runs runs →
  nameAndRest_loop runs a =
    Ok (mkAcc (acc_names a ++ map name (concat runs))
              (acc_offsets a ++ offsets_of runs)
              (acc_skips a ++ skips_of runs)).
Proof.
  induction runs as [|run rest IH]; intros a Hp.
  - simpl. rewrite !app_nil_r. by destruct a.
  - destruct Hp as (Hne & Hchain & Hrun & Hrest).
    cbn [nameAndRest_loop].
    rewrite nameAndRest_run_fits.
    2: { eapply Forall_impl; [exact Hrun|]. by intros f [_ [_ ?]]. }
    cbn [rbind]. destruct rest as [|next rest'].
    + simpl. rewrite !app_nil_r. done.
    + destruct Hrest as [Hgap Hprest].
      destruct (last run) as [l|] eqn:Hl.
      2: { apply last_None in Hl. done. }
      assert (∃ f, head next = Some f) as [f Hf].
      { destruct Hprest as (Hnn & _). destruct next; [done|]. simpl. eauto. }
      assert (is_flag (value l)) as Hlf.
      { rewrite Forall_forall in Hrun. apply Hrun.
        apply last_Some in Hl as [pre ->]. apply elem_of_app. right. by left. }
      assert (is_flag (value f)) as Hff.
      { destruct Hprest as (_ & _ & Hnext & _). rewrite Forall_forall in Hnext.
        apply Hnext. destruct next; [done|]. injection Hf as ->. by left. }
      destruct (flags_apart _ _ Hlf Hff (Hgap l f eq_refl Hf))
        as (x & y & Hx & Hy & Hx0 & Hxy & Hy64).
      rewrite (runLastValue_last _ _ Hl). cbn [rbind].
      unfold index_or_panic. rewrite <- head_lookup, Hf. cbn [rbind].
      rewrite Hx, Hy, shiftCount_flags by lia. cbn [rbind].
      rewrite IH by done. cbn [acc_names acc_offsets acc_skips].
      f_equal. cbn [concat offsets_of skips_of].
      rewrite (gap_skip_flags run next l f x y) by (done || lia).
      rewrite !map_app, <- !app_assoc. done.
Qed.

(** ** What the builder returns, whatever the runs *)

Lemma nameAndRest_run_Ok run : ∀ a a',
  nameAndRest_run run a = Ok a' →
  Forall (λ f, name_len f ≤ 255) run ∧
  a' = mkAcc (acc_names a ++ map name run)
             (acc_offsets a ++ map name_len run) (acc_skips a).
Proof.
  induction run as [|v run IH]; intros a a'; simpl.
  - intros [= <-]. rewrite !app_nil_r. split; [constructor|by destruct a].
  - destruct (Z.ltb_spec 255 (Z.of_nat (String.length (name v)))); [done|].
    intros Hr. destruct (IH _ _ Hr) as [Hfit ->]. simpl.
    split; [by constructor|]. by rewrite <- !app_assoc.
Qed.

Lemma nameAndRest_loop_Ok runs : ∀ a a',
  nameAndRest_loop runs a = Ok a' →
  Forall (λ f, name_len f ≤ 255) (concat runs) ∧
  acc_names a' = acc_names a ++ map name (concat runs) ∧
  acc_offsets a' = acc_offsets a ++ offsets_of runs ∧
  ∃ ss, acc_skips a' = acc_skips a ++ ss ∧ length ss = pred (length runs).
Proof.
  induction runs as [|run rest IH]; intros a a'.
  - simpl. intros [= <-]. rewrite !app_nil_r.
    split_and!; [constructor|done|done|]. exists []. by rewrite app_nil_r.
  - cbn [nameAndRest_loop]. intros Hr.
    apply rbind_Ok in Hr as (a1 & Hrun & Hr).
    apply nameAndRest_run_Ok in Hrun as [Hfit ->].
    destruct rest as [|next rest'].
    + injection Hr as <-. simpl. rewrite !app_nil_r.
      split_and!; [done|done|done|]. exists []. by rewrite app_nil_r.
    + apply rbind_Ok in Hr as (lastv & _ & Hr).
      apply rbind_Ok in Hr as (firstv & _ & Hr).
      apply rbind_Ok in Hr as (c & _ & Hr).
      apply IH in Hr as (Hfit' & Hn & Ho & ss & Hs & Hlen).
      cbn [acc_names acc_offsets acc_skips] in *.
      split_and!.
      * change (concat (run :: next :: rest'))
          with (run ++ concat (next :: rest')). by apply Forall_app.
      * rewrite Hn.
        change (concat (run :: next :: rest'))
          with (run ++ concat (next :: rest')).
        by rewrite map_app, <- app_assoc.
      * rewrite Ho.
        change (offsets_of (run :: next :: rest'))
          with (map name_len run ++ 0 :: offsets_of (next :: rest')).
        by rewrite <- !app_assoc.
      * exists ((c - 1) :: ss). rewrite Hs, <- app_assoc. split; [done|].
        simpl in *. lia.
Qed.

(** The offsets of a list of runs: their sum is the length of the names
    joined, and their zeros are the gap sentinels and the empty names. *)
Lemma sum_nonzero_app l1 l2 :
  sum_nonzero (l1 ++ l2) = sum_nonzero l1 + sum_nonzero l2.
Proof.
  induction l1 as [|o l1 IH]; [done|].
  rewrite <- app_comm_cons, !sum_nonzero_cons, IH. lia.
Qed.

Lemma count_zero_app l1 l2 :
  count_zero (l1 ++ l2) = (count_zero l1 + count_zero l2)%nat.
Proof.
  induction l1 as [|o l1 IH]; [done|].
  rewrite <- app_comm_cons, !count_zero_cons, IH.
  by destruct (o =? 0).
Qed.

Lemma join_length ns :
  Z.of_nat (String.length (join ns)) =
  foldr Z.add 0 (map (λ n, Z.of_nat (String.length n)) ns).
Proof.
  induction ns as [|n ns IH]; [done|].
  rewrite join_cons, append_length. simpl. lia.
Qed.

Lemma sum_nonzero_name_len run :
  sum_nonzero (map name_len run) =
  Z.of_nat (String.length (join (map name run))).
Proof.
  induction run as [|f run IH]; [done|].
  rewrite !map_cons, sum_nonzero_cons, join_cons, append_length, IH.
  unfold name_len. lia.
Qed.

Lemma offsets_of_sum runs :
  sum_nonzero (offsets_of runs) =
  Z.of_nat (String.length (join (map name (concat runs)))).
Proof.
  induction runs as [|run rest IH]; [done|].
  change (concat (run :: rest)) with (run ++ concat rest).
  rewrite map_app, join_append, append_length, Nat2Z.inj_add, <- IH.
  rewrite <- sum_nonzero_name_len.
  destruct rest as [|next rest'].
  - cbn [offsets_of]. by rewrite sum_nonzero_app.
  - change (offsets_of (run :: next :: rest'))
      with (map name_len run ++ 0 :: offsets_of (next :: rest')).
    rewrite sum_nonzero_app, sum_nonzero_cons. lia.
Qed.

(** The number of constants with an empty name. *)
Lemma count_zero_name_len run :
  count_zero (map name_len run) = length (filter (λ f, name f = "") run).
Proof.
  induction run as [|f run IH]; [done|].
  rewrite map_cons, count_zero_cons, filter_cons, IH. unfold name_len.
  destruct (decide (name f = "")) as [He|He].
  - by rewrite He.
  - destruct (name f); done.
Qed.

Lemma offsets_of_zeros runs :
  count_zero (offsets_of runs) =
  (pred (length runs) + length (filter (λ f, name f = "") (concat runs)))%nat.
Proof.
  induction runs as [|run rest IH]; [done|].
  change (concat (run :: rest)) with (run ++ concat rest).
  rewrite filter_app, length_app, <- count_zero_name_len.
  destruct rest as [|next rest'].
  - cbn [offsets_of]. rewrite count_zero_app. done.
  - change (offsets_of (run :: next :: rest'))
      with (map name_len run ++ 0 :: offsets_of (next :: rest')).
    rewrite count_zero_app, count_zero_cons, IH. simpl. lia.
Qed.

Lemma offsets_of_range runs :
  Forall (λ f, name_len f ≤ 255) (concat runs) →
  Forall (λ o, 0 ≤ o < 256) (offsets_of runs).
Proof.
  induction runs as [|run rest IH]; [constructor|].
  change (concat (run :: rest)) with (run ++ concat rest).
  intros [Hrun Hrest]%Forall_app.
  assert (Forall (λ o, 0 ≤ o < 256) (map name_len run)) as Hr.
  { apply Forall_fmap. eapply Forall_impl; [exact Hrun|].
    intros f Hf. simpl. unfold name_len in *. lia. }
  destruct rest as [|next rest'].
  - cbn [offsets_of]. by rewrite app_nil_r.
  - change (offsets_of (run :: next :: rest'))
      with (map name_len run ++ 0 :: offsets_of (next :: rest')).
    apply Forall_app. split; [done|]. constructor; [lia|by apply IH].
Qed.

(** ** The entries of a table built from proper runs *)

Lemma slice_name_len pre f post :
  slice (pre +:+ name f +:+ post) (Z.of_nat (String.length pre))
        (Z.of_nat (String.length pre) + name_len f) = Ok (name f).
Proof. apply slice_name. Qed.

Lemma append_name_len pre f :
  Z.of_nat (String.length pre) + name_len f =
  Z.of_nat (String.length (pre +:+ name f)).
Proof. rewrite append_length. unfold name_len. lia. Qed.

(** One run: the entries of its flags, then the rest of the offsets with the
    candidate bit one position behind the last flag of the run. *)
Lemma table_entries_run t run : ∀ v0 tail si pre post,
  chain (v0 :: run) →
  Forall (λ f, 0 < name_len f) (v0 :: run) →
  names t = pre +:+ join (map name (v0 :: run)) +:+ post →
  table_entries_loop t (map name_len (v0 :: run) ++ tail) (value v0) si
    (Z.of_nat (String.length pre)) =
  (es <-! table_entries_loop t tail
            (shl64 (value (default v0 (last run))) 1) si
            (Z.of_nat (String.length (pre +:+ join (map name (v0 :: run)))));
   Ok (map entry (v0 :: run) ++ es)).
Proof.
  induction run as [|y run IH]; intros v0 tail si pre post Hchain Hfit Hnames.
  - apply Forall_cons in Hfit as [Hv0 _]. cbn [map] in *.
    rewrite join_cons in *. change (join []) with "" in *.
    rewrite append_nil_r in *.
    cbn [app table_entries_loop].
    destruct (Z.eqb_spec (name_len v0) 0); [lia|].
    rewrite Hnames, slice_name_len. cbn [rbind].
    rewrite append_name_len.
    destruct (table_entries_loop _ _ _ _ _); done.
  - apply Forall_cons in Hfit as [Hv0 Hfit]. destruct Hchain as [Hy Hchain].
    rewrite (map_cons name_len), <- app_comm_cons.
    cbn [table_entries_loop].
    destruct (Z.eqb_spec (name_len v0) 0); [lia|].
    rewrite (map_cons name), join_cons, append_assoc in Hnames.
    rewrite Hnames at 1. rewrite slice_name_len.
    cbn [rbind]. rewrite append_name_len, <- Hy.
    rewrite (IH y tail si (pre +:+ name v0) post Hchain Hfit)
      by (by rewrite Hnames, append_assoc).
    rewrite (map_cons name v0), join_cons, <- append_assoc.
    replace (default v0 (last (y :: run))) with (default y (last run)).
    2: { rewrite last_cons. by destruct (last run). }
    destruct (table_entries_loop _ _ _ _ _); done.
Qed.

Lemma proper_runs_head run rest :
  proper_runs (run :: rest) → ∃ v0 r0, run = v0 :: r0.
Proof. intros (Hne & _). destruct run; [done|eauto]. Qed.

Lemma table_entries_runs t runs : ∀ v0 r0 rest si pre_s post_s pre post,
  proper_runs runs →
  runs = (v0 :: r0) :: rest →
  skips t = pre_s ++ skips_of runs ++ post_s →
  si = length pre_s →
  names t = pre +:+ join (map name (concat runs)) +:+ post →
  table_entries_loop t (offsets_of runs) (value v0) si
    (Z.of_nat (String.length pre)) = Ok (map entry (concat runs)).
Proof.
  induction runs as [|run runs' IH];
    intros v0 r0 rest si pre_s post_s pre post Hp Hruns Hskips Hsi Hnames;
    [done|].
  injection Hruns as -> ->.
  destruct Hp as (_ & Hchain & Hrun & Hrest).
  assert (Forall (λ f, 0 < name_len f) (v0 :: r0)) as Hpos.
  { eapply Forall_impl; [exact Hrun|]. by intros f [_ [? _]]. }
  change (concat ((v0 :: r0) :: rest)) with ((v0 :: r0) ++ concat rest) in *.
  rewrite map_app, join_append, append_assoc in Hnames.
  destruct rest as [|next rest'].
  - cbn [offsets_of].
    rewrite (table_entries_run t r0 v0 [] si pre _ Hchain Hpos Hnames).
    simpl. by rewrite !app_nil_r.
  - change (offsets_of ((v0 :: r0) :: next :: rest'))
      with (map name_len (v0 :: r0) ++ 0 :: offsets_of (next :: rest')).
    rewrite (table_entries_run t r0 v0 _ si pre _ Hchain Hpos Hnames).
    destruct Hrest as [Hgap Hprest].
    destruct (proper_runs_head _ _ Hprest) as (f & n0 & ->).
    set (l := default v0 (last r0)).
    assert (last (v0 :: r0) = Some l) as Hl.
    { rewrite last_cons. unfold l. by destruct (last r0). }
    assert (is_flag (value l)) as Hlf.
    { rewrite Forall_forall in Hrun. apply Hrun.
      apply last_Some in Hl as [pre' ->]. apply elem_of_app. right. by left. }
    assert (is_flag (value f)) as Hff.
    { destruct Hprest as (_ & _ & Hnext & _).
      apply Forall_cons in Hnext as [[? _] _]. done. }
    destruct (flags_apart _ _ Hlf Hff (Hgap l f Hl eq_refl))
      as (x & y & Hx & Hy & Hx0 & Hxy & Hy64).
    cbn [table_entries_loop]. rewrite Z.eqb_refl.
    change (skips_of ((v0 :: r0) :: (f :: n0) :: rest'))
      with (gap_skip (v0 :: r0) (f :: n0) :: skips_of ((f :: n0) :: rest'))
      in Hskips.
    rewrite (gap_skip_flags _ _ l f x y) in Hskips by (done || lia).
    assert (skips t !! si = Some (y - x - 1)) as Hlook.
    { rewrite Hskips, Hsi. by apply list_lookup_middle. }
    unfold index_or_panic. rewrite Hlook. cbn [rbind].
    rewrite Hx, (shl64_pow2 x 1) by lia.
    replace (uint8 (y - x - 1 - 1)) with (y - x - 2).
    2: { unfold uint8. rewrite Z.mod_small; lia. }
    rewrite shl64_pow2 by lia. rewrite shl64_pow2 by lia.
    replace (x + 1 + (y - x - 2) + 1) with y by lia. rewrite <- Hy.
    rewrite (IH f n0 rest' (S si) (pre_s ++ [y - x - 1]) post_s
               (pre +:+ join (map name (v0 :: r0))) post Hprest eq_refl).
    + cbn [rbind]. by rewrite map_app.
    + rewrite Hskips. by rewrite <- app_assoc.
    + rewrite length_app, Hsi. simpl. lia.
    + by rewrite append_assoc.
Qed.

(** ** Maximal runs of sorted flags are proper *)

Lemma maximal_runs_proper runs :
  maximal_runs runs →
  Forall (λ f, is_flag (value f) ∧ fits f) (concat runs) →
  StronglySorted value_lt (concat runs) →
  proper_runs runs.
Proof.
  induction runs as [|run rest IH]; [done|].
  change (concat (run :: rest)) with (run ++ concat rest).
  intros (Hne & Hchain & Hrest) [Hrun Hflags]%Forall_app Hsorted.
  split_and!; [done|done|done|].
  destruct rest as [|next rest']; [done|].
  destruct Hrest as [Hstop Hmax].
  apply StronglySorted_app in Hsorted as (Hlt & _ & Hs2).
  split; [|by apply IH].
  intros l f Hl Hf.
  assert (l ∈ run) as Hlin.
  { apply last_Some in Hl as [pre ->]. apply elem_of_app. right. by left. }
  assert (f ∈ concat (next :: rest')) as Hfin.
  { destruct next as [|f' next']; [done|]. injection Hf as ->.
    simpl. by left. }
  specialize (Hlt l f Hlin Hfin). unfold value_lt in Hlt.
  specialize (Hstop l f Hl Hf).
  rewrite Forall_forall in Hrun, Hflags.
  destruct (Hrun l Hlin) as [(a & Ha & Hla) _].
  destruct (Hflags f Hfin) as [(b & Hb & Hfb) _].
  rewrite Hla, Hfb in *.
  apply pow2_inj_lt in Hlt; [|lia|lia].
  rewrite (shl64_pow2 a 1) in Hstop by lia.
  destruct (Z.eq_dec b (a + 1)) as [->|Hne']; [done|].
  replace (2 * 2 ^ a) with (2 ^ (a + 1)) by (rewrite Z.pow_add_r by lia; lia).
  apply Z.pow_lt_mono_r; lia.
Qed.

(** ** The decode loop on the entries of a table *)

Lemma mstring_loop_entries t offs : ∀ v si p1 es m b,
  table_entries_loop t offs v si p1 = Ok es →
  ∃ e, mstring_loop t offs (mkSt m v si p1 b) = Ok e ∧
       exit_view e = decode_entries es m b.
Proof.
  induction offs as [|o offs IH]; intros v si p1 es m b; simpl.
  - intros [= <-]. by eexists.
  - destruct (Z.eqb_spec o 0) as [->|Hne].
    + intros Hr. apply rbind_Ok in Hr as (sk & -> & Hr). simpl.
      by apply IH.
    + intros Hr. apply rbind_Ok in Hr as (nm & Hnm & Hr).
      apply rbind_Ok in Hr as (es' & Hes' & [= <-]).
      simpl. destruct (Z.land v m =? 0); [by apply IH|].
      rewrite Hnm. simpl.
      destruct (emit_name _ _ _) as [s|b']; [by eexists|].
      by apply IH.
Qed.

(** [mstring] is the decode loop over the entries the table encodes. *)
Lemma mstring_decode_table t es m :
  table_entries t = Ok es → m ≠ 0 →
  mstring t m = Ok (decode_table (typename t) es m).
Proof.
  intros Hes Hm. unfold mstring, decode_table.
  destruct (Z.eqb_spec m 0); [done|].
  destruct (mstring_loop_entries t (offsets t) (first t) 0 0 es m "" Hes)
    as (e & -> & <-).
  simpl. by destruct e.
Qed.

(** Entries the mask does not touch leave the loop state as it is. *)
Lemma decode_entries_skip es m b :
  Forall (λ e, Z.land (fst e) m = 0) es →
  decode_entries es m b = inr (m, b).
Proof.
  induction 1 as [|[v nm] es Hv _ IH]; simpl; [done|].
  simpl in Hv. by rewrite Hv.
Qed.

Lemma decode_entries_app es1 es2 m b :
  Forall (λ e, Z.land (fst e) m = 0) es1 →
  decode_entries (es1 ++ es2) m b = decode_entries es2 m b.
Proof.
  induction 1 as [|[v nm] es Hv _ IH]; simpl; [done|].
  simpl in Hv. by rewrite Hv.
Qed.

Lemma emit_name_first nm : emit_name 0 "" nm = inl nm.
Proof. done. Qed.

Lemma emit_name_open m nm : m ≠ 0 → emit_name m "" nm = inr ("(" +:+ nm).
Proof.
  intros Hm. unfold emit_name. simpl. by destruct (Z.eqb_spec m 0).
Qed.

Lemma emit_name_close b nm :
  b ≠ "" → emit_name 0 b nm = inl (b +:+ "|" +:+ nm +:+ ")").
Proof.
  intros Hb. unfold emit_name. destruct b; [done|]. simpl.
  by rewrite append_assoc, append_assoc.
Qed.

(** A mask of one entry's bit decodes to that entry's name. *)
Lemma decode_entries_one es1 es2 v nm :
  v ≠ 0 →
  Forall (λ e, Z.land (fst e) v = 0) es1 →
  decode_entries (es1 ++ (v, nm) :: es2) v "" = inl nm.
Proof.
  intros Hv H1. rewrite decode_entries_app by done. simpl.
  rewrite Z.land_diag. destruct (Z.eqb_spec v 0); [done|].
  by rewrite Z.lxor_nilpotent.
Qed.

(** A mask of two entries' bits decodes to both names, in table order. *)
Lemma decode_entries_two es1 es2 es3 v nv w nw :
  v ≠ 0 → w ≠ 0 → Z.land v w = 0 →
  Forall (λ e, Z.land (fst e) v = 0 ∧ Z.land (fst e) w = 0) es1 →
  Forall (λ e, Z.land (fst e) w = 0) es2 →
  decode_entries (es1 ++ (v, nv) :: es2 ++ (w, nw) :: es3) (Z.lor v w) "" =
  inl ("(" +:+ nv +:+ "|" +:+ nw +:+ ")").
Proof.
  intros Hv Hw Hvw H1 H2.
  assert (Z.lxor (Z.lor v w) v = w) as Hx.
  { rewrite <- Z.lxor_lor by done. rewrite (Z.lxor_comm v w).
    rewrite Z.lxor_assoc, Z.lxor_nilpotent. apply Z.lxor_0_r. }
  rewrite decode_entries_app.
  2: { eapply Forall_impl; [exact H1|]. intros e [Hev Hew]. simpl.
       rewrite Z.land_lor_distr_r, Hev, Hew. done. }
  simpl. rewrite Z.land_lor_distr_r, Z.land_diag, Hvw, Z.lor_0_r.
  destruct (Z.eqb_spec v 0); [done|]. rewrite Hx.
  rewrite emit_name_open by done.
  rewrite decode_entries_app by done. simpl.
  rewrite Z.land_diag. destruct (Z.eqb_spec w 0); [done|].
  rewrite Z.lxor_nilpotent. rewrite emit_name_close by done.
  by rewrite append_assoc.
Qed.

(** ** The skip counts of proper runs *)

Lemma skips_of_length runs : length (skips_of runs) = pred (length runs).
Proof.
  induction runs as [|run rest IH]; [done|].
  destruct rest as [|next rest']; [done|].
  change (skips_of (run :: next :: rest'))
    with (gap_skip run next :: skips_of (next :: rest')).
  simpl in *. lia.
Qed.

Lemma skips_of_proper runs :
  proper_runs runs → Forall (λ k, 1 ≤ k ≤ 62) (skips_of runs).
Proof.
  induction runs as [|run rest IH]; [constructor|].
  intros (Hne & _ & Hrun & Hrest).
  destruct rest as [|next rest']; [constructor|].
  destruct Hrest as [Hgap Hprest].
  change (skips_of (run :: next :: rest'))
    with (gap_skip run next :: skips_of (next :: rest')).
  constructor; [|by apply IH].
  destruct (last run) as [l|] eqn:Hl.
  2: { by apply last_None in Hl. }
  destruct (proper_runs_head _ _ Hprest) as (f & n0 & ->).
  assert (is_flag (value l)) as Hlf.
  { rewrite Forall_forall in Hrun. apply Hrun.
    apply last_Some in Hl as [pre' ->]. apply elem_of_app. right. by left. }
  assert (is_flag (value f)) as Hff.
  { destruct Hprest as (_ & _ & Hnext & _).
    apply Forall_cons in Hnext as [[? _] _]. done. }
  destruct (flags_apart _ _ Hlf Hff (Hgap l f eq_refl eq_refl))
    as (x & y & Hx & Hy & Hx0 & Hxy & Hy64).
  rewrite (gap_skip_flags run (f :: n0) l f x y) by (done || lia). lia.
Qed.

(** ** The survivors come from the input *)

Lemma dedup_from_subset prev l : dedup_from prev l ⊆ l.
Proof.
  revert prev. induction l as [|y l IH]; intros prev; simpl; [done|].
  destruct (negb (value y =? value prev) && singleBitSet (value y)).
  - intros x [->|Hx]%elem_of_cons; [by left|]. right. by apply (IH y).
  - intros x Hx. right. by apply (IH y).
Qed.

Lemma survivors_subset values :
  survivors values ⊆ map clear_signed values.
Proof.
  unfold survivors, nonzero_sorted.
  destruct (drop_zeros_suffix (sort_Stable (map clear_signed values)))
    as [zs Hzs].
  intros x Hx.
  assert (x ∈ drop_zeros (sort_Stable (map clear_signed values))) as Hin.
  { destruct (drop_zeros _) as [|v0 rest]; [by apply elem_of_nil in Hx|].
    apply elem_of_cons in Hx as [->|Hx]; [by left|].
    right. by apply (dedup_from_subset v0). }
  rewrite <- (sort_Stable_perm (map clear_signed values)), Hzs.
  apply elem_of_app. by right.
Qed.

Lemma survivors_names values :
  Forall (λ v, name v ≠ "") values →
  Forall (λ f, 0 < name_len f) (survivors values).
Proof.
  intros Hn. apply Forall_forall. intros f Hf.
  apply survivors_subset in Hf.
  apply list_elem_of_fmap in Hf as (v & -> & Hv).
  rewrite Forall_forall in Hn. specialize (Hn v Hv).
  unfold name_len. simpl. destruct (name v); [done|]. simpl. lia.
Qed.

Lemma survivors_flags values :
  Forall (λ v, 0 ≤ value v < 2 ^ 64) values →
  smallest_is_flag values →
  Forall (λ f, is_flag (value f)) (survivors values).
Proof.
  intros Hr Hsmall.
  destruct (survivors values) as [|v0 rest] eqn:Hsv; [constructor|].
  constructor; [|by eapply survivors_tail_flags].
  apply Hsmall. unfold survivors in Hsv.
  destruct (nonzero_sorted values); [done|]. by injection Hsv as -> _.
Qed.

Lemma survivors_nil values : survivors values = [] ↔ nonzero_sorted values = [].
Proof. unfold survivors. by destruct (nonzero_sorted values). Qed.

(** ** The table built from an input in order *)

Lemma descriptor_id t : 0 ≤ first t < 2 ^ 64 → descriptor t = t.
Proof.
  intros Hf. unfold descriptor. rewrite uint64_small by done. by destruct t.
Qed.

(** The partitioner on an input in order returns proper runs of the
    survivors, as far as the names fit. *)
Lemma splitIntoBitflagRuns_proper values zero runs :
  Forall (λ v, 0 ≤ value v < 2 ^ 64) values →
  smallest_is_flag values →
  Forall (λ f, fits f) (survivors values) →
  splitIntoBitflagRuns values = Ok (zero, runs) →
  concat runs = survivors values ∧ proper_runs runs ∧
  head runs ≫= head = head (survivors values).
Proof.
  intros Hr Hsmall Hfits Hsplit.
  pose proof (splitIntoBitflagRuns_nonzero _ _ _ Hsplit) as Hne.
  rewrite (splitIntoBitflagRuns_spec values Hr Hne) in Hsplit.
  injection Hsplit as _ <-.
  destruct (runs_loop_spec (length (survivors values)) (survivors values))
    as (Hcat & Hmax & Hhd); [done|].
  split_and!; [done| |done].
  apply maximal_runs_proper; [done| |].
  - rewrite Hcat. apply Forall_forall. intros f Hf. split.
    + pose proof (survivors_flags values Hr Hsmall) as Hfl.
      rewrite Forall_forall in Hfl. by apply Hfl.
    + rewrite Forall_forall in Hfits. by apply Hfits.
  - rewrite Hcat. by apply survivors_sorted.
Qed.

Lemma splitIntoBitflagRuns_concat values zero runs :
  Forall (λ v, 0 ≤ value v < 2 ^ 64) values →
  splitIntoBitflagRuns values = Ok (zero, runs) →
  concat runs = survivors values.
Proof.
  intros Hr Hsplit.
  pose proof (splitIntoBitflagRuns_nonzero _ _ _ Hsplit) as Hne.
  rewrite (splitIntoBitflagRuns_spec values Hr Hne) in Hsplit.
  injection Hsplit as _ <-.
  by destruct (runs_loop_spec (length (survivors values)) (survivors values))
    as (Hcat & _ & _).
Qed.

Lemma nameAndRest_proper runs :
  proper_runs runs →
  nameAndRest runs =
    Ok (join (map name (concat runs)), offsets_of runs, skips_of runs).
Proof.
  intros Hp. unfold nameAndRest.
  by rewrite (nameAndRest_loop_proper runs (mkAcc [] [] []) Hp).
Qed.

Lemma nameAndRest_fits runs nm offs sks :
  nameAndRest runs = Ok (nm, offs, sks) →
  Forall (λ f, name_len f ≤ 255) (concat runs).
Proof.
  unfold nameAndRest. intros Hr. apply rbind_Ok in Hr as (a & Hloop & _).
  by apply nameAndRest_loop_Ok in Hloop as (? & _).
Qed.

Lemma filter_none {A} (P : A → Prop) `{!∀ x, Decision (P x)} (l : list A) :
  Forall (λ x, ¬ P x) l → filter P l = [].
Proof.
  induction 1 as [|x l Hx _ IH]; [done|].
  rewrite filter_cons. by rewrite decide_False.
Qed.

(** The table of proper runs. *)
Lemma proper_table runs v0 r0 rest typeName zeroName :
  proper_runs runs → runs = (v0 :: r0) :: rest →
  let t := mkSB typeName zeroName (join (map name (concat runs)))
                (value v0) (offsets_of runs) (skips_of runs) in
  table_entries t = Ok (map entry (concat runs)) ∧ well_formed t ∧
  Forall (λ k, 1 ≤ k ≤ 62) (skips t).
Proof.
  intros Hp Hruns t.
  assert (Forall (λ f, is_flag (value f) ∧ fits f) (concat runs)) as Hall.
  { clear Hruns t. induction runs as [|run runs' IH]; [constructor|].
    change (concat (run :: runs')) with (run ++ concat runs').
    destruct Hp as (_ & _ & Hrun & Hrest). apply Forall_app. split; [done|].
    destruct runs' as [|next runs'']; [constructor|]. apply IH. by destruct Hrest. }
  split_and!.
  - unfold table_entries.
    apply (table_entries_runs t runs v0 r0 rest 0 [] [] "" "" Hp Hruns).
    + simpl. by rewrite app_nil_r.
    + done.
    + simpl. by rewrite append_nil_l, append_nil_r.
  - constructor; simpl.
    + apply offsets_of_range. eapply Forall_impl; [exact Hall|].
      by intros f [_ [_ ?]].
    + eapply Forall_impl; [apply (skips_of_proper runs Hp)|].
      simpl. intros; lia.
    + assert (is_flag (value v0)) as Hf.
      { rewrite Hruns in Hall. simpl in Hall.
        by apply Forall_cons in Hall as [[? _] _]. }
      apply is_flag_range in Hf. lia.
    + apply offsets_of_sum.
    + rewrite skips_of_length, offsets_of_zeros.
      assert (filter (λ f, name f = "") (concat runs) = []) as ->; [|simpl; lia].
      apply filter_none. eapply Forall_impl; [exact Hall|].
      intros f [_ [Hpos _]] Hn. unfold name_len in Hpos. rewrite Hn in Hpos.
      simpl in Hpos. lia.
  - apply (skips_of_proper runs Hp).
Qed.

Lemma buildBitflag_in_order g values typeName code :
  Forall (λ v, 0 ≤ value v < 2 ^ 64) values →
  smallest_is_flag values →
  Forall (λ v, name v ≠ "") values →
  buildBitflag g values typeName = Ok code →
  built_in_order values typeName (snd code).
Proof.
  intros Hr Hsmall Hnames Hb.
  destruct (buildBitflag_zero _ _ _ _ Hr Hb) as [Hzero Htn].
  unfold buildBitflag in Hb.
  apply rbind_Ok in Hb as ([z runs] & Hsplit & Hb).
  apply rbind_Ok in Hb as (run0 & Hrun0 & Hb).
  apply rbind_Ok in Hb as (v0 & Hv0 & Hb).
  apply rbind_Ok in Hb as ([[nm offs] sks] & Hnar & Hb).
  pose proof (splitIntoBitflagRuns_concat _ _ _ Hr Hsplit) as Hcat.
  pose proof (nameAndRest_fits _ _ _ _ Hnar) as Hfit255.
  rewrite Hcat in Hfit255.
  assert (Forall (λ f, fits f) (survivors values)) as Hfits.
  { pose proof (survivors_names values Hnames) as Hpos.
    apply Forall_forall. intros f Hf.
    rewrite Forall_forall in Hpos, Hfit255. split; auto. }
  destruct (splitIntoBitflagRuns_proper _ _ _ Hr Hsmall Hfits Hsplit)
    as (_ & Hp & Hhd).
  rewrite (nameAndRest_proper runs Hp) in Hnar. injection Hnar as <- <- <-.
  unfold index_or_panic in Hrun0, Hv0.
  destruct (runs !! 0%nat) as [run0'|] eqn:Hr0; [|done]. injection Hrun0 as ->.
  destruct (run0 !! 0%nat) as [v0'|] eqn:Hr00; [|done]. injection Hv0 as ->.
  destruct runs as [|run runs']; [done|]. injection Hr0 as ->.
  destruct run0 as [|v0' r0]; [done|]. injection Hr00 as ->.
  destruct (proper_table _ v0 r0 runs' typeName
              (match z with Some z0 => name z0 | None => typeName +:+ "(0)" end)
              Hp eq_refl) as (Hent & Hwf & Hsk).
  assert (snd code =
          mkSB typeName
            (match z with Some z0 => name z0 | None => typeName +:+ "(0)" end)
            (join (map name (concat ((v0 :: r0) :: runs')))) (value v0)
            (offsets_of ((v0 :: r0) :: runs')) (skips_of ((v0 :: r0) :: runs')))
    as Hcode.
  { unfold Value_String in Hb.
    template_cases g; by injection Hb as <-. }
  rewrite Hcode in *.
  constructor; [exact Htn|exact Hzero|by rewrite <- Hcat|done|done|].
  exists v0. split; [|done]. rewrite <- Hhd. done.
Qed.

(** On an input in order whose names fit, [buildBitflag] returns a table. *)
Lemma buildBitflag_Ok g values typeName :
  Forall (λ v, 0 ≤ value v < 2 ^ 64) values →
  smallest_is_flag values →
  Forall (λ f, fits f) (survivors values) →
  nonzero_sorted values ≠ [] →
  ∃ code, buildBitflag g values typeName = Ok code.
Proof.
  intros Hr Hsmall Hfits Hne. unfold buildBitflag.
  rewrite (splitIntoBitflagRuns_spec values Hr Hne). cbn [rbind].
  pose proof (splitIntoBitflagRuns_spec values Hr Hne) as Hsplit.
  destruct (splitIntoBitflagRuns_proper _ _ _ Hr Hsmall Hfits Hsplit)
    as (Hcat & Hp & Hhd).
  set (runs := runs_loop _ _ _) in *.
  destruct (survivors values) as [|v0 rest] eqn:Hsv.
  { by apply survivors_nil in Hsv. }
  destruct runs as [|run runs'] eqn:Hruns; [done|].
  destruct (proper_runs_head _ _ Hp) as (w0 & r0 & ->).
  unfold index_or_panic. cbn [lookup list_lookup rbind].
  rewrite (nameAndRest_proper _ Hp). cbn [rbind].
  template_cases g; eauto.
Qed.

(** ** Decoding on a table built from an input in order *)

Lemma land_pow2_testbit k m :
  0 ≤ k → Z.testbit m k = false → Z.land (2 ^ k) m = 0.
Proof.
  intros Hk Hbit. apply Z.bits_inj'. intros i Hi.
  rewrite Z.land_spec, Z.bits_0, Z.pow2_bits_eqb by done.
  destruct (Z.eqb_spec k i) as [->|]; [|done]. by rewrite Hbit.
Qed.

Lemma sorted_split_lt (s1 s2 : list Value) f :
  StronglySorted value_lt (s1 ++ f :: s2) →
  Forall (λ x, value x < value f) s1 ∧ Forall (λ y, value f < value y) s2.
Proof.
  intros Hs. apply StronglySorted_app in Hs as (Hlt & _ & Hs2).
  apply StronglySorted_inv in Hs2 as [_ Hf]. split; [|done].
  apply Forall_forall. intros x Hx. apply (Hlt x f Hx). by left.
Qed.

Lemma entries_disjoint (s : list Value) v :
  is_flag v →
  Forall (λ x, is_flag (value x) ∧ value x ≠ v) s →
  Forall (λ e, Z.land (fst e) v = 0) (map entry s).
Proof.
  intros Hv Hs. apply Forall_fmap. eapply Forall_impl; [exact Hs|].
  intros x [Hx Hne]. simpl. by apply flags_disjoint.
Qed.

Section in_order.
Context (g : Generator) (values : list Value) (typeName : string)
        (code : template * stringerBitflag).
Hypothesis Hrange : Forall (λ v, 0 ≤ value v < 2 ^ 64) values.
Hypothesis Hsmall : smallest_is_flag values.
Hypothesis Hnames : Forall (λ v, name v ≠ "") values.
Hypothesis Hbuild : buildBitflag g values typeName = Ok code.

Local Abbreviation t := (snd code).

Lemma in_order_built : built_in_order values typeName t.
Proof. by eapply buildBitflag_in_order. Qed.

Lemma in_order_flags : Forall (λ f, is_flag (value f)) (survivors values).
Proof. by apply survivors_flags. Qed.

Lemma in_order_others s1 f s2 :
  survivors values = s1 ++ f :: s2 →
  Forall (λ x, is_flag (value x) ∧ value x ≠ value f) s1 ∧
  Forall (λ x, is_flag (value x) ∧ value x ≠ value f) s2.
Proof.
  intros Hsv. pose proof in_order_flags as Hfl.
  pose proof (survivors_sorted values Hrange) as Hs.
  rewrite Hsv in Hfl, Hs.
  apply sorted_split_lt in Hs as [H1 H2].
  apply Forall_app in Hfl as [Hf1 Hf2].
  apply Forall_cons in Hf2 as [_ Hf2].
  split; apply Forall_forall; intros x Hx;
    rewrite Forall_forall in H1, H2, Hf1, Hf2.
  - split; [auto|]. specialize (H1 x Hx). lia.
  - split; [auto|]. specialize (H2 x Hx). lia.
Qed.

(** The bit of one declared flag decodes to its name. *)
Lemma decode_one f :
  declared_flag values f → mstring t (value f) = Ok (name f).
Proof.
  intros Hf. pose proof Hf as [Hflag _].
  apply survivors_declared in Hf; [|done|done].
  apply list_elem_of_split in Hf as (s1 & s2 & Hsv).
  destruct in_order_built as [_ _ Hent _ _ _].
  pose proof (is_flag_range _ Hflag).
  rewrite (mstring_decode_table t _ _ Hent) by lia.
  unfold decode_table. rewrite Hsv, map_app, map_cons.
  destruct (in_order_others _ _ _ Hsv) as [H1 _].
  unfold entry at 2.
  rewrite decode_entries_one; [done|lia|by apply entries_disjoint].
Qed.

(** The bits of two declared flags decode to both names, the lower bit
    first. *)
Lemma decode_two_ordered f h :
  declared_flag values f → declared_flag values h → value f < value h →
  mstring t (Z.lor (value f) (value h)) =
    Ok ("(" +:+ name f +:+ "|" +:+ name h +:+ ")").
Proof.
  intros Hf Hh Hlt. pose proof Hf as [Hff _]. pose proof Hh as [Hhf _].
  apply survivors_declared in Hf; [|done|done].
  apply survivors_declared in Hh; [|done|done].
  apply list_elem_of_split in Hf as (s1 & s2 & Hsv).
  destruct (in_order_others _ _ _ Hsv) as [H1 H2].
  pose proof (survivors_sorted values Hrange) as Hs. rewrite Hsv in Hs.
  apply sorted_split_lt in Hs as [Hlt1 Hlt2].
  rewrite Hsv in Hh. apply elem_of_app in Hh as [Hh|Hh].
  { rewrite Forall_forall in Hlt1. specialize (Hlt1 h Hh). lia. }
  apply elem_of_cons in Hh as [->|Hh]; [lia|].
  apply list_elem_of_split in Hh as (s3 & s4 & ->).
  destruct in_order_built as [_ _ Hent _ _ _].
  pose proof (is_flag_range _ Hff). pose proof (is_flag_range _ Hhf).
  assert (Z.lor (value f) (value h) ≠ 0) as Hne.
  { intros Hz. apply Z.lor_eq_0_iff in Hz. lia. }
  rewrite (mstring_decode_table t _ _ Hent) by done.
  unfold decode_table.
  rewrite Hsv, map_app, map_cons, map_app, map_cons.
  unfold entry at 2 4.
  pose proof (in_order_flags) as Hfl. rewrite Hsv in Hfl.
  apply Forall_app in Hfl as [Hfl1 Hfl2].
  apply Forall_cons in Hfl2 as [_ Hfl2].
  apply Forall_app in Hfl2 as [Hfl3 _].
  apply Forall_app in Hlt2 as [Hlt3 _].
  pose proof (survivors_sorted values Hrange) as Hs. rewrite Hsv in Hs.
  apply StronglySorted_app_1_r, StronglySorted_inv in Hs as [Hs _].
  apply sorted_split_lt in Hs as [Hlt3h _].
  rewrite decode_entries_two; [done|lia|lia| | |].
  - apply flags_disjoint; [done|done|lia].
  - apply Forall_fmap, Forall_forall. intros x Hx. simpl.
    rewrite Forall_forall in Hfl1, Hlt1.
    specialize (Hlt1 x Hx).
    split; apply flags_disjoint; auto; lia.
  - apply Forall_fmap, Forall_forall. intros x Hx. simpl.
    rewrite Forall_forall in Hfl3, Hlt3h. specialize (Hlt3h x Hx).
    apply flags_disjoint; auto; lia.
Qed.

(** A mask that has no bit of a declared flag decodes to the numeric
    rendering, without parentheses. *)
Lemma decode_unmatched m :
  m ≠ 0 →
  (∀ f, declared_flag values f → Z.land (value f) m = 0) →
  mstring t m = Ok (hexname typeName m).
Proof.
  intros Hm Hnone. destruct in_order_built as [Htn _ Hent _ _ _].
  rewrite (mstring_decode_table t _ _ Hent) by done.
  unfold decode_table. rewrite decode_entries_skip.
  - unfold finish. simpl. by rewrite Htn.
  - apply Forall_fmap, Forall_forall. intros f Hf. simpl.
    apply Hnone. by apply survivors_declared.
Qed.

Lemma decode_gap m :
  m ≠ 0 →
  (∀ k, Z.testbit m k = true → gap_bit values k) →
  mstring t m = Ok (hexname typeName m).
Proof.
  intros Hm Hgap. apply decode_unmatched; [done|].
  intros f Hf. pose proof Hf as [(k & Hk & Hv) _]. rewrite Hv.
  destruct (Z.testbit m k) eqn:Hbit.
  - destruct (Hgap k Hbit) as (_ & _ & Hno). by destruct (Hno f Hf).
  - apply land_pow2_testbit; [lia|done].
Qed.

(** Two distinct declared flags: the names appear in the order of the
    bits, whichever way the mask was put together. *)
Lemma decode_two f h :
  declared_flag values f → declared_flag values h → f ≠ h →
  let lo := if value f <? value h then f else h in
  let hi := if value f <? value h then h else f in
  mstring t (Z.lor (value f) (value h)) =
    Ok ("(" +:+ name lo +:+ "|" +:+ name hi +:+ ")") ∧
  mstring t (Z.lor (value h) (value f)) =
    Ok ("(" +:+ name lo +:+ "|" +:+ name hi +:+ ")").
Proof.
  intros Hf Hh Hne.
  assert (value f ≠ value h) as Hv.
  { intros Heq. destruct Hf as [_ Hf], Hh as [_ Hh].
    rewrite Heq in Hf. congruence. }
  destruct (Z.ltb_spec (value f) (value h)); simpl.
  - split; [|rewrite Z.lor_comm]; by apply decode_two_ordered.
  - split; [rewrite Z.lor_comm|]; apply decode_two_ordered; auto; lia.
Qed.

(** Every skip count of the table is at least 1, so [skips[si] - 1] does
    not wrap in the decode loop. *)
Lemma skips_at_least_one :
  Forall (λ k, 1 ≤ k ≤ 62 ∧ uint8 (k - 1) = k - 1) (skips t).
Proof.
  destruct in_order_built as [_ _ _ _ Hsk _].
  eapply Forall_impl; [exact Hsk|]. intros k Hk. simpl in Hk.
  split; [done|]. unfold uint8. apply Z.mod_small. lia.
Qed.
End in_order.

(** ** The two packagings on a well-formed table *)

Lemma shlT_64 T v k : bits T = 64 → shlT T v k = shl64 v k.
Proof. intros HT. unfold shlT, convT, shl64, uint64. by rewrite HT. Qed.

Lemma convT_64 T z : bits T = 64 → 0 ≤ z < 2 ^ 64 → convT T z = z.
Proof. intros HT Hz. unfold convT. rewrite HT. by apply Z.mod_small. Qed.

Lemma toUint64_64 T m : bits T = 64 → 0 ≤ m < 2 ^ 64 → toUint64 T m = m.
Proof.
  intros HT Hm. unfold toUint64. rewrite HT.
  destruct (is_signed T && (2 ^ (64 - 1) <=? m)) eqn:Hs; [|done].
  apply andb_true_iff in Hs as [_ Hs]. apply Z.leb_le in Hs.
  unfold uint64. rewrite <- (Z.mod_add _ 1) by lia.
  rewrite Z.mod_small; lia.
Qed.

(** At a 64-bit flag type the loop with skips is the shared loop. *)
Lemma String_loop_skips_64 T t offs : ∀ st,
  bits T = 64 → String_loop_skips T t offs st = mstring_loop t offs st.
Proof.
  induction offs as [|o offs IH]; intros st HT; simpl; [done|].
  rewrite !shlT_64 by done.
  destruct (o =? 0).
  - destruct (index_or_panic (skips t) (st_si st)); simpl; [|done].
    rewrite !shlT_64 by done. by apply IH.
  - destruct (Z.land (st_v st) (st_m st) =? 0); [by apply IH|].
    destruct (slice _ _ _); simpl; [|done].
    destruct (emit_name _ _ _); [done|]. by apply IH.
Qed.

(** Without a zero offset the loop without skips is the shared loop too. *)
Lemma String_loop_64 T t offs : ∀ st,
  bits T = 64 → count_zero offs = 0%nat →
  String_loop T t offs st = mstring_loop t offs st.
Proof.
  induction offs as [|o offs IH]; intros st HT Hz; simpl; [done|].
  rewrite count_zero_cons in Hz. rewrite !shlT_64 by done.
  destruct (o =? 0); [done|].
  destruct (Z.land (st_v st) (st_m st) =? 0); [by apply IH|].
  destruct (slice _ _ _); simpl; [|done].
  destruct (emit_name _ _ _); [done|]. by apply IH.
Qed.

Lemma String_exit_64 T t m e :
  bits T = 64 → well_formed t → 0 < m < 2 ^ 64 →
  mstring_loop t (offsets t) (mkSt m (first t) 0 0 "") = Ok e →
  String_exit T (typename t) e = mstring_exit (typename t) e.
Proof.
  intros HT Hwf Hm He.
  destruct (mstring_loop_total t (offsets t) (mkSt m (first t) 0 0 ""))
    as (e' & He' & Hres); [by apply well_formed_ready|].
  rewrite He in He'. injection He' as <-.
  destruct e as [s|st]; [done|]. simpl.
  rewrite toUint64_64; [done|done|lia].
Qed.

(** On a well-formed table and at a 64-bit flag type, every template computes
    what the shared routine computes. *)
Lemma String_of_shared T tpl t m :
  bits T = 64 → well_formed t → 0 ≤ m < 2 ^ 64 →
  (tpl = stringBitflagCode ∨ tpl = stringBitflagCacheCode → skips t = []) →
  String_of T (tpl, t) m = mstring t m.
Proof.
  intros HT Hwf Hm Hshape.
  pose proof (wf_first t Hwf) as Hfirst.
  assert (String_table T t m = mstring t m) as Htable.
  { unfold String_table. by rewrite descriptor_id, toUint64_64. }
  assert (String_code_skips T t m = mstring t m) as Hskips.
  { unfold String_code_skips, mstring.
    destruct (Z.eqb_spec m 0); [done|].
    rewrite convT_64, String_loop_skips_64 by done.
    destruct (mstring_loop _ _ _) as [e|] eqn:He; [|done]. simpl.
    by rewrite (String_exit_64 T t m e) by (done || lia). }
  assert (skips t = [] → String_code T t m = mstring t m) as Hcode.
  { intros Hsk. unfold String_code, mstring.
    destruct (Z.eqb_spec m 0); [done|].
    rewrite convT_64, String_loop_64; [|done| |done|done].
    2: { rewrite <- (wf_gaps t Hwf), Hsk. done. }
    destruct (mstring_loop _ _ _) as [e|] eqn:He; [|done]. simpl.
    by rewrite (String_exit_64 T t m e) by (done || lia). }
  unfold String_of. destruct tpl; simpl; auto.
Qed.

(** The data [buildBitflag] substitutes does not depend on the packaging,
    and the gap-free templates are chosen only for tables without skips. *)
Lemma buildBitflag_data g g' values typeName tpl t :
  buildBitflag g values typeName = Ok (tpl, t) →
  ∃ tpl', buildBitflag g' values typeName = Ok (tpl', t).
Proof.
  unfold buildBitflag.
  destruct (splitIntoBitflagRuns values) as [[z runs]|]; [|done]. simpl.
  destruct (index_or_panic runs 0) as [run0|]; [|done]. simpl.
  destruct (index_or_panic run0 0) as [v0|]; [|done]. simpl.
  destruct (nameAndRest runs) as [[[nm offs] sks]|]; [|done]. simpl.
  intros Hb.
  assert (t = mkSB typeName
                (match z with Some z0 => name z0 | None => typeName +:+ "(0)" end)
                nm (Value_String v0) offs sks) as ->.
  { template_cases g; by injection Hb as _ <-. }
  template_cases g'; eauto.
Qed.

Lemma buildBitflag_shape g values typeName tpl t :
  buildBitflag g values typeName = Ok (tpl, t) →
  tpl = stringBitflagCode ∨ tpl = stringBitflagCacheCode → skips t = [].
Proof.
  unfold buildBitflag.
  destruct (splitIntoBitflagRuns values) as [[z runs]|]; [|done]. simpl.
  destruct (index_or_panic runs 0) as [run0|]; [|done]. simpl.
  destruct (index_or_panic run0 0) as [v0|]; [|done]. simpl.
  destruct (nameAndRest runs) as [[[nm offs] sks]|]; [|done]. simpl.
  destruct (table g), (cache g); try destruct (Nat.eqb_spec (length sks) 0);
    intros [= <- <-] [?|?]; try done; simpl; by destruct sks.
Qed.

(** ** Every table built from non-empty names is well-formed *)

Lemma shiftCount_loop_range fuel : ∀ count prev next c,
  shiftCount_loop fuel count prev next = Ok c →
  count ≤ c ≤ count + Z.of_nat fuel ∧ (prev < next → count < c).
Proof.
  induction fuel as [|fuel IH]; intros count prev next c; simpl.
  - destruct (Z.ltb_spec prev next); [done|]. intros [= <-]. lia.
  - destruct (Z.ltb_spec prev next).
    + intros Hr. apply IH in Hr as [Hr _]. lia.
    + intros [= <-]. lia.
Qed.

Lemma runLastValue_Ok run l : runLastValue run = Ok l → last run = Some l.
Proof.
  unfold runLastValue. destruct run as [|x run]; [done|].
  unfold index_or_panic. rewrite last_lookup.
  replace (length (x :: run) - 1)%nat with (pred (length (x :: run))) by lia.
  destruct (_ !! _); [|done]. by intros [= ->].
Qed.

Lemma nameAndRest_loop_skips runs : ∀ a a',
  nameAndRest_loop runs a = Ok a' →
  StronglySorted value_lt (concat runs) →
  ∃ ss, acc_skips a' = acc_skips a ++ ss ∧ Forall (λ k, 0 ≤ k ≤ 63) ss ∧
        length ss = pred (length runs).
Proof.
  induction runs as [|run rest IH]; intros a a'.
  - simpl. intros [= <-] _. exists []. by rewrite app_nil_r.
  - cbn [nameAndRest_loop]. intros Hr Hsorted.
    apply rbind_Ok in Hr as (a1 & Hrun & Hr).
    apply nameAndRest_run_Ok in Hrun as [_ ->].
    destruct rest as [|next rest'].
    + injection Hr as <-. exists []. by rewrite app_nil_r.
    + apply rbind_Ok in Hr as (lastv & Hlast & Hr).
      apply rbind_Ok in Hr as (firstv & Hfirst & Hr).
      apply rbind_Ok in Hr as (c & Hc & Hr).
      change (concat (run :: next :: rest'))
        with (run ++ concat (next :: rest')) in Hsorted.
      apply StronglySorted_app in Hsorted as (Hlt & _ & Hs2).
      apply IH in Hr as (ss & Hs & Hrange & Hlen); [|done].
      cbn [acc_skips] in Hs.
      exists ((c - 1) :: ss). rewrite Hs, <- app_assoc.
      split_and!; [done| |simpl in *; lia].
      constructor; [|done].
      apply runLastValue_Ok, last_Some in Hlast as [pre ->].
      unfold index_or_panic in Hfirst.
      destruct next as [|f next']; [done|]. injection Hfirst as ->.
      assert (value lastv < value firstv) as Hlf.
      { apply (Hlt lastv firstv).
        - apply elem_of_app. right. by left.
        - simpl. by left. }
      apply shiftCount_loop_range in Hc as [Hc1 Hc2].
      specialize (Hc2 Hlf). lia.
Qed.

Lemma buildBitflag_wf g values typeName code :
  Forall (λ v, 0 ≤ value v < 2 ^ 64) values →
  Forall (λ v, name v ≠ "") values →
  buildBitflag g values typeName = Ok code →
  well_formed (snd code).
Proof.
  intros Hr Hnames Hb. unfold buildBitflag in Hb.
  apply rbind_Ok in Hb as ([z runs] & Hsplit & Hb).
  apply rbind_Ok in Hb as (run0 & Hrun0 & Hb).
  apply rbind_Ok in Hb as (v0 & Hv0 & Hb).
  apply rbind_Ok in Hb as ([[nm offs] sks] & Hnar & Hb).
  pose proof (splitIntoBitflagRuns_concat _ _ _ Hr Hsplit) as Hcat.
  pose proof (nameAndRest_fits _ _ _ _ Hnar) as Hfit.
  unfold nameAndRest in Hnar. apply rbind_Ok in Hnar as (a & Hloop & [= <- <- <-]).
  pose proof (nameAndRest_loop_Ok _ _ _ Hloop) as (_ & Hn & Ho & _).
  destruct (nameAndRest_loop_skips _ _ _ Hloop) as (ss & Hs & Hsr & Hsl).
  { rewrite Hcat. by apply survivors_sorted. }
  simpl in Hn, Ho, Hs.
  assert (snd code =
          mkSB typeName
            (match z with Some z0 => name z0 | None => typeName +:+ "(0)" end)
            (join (acc_names a)) (value v0) (acc_offsets a) (acc_skips a))
    as ->.
  { unfold Value_String in Hb.
    template_cases g; by injection Hb as <-. }
  rewrite Hn, Ho, Hs. constructor; simpl.
  - by apply offsets_of_range.
  - eapply Forall_impl; [exact Hsr|]. simpl. intros; lia.
  - assert (v0 ∈ survivors values) as Hin.
    { rewrite <- Hcat. unfold index_or_panic in Hrun0, Hv0.
      destruct (runs !! 0%nat) as [r|] eqn:Hr0; [|done]. injection Hrun0 as ->.
      destruct (run0 !! 0%nat) as [v|] eqn:Hr00; [|done]. injection Hv0 as ->.
      apply list_elem_of_In, in_concat. exists run0.
      split; apply list_elem_of_In; by eapply list_elem_of_lookup_2. }
    pose proof (survivors_in_range values Hr) as Hsr'.
    rewrite Forall_forall in Hsr'. by apply Hsr'.
  - apply offsets_of_sum.
  - rewrite Hsl, offsets_of_zeros, Hcat.
    rewrite filter_none; [simpl; lia|].
    eapply Forall_impl; [apply (survivors_names values Hnames)|].
    intros f Hpos Hn'. unfold name_len in Hpos. rewrite Hn' in Hpos.
    simpl in Hpos. lia.
Qed.

(** The packagings agree on every table built from non-empty names: whatever
    the generator options, the [String] methods generated for the same
    constants return the same result for the same mask. *)
Lemma packagings_agree T g g' values typeName code code' m :
  bits T = 64 →
  Forall (λ v, 0 ≤ value v < 2 ^ 64) values →
  Forall (λ v, name v ≠ "") values →
  buildBitflag g values typeName = Ok code →
  buildBitflag g' values typeName = Ok code' →
  0 ≤ m < 2 ^ 64 →
  String_of T code m = String_of T code' m ∧
  String_of T code m = mstring (snd code) m.
Proof.
  intros HT Hr Hn Hb Hb' Hm.
  destruct code as [tpl t], code' as [tpl' t'].
  destruct (buildBitflag_data g g' _ _ _ _ Hb) as [tpl'' Hb''].
  rewrite Hb' in Hb''. injection Hb'' as _ ->.
  pose proof (buildBitflag_wf _ _ _ _ Hr Hn Hb) as Hwf. simpl in Hwf.
  rewrite !String_of_shared; try done.
  - by apply (buildBitflag_shape _ _ _ _ _ Hb').
  - by apply (buildBitflag_shape _ _ _ _ _ Hb).
Qed.

(** ** The generator returns a table or reports a name *)

Lemma shiftCount_loop_Ok next fuel : ∀ count prev,
  0 < prev < 2 ^ 64 → 2 ^ (63 - Z.of_nat fuel) ≤ prev → next ≤ 2 ^ 63 →
  ∃ c, shiftCount_loop fuel count prev next = Ok c.
Proof.
  induction fuel as [|fuel IH]; intros count prev Hp Hlow Hnext; simpl.
  - simpl in Hlow. destruct (Z.ltb_spec prev next); [lia|eauto].
  - destruct (Z.ltb_spec prev next); [|eauto].
    assert (shl64 prev 1 = 2 * prev) as ->.
    { unfold shl64. rewrite Z.shiftl_mul_pow2 by lia.
      rewrite uint64_small; lia. }
    apply IH; [lia| |done].
    destruct (Z.le_gt_cases 0 (63 - Z.of_nat (S fuel))) as [Hge|Hlt].
    + replace (63 - Z.of_nat fuel) with (63 - Z.of_nat (S fuel) + 1) by lia.
      rewrite Z.pow_add_r by lia. lia.
    + assert (2 ^ (63 - Z.of_nat fuel) ≤ 1); [|lia].
      destruct (Z.eq_dec (63 - Z.of_nat fuel) 0) as [->|]; [done|].
      rewrite Z.pow_neg_r by lia. lia.
Qed.

Lemma shiftCount_Ok prev next :
  0 < prev < 2 ^ 64 → next ≤ 2 ^ 63 → ∃ c, shiftCount prev next = Ok c.
Proof.
  intros Hp Hn. apply shiftCount_loop_Ok; [done| |done].
  simpl. rewrite Z.pow_neg_r by lia. lia.
Qed.

Lemma nameAndRest_loop_outcome runs : ∀ a,
  walkable runs →
  (∃ a', nameAndRest_loop runs a = Ok a') ∨
  (∃ o n, nameAndRest_loop runs a = Abort (ExitNameTooLong o n)).
Proof.
  induction runs as [|run rest IH]; intros a Hw; [left; by eexists|].
  destruct Hw as (Hne & Hpos & Hrest). cbn [nameAndRest_loop].
  destruct (nameAndRest_run run a) as [a1|e] eqn:Hrun; cbn [rbind].
  2: { right. apply nameAndRest_run_abort in Hrun as (v & _ & _ & ->). eauto. }
  destruct rest as [|next rest']; [left; by eexists|].
  destruct Hrest as (Hhead & Hw').
  destruct (last run) as [l|] eqn:Hl.
  2: { by apply last_None in Hl. }
  rewrite (runLastValue_last _ _ Hl). cbn [rbind].
  destruct next as [|f next']; [by destruct Hw'|].
  change (index_or_panic (f :: next') 0) with (Ok (A:=Value) f). cbn [rbind].
  destruct (shiftCount_Ok (value l) (value f)) as [c ->].
  - rewrite Forall_forall in Hpos. apply Hpos.
    apply last_Some in Hl as [pre ->]. apply elem_of_app. right. by left.
  - by apply Hhead.
  - cbn [rbind]. by apply IH.
Qed.

Lemma maximal_runs_walkable runs :
  maximal_runs runs →
  Forall (λ f, 0 < value f < 2 ^ 64) (concat runs) →
  (∀ v0 rest, concat runs = v0 :: rest → Forall (λ f, is_flag (value f)) rest) →
  walkable runs.
Proof.
  induction runs as [|run rest IH]; [done|].
  change (concat (run :: rest)) with (run ++ concat rest).
  intros (Hne & _ & Hrest) [Hrun Hpos]%Forall_app Htail.
  split_and!; [done|done|].
  destruct rest as [|next rest']; [done|].
  destruct Hrest as [_ Hmax].
  destruct run as [|v0 r0]; [done|].
  specialize (Htail v0 (r0 ++ concat (next :: rest')) eq_refl).
  apply Forall_app in Htail as [_ Htail].
  split.
  - intros f Hf. destruct next as [|f' next']; [done|]. injection Hf as ->.
    simpl in Htail. apply Forall_cons in Htail as [(k & Hk & ->) _].
    apply Z.pow_le_mono_r; lia.
  - apply IH; [done|done|].
    intros w0 rest0 Heq. rewrite Heq in Htail.
    by apply Forall_cons in Htail as [_ ?].
Qed.

Lemma survivors_positive values :
  Forall (λ v, 0 ≤ value v < 2 ^ 64) values →
  Forall (λ f, 0 < value f < 2 ^ 64) (survivors values).
Proof.
  intros Hr. pose proof (survivors_in_range values Hr) as Hrange.
  pose proof (survivors_sorted values Hr) as Hs.
  destruct (survivors values) as [|v0 rest] eqn:Hsv; [constructor|].
  assert (value v0 ≠ 0) as Hv0.
  { unfold survivors in Hsv.
    destruct (nonzero_sorted values) as [|w l] eqn:Hnz; [done|].
    injection Hsv as -> _. apply (drop_zeros_head _ _ (f_equal head Hnz)). }
  apply StronglySorted_inv in Hs as [_ Hlt].
  apply Forall_cons in Hrange as [Hr0 Hrange].
  constructor; [lia|].
  apply Forall_forall. intros f Hf.
  rewrite Forall_forall in Hlt, Hrange.
  specialize (Hlt f Hf). specialize (Hrange f Hf). unfold value_lt in Hlt. lia.
Qed.

(** [buildBitflag] on constants that are not all 0: a table, or the exit for
    a name of more than 255 bytes. *)
Lemma buildBitflag_outcome g values typeName :
  Forall (λ v, 0 ≤ value v < 2 ^ 64) values →
  nonzero_sorted values ≠ [] →
  (∃ code, buildBitflag g values typeName = Ok code) ∨
  (∃ o n, buildBitflag g values typeName = Abort (ExitNameTooLong o n)).
Proof.
  intros Hr Hne. unfold buildBitflag.
  rewrite (splitIntoBitflagRuns_spec values Hr Hne). cbn [rbind].
  destruct (runs_loop_spec (length (survivors values)) (survivors values))
    as (Hcat & Hmax & Hhd); [done|].
  set (runs := runs_loop _ _ _) in *.
  destruct (survivors values) as [|v0 rest] eqn:Hsv.
  { by apply survivors_nil in Hsv. }
  destruct runs as [|run runs'] eqn:Hruns; [done|].
  destruct run as [|w0 r0]; [by destruct Hmax|].
  change (index_or_panic ((w0 :: r0) :: runs') 0)
    with (Ok (A:=list Value) (w0 :: r0)).
  cbn [rbind].
  change (index_or_panic (w0 :: r0) 0) with (Ok (A:=Value) w0). cbn [rbind].
  unfold nameAndRest.
  destruct (nameAndRest_loop_outcome ((w0 :: r0) :: runs') (mkAcc [] [] []))
    as [[a ->]|(o & n & ->)].
  - apply maximal_runs_walkable; [done| |].
    + rewrite Hcat, <- Hsv. by apply survivors_positive.
    + intros x xs Heq. rewrite Hcat in Heq. injection Heq as <- <-.
      by apply (survivors_tail_flags values v0).
  - left. cbn [rbind].
    template_cases g; eauto.
  - right. cbn [rbind]. eauto.
Qed.

(** A surviving constant with a name of more than 255 bytes makes
    [buildBitflag] exit. *)
Lemma buildBitflag_long_name g values typeName :
  Forall (λ v, 0 ≤ value v < 2 ^ 64) values →
  Exists (λ f, 255 < name_len f) (survivors values) →
  ∃ o n, buildBitflag g values typeName = Abort (ExitNameTooLong o n).
Proof.
  intros Hr Hlong.
  assert (nonzero_sorted values ≠ []) as Hne.
  { intros Hnil. apply survivors_nil in Hnil. rewrite Hnil in Hlong.
    by apply Exists_nil in Hlong. }
  destruct (buildBitflag_outcome g values typeName Hr Hne) as [[code Hb]|]; [|done].
  exfalso. unfold buildBitflag in Hb.
  apply rbind_Ok in Hb as ([z runs] & Hsplit & Hb).
  apply rbind_Ok in Hb as (run0 & _ & Hb).
  apply rbind_Ok in Hb as (v0 & _ & Hb).
  apply rbind_Ok in Hb as ([[nm offs] sks] & Hnar & _).
  apply nameAndRest_fits in Hnar.
  rewrite (splitIntoBitflagRuns_concat _ _ _ Hr Hsplit) in Hnar.
  apply Exists_exists in Hlong as (f & Hf & Hlen).
  rewrite Forall_forall in Hnar. specialize (Hnar f Hf). lia.
Qed.

(** ** A name that does not fit ends the whole run *)

Lemma survivors_empty_input : survivors [] = [].
Proof. reflexivity. Qed.

(** C3 (as amended). When the table builder meets a surviving flag whose
    name is longer than 255 bytes while one type of a batch is processed,
    [buildBitflag] reports such a name with its length and exits, and
    [genFile] ends with that exit whatever types follow in the batch: no
    later type is processed and nothing is written, not even for the types
    before it. *)
Theorem C3_name_too_long_exits (g : Generator)
    (pre post : list (string * list Value)) (typeName : string)
    (values : list Value) (buf : list (template * stringerBitflag)) :
  Forall (λ v, 0 ≤ value v < 2 ^ 64) values →
  genFile g pre = Ok buf →
  Exists (λ f, 255 < name_len f) (survivors values) →
  ∃ o n,
    buildBitflag g values typeName = Abort (ExitNameTooLong o n) ∧
    genFile g (pre ++ (typeName, values) :: post) =
      Abort (ExitNameTooLong o n) ∧
    255 < o ∧ o = Z.of_nat (String.length n) ∧
    ∃ f, f ∈ survivors values ∧ name f = n.
Proof.
  intros Hr Hpre Hlong.
  destruct (buildBitflag_long_name g values typeName Hr Hlong)
    as (o & n & Hexit).
  exists o, n. split; [done|].
  destruct (buildBitflag_exit _ _ _ _ _ Hexit)
    as (Ho & Hn & zero & runs & run & v & Hsplit & Hrun & Hv & Hname).
  split_and!; [|done|done|].
  - unfold genFile in *. rewrite genFile_loop_app, Hpre. simpl.
    unfold generate. destruct values as [|v0 values'].
    { rewrite survivors_empty_input in Hlong. by apply Exists_nil in Hlong. }
    simpl. by rewrite Hexit.
  - exists v. split; [|done].
    rewrite <- (splitIntoBitflagRuns_concat _ _ _ Hr Hsplit).
    apply list_elem_of_In, in_concat. exists run.
    split; by apply list_elem_of_In.
Qed.

Lemma C3_name_too_long_exits_witness :
  ∃ o n,
    buildBitflag (mkGenerator true true) [mkValue long_name 1 false] "Long" =
      Abort (ExitNameTooLong o n) ∧
    genFile (mkGenerator true true)
      ([("Gap", gap_in_bitflag)] ++ ("Long", [mkValue long_name 1 false])
         :: [("Days", days_in_bitflag)]) =
      Abort (ExitNameTooLong o n) ∧
    255 < o ∧ o = Z.of_nat (String.length n) ∧
    ∃ f, f ∈ survivors [mkValue long_name 1 false] ∧ name f = n.
Proof.
  apply (C3_name_too_long_exits (mkGenerator true true)
           [("Gap", gap_in_bitflag)] [("Days", days_in_bitflag)] "Long"
           [mkValue long_name 1 false]
           [(stringBitflagTableDrivenCached, gap_table)]).
  - apply (bool_decide_unpack _). vm_compute. exact I.
  - vm_compute. reflexivity.
  - apply Exists_cons_hd. vm_compute. reflexivity.
Defined.

(** C3 (as stated) fails: in [long_batch] the type [Long] has a name of 256
    bytes and the type [Days] after it is fine on its own, yet the run ends
    with the exit and produces nothing for [Days]. *)
Lemma C3_counterexample :
  nameAndRest [[mkValue long_name 1 false]] =
    Abort (ExitNameTooLong 256 long_name) ∧
  (∃ code, genFile (mkGenerator false true) [("Days", days_in_bitflag)] =
             Ok [code]) ∧
  genFile (mkGenerator false true) long_batch =
    Abort (ExitNameTooLong 256 long_name) ∧
  ¬ ∃ out, genFile (mkGenerator false true) long_batch = Ok out.
Proof.
  split_and!.
  - vm_compute. reflexivity.
  - eexists. vm_compute. reflexivity.
  - vm_compute. reflexivity.
  - intros [out Hout]. vm_compute in Hout. discriminate.
Qed.

(** ** Where the generator goes wrong *)

(** C4. The filter never tests the smallest surviving constant: its loop
    starts at index 1 and keeps [values[0]] as it is.  For the constants
    [A = 3], [B = 4], [C = 8] the run partitioner returns [A], which has two
    bits set, as a run of its own. *)
Lemma C4_smallest_value_is_kept :
  splitIntoBitflagRuns multibit_first =
    Ok (None, [[mkValue "A" 3 false];
               [mkValue "B" 4 false; mkValue "C" 8 false]]) ∧
  singleBitSet 3 = false.
Proof. split; vm_compute; reflexivity. Qed.

(** C5. An empty name puts a 0 into [offsets] that is no gap sentinel: the
    table built for the single constant [empty_name] has one zero offset and
    no skip count, so it is not well-formed. *)
Lemma C5_empty_name_breaks_table :
  buildBitflag (mkGenerator false true) empty_name "T" =
    Ok (stringBitflagTableDrivenNotCached, empty_name_table) ∧
  count_zero (offsets empty_name_table) = 1%nat ∧
  length (skips empty_name_table) = 0%nat ∧
  ¬ well_formed empty_name_table.
Proof.
  split_and!; [vm_compute; reflexivity|reflexivity|reflexivity|].
  intros [_ _ _ _ Hgaps]. vm_compute in Hgaps. discriminate.
Qed.

(** C2. On the table of [empty_name] the two packagings differ for the mask
    1: the per-type routine of the gap-free shape takes the offset 0 for a
    name of length 0 and returns the empty string, the shared routine takes
    it for a gap sentinel and indexes the empty [skips]. *)
Lemma C2_packagings_differ_on_empty_name :
  buildBitflag (mkGenerator false false) empty_name "T" =
    Ok (stringBitflagCode, empty_name_table) ∧
  buildBitflag (mkGenerator false true) empty_name "T" =
    Ok (stringBitflagTableDrivenNotCached, empty_name_table) ∧
  String_of uint64_t (stringBitflagCode, empty_name_table) 1 = Ok "" ∧
  String_of uint64_t (stringBitflagTableDrivenNotCached, empty_name_table) 1 =
    Abort PanicIndex.
Proof. split_and!; vm_compute; reflexivity. Qed.

(** C6. With the two-bit constant [A = 3] in front, the flags [B = 4] and
    [C = 8] are in the table, but the mask [4 | 8] is not decoded to
    ["(B|C)"]: the skip count stored after [A] is 0, the decoder shifts the
    candidate bit by [0 - 1 = 255] and never matches again. *)
Lemma C6_two_flags_not_decoded :
  buildBitflag (mkGenerator false true) multibit_first "T" =
    Ok (stringBitflagTableDrivenNotCached, multibit_first_table) ∧
  mstring multibit_first_table (Z.lor 4 8) = Ok "T(0xc)" ∧
  mstring multibit_first_table (Z.lor 4 8) ≠ Ok "(B|C)".
Proof. split_and!; [vm_compute; reflexivity..|vm_compute; discriminate]. Qed.

(** C9. With the two-bit constant [A = 3] below the flag [B = 16], bit 3 lies
    in the gap between them, but the mask [1 << 3] is decoded to
    ["(B|T(0x10))"]: the candidate bit reaches [B] as [3 << 3 = 24]. *)
Lemma C9_gap_bit_matches_a_name :
  buildBitflag (mkGenerator false true) multibit_gap "T" =
    Ok (stringBitflagTableDrivenNotCached, multibit_gap_table) ∧
  mstring multibit_gap_table (2 ^ 3) = Ok "(B|T(0x10))" ∧
  mstring multibit_gap_table (2 ^ 3) ≠ Ok (hexname "T" (2 ^ 3)).
Proof. split_and!; [vm_compute; reflexivity..|vm_compute; discriminate]. Qed.

(** C10. With the two-bit constant [A = 3] in front of the flag [B = 4], one
    shift takes 3 past 4, [shiftCount] is 1 and the skip count stored is 0;
    in the decode loop [skips[si] - 1] then wraps to 255. *)
Lemma C10_skip_count_zero :
  shiftCount 3 4 = Ok 1 ∧
  buildBitflag (mkGenerator false true) multibit_first "T" =
    Ok (stringBitflagTableDrivenNotCached, multibit_first_table) ∧
  skips multibit_first_table = [0] ∧
  uint8 (0 - 1) = 255.
Proof. split_and!; vm_compute; reflexivity. Qed.

(** * The rest of the generator and of the generated code *)

(** ** The partitioner on every input *)

Lemma drop_zeros_nil l : drop_zeros l = [] ↔ Forall (λ v, value v = 0) l.
Proof.
  induction l as [|v l IH]; simpl; [done|].
  destruct (Z.eqb_spec (value v) 0) as [Hz|Hnz].
  - rewrite IH. split; [by constructor|by intros [_ ?]%Forall_cons].
  - split; [done|]. by intros [? _]%Forall_cons.
Qed.

Lemma nonzero_sorted_nil values :
  nonzero_sorted values = [] ↔ Forall (λ v, value v = 0) values.
Proof.
  unfold nonzero_sorted. rewrite drop_zeros_nil.
  rewrite (sort_Stable_perm (map clear_signed values)).
  by rewrite Forall_fmap.
Qed.

Lemma not_all_zero values :
  Exists (λ v, value v ≠ 0) values → nonzero_sorted values ≠ [].
Proof.
  intros Hex Hnil. apply nonzero_sorted_nil in Hnil.
  apply Exists_exists in Hex as (v & Hin & Hv).
  rewrite Forall_forall in Hnil. by apply Hv, Hnil.
Qed.

Lemma first_with_value_Some l c f :
  first_with_value l c = Some f → f ∈ l ∧ value f = c.
Proof.
  unfold first_with_value. intros [Hin Hv]%find_some.
  split; [by apply list_elem_of_In|lia].
Qed.

Lemma first_with_value_elem l v :
  v ∈ l → ∃ w, first_with_value l (value v) = Some w.
Proof.
  intros Hin. unfold first_with_value.
  destruct (List.find _ l) as [w|] eqn:Hf; [eauto|].
  apply list_elem_of_In in Hin.
  pose proof (find_none _ _ Hf v Hin) as Hno. simpl in Hno. lia.
Qed.

(** The surviving constants are the kept ones. *)
Lemma survivors_kept values f :
  Forall (λ v, 0 ≤ value v < 2 ^ 64) values →
  f ∈ survivors values ↔ kept values f.
Proof.
  intros Hr. unfold kept.
  pose proof (nonzero_sorted_sorted values Hr) as Hs.
  pose proof (nonzero_sorted_unsigned values Hr) as Hu.
  pose proof (λ c, nonzero_sorted_find values c Hr) as Hfind.
  pose proof (drop_zeros_head (sort_Stable (map clear_signed values))) as Hhd.
  fold (nonzero_sorted values) in Hhd.
  unfold survivors.
  destruct (nonzero_sorted values) as [|v0 rest] eqn:Hns.
  - split; [by intros ?%elem_of_nil|].
    intros (Hfw & Hnz & _). rewrite <- Hfind in Hfw by done. done.
  - specialize (Hhd v0 eq_refl).
    assert (∀ v, v ∈ values → value v ≠ 0 → value v0 ≤ value v) as Hmin.
    { intros v Hin Hv.
      assert (clear_signed v ∈ map clear_signed values) as Hin'.
      { apply list_elem_of_fmap. eauto. }
      apply first_with_value_elem in Hin' as (w & Hw).
      change (value (clear_signed v)) with (value v) in Hw.
      rewrite <- Hfind in Hw by done.
      apply first_with_value_Some in Hw as [Hw Hwv].
      apply elem_of_cons in Hw as [->|Hw]; [lia|].
      apply StronglySorted_inv in Hs as [_ Hall].
      rewrite Forall_forall in Hall. specialize (Hall w Hw).
      unfold value_le in Hall. lia. }
    rewrite elem_of_cons, (dedup_from_elem v0 rest f Hs).
    split.
    + intros [->|(Hsb & Hne & Hf)].
      * split_and!; [|done|by right].
        rewrite <- Hfind by done. unfold first_with_value. simpl.
        by rewrite Z.eqb_refl.
      * assert (0 ≤ value f < 2 ^ 64) as Hfr.
        { apply find_some in Hf as [Hin _]. apply list_elem_of_In in Hin.
          apply Forall_cons in Hu as [_ Hu]. rewrite Forall_forall in Hu.
          by destruct (Hu f Hin). }
        pose proof (flag_singleBitSet _ Hfr Hsb) as Hflag.
        pose proof (is_flag_range _ Hflag).
        split_and!; [|lia|by left].
        rewrite <- Hfind by lia. unfold first_with_value. simpl.
        destruct (Z.eqb_spec (value v0) (value f)); [lia|done].
    + intros (Hfw & Hnz & Hwhy).
      rewrite <- Hfind in Hfw by done. unfold first_with_value in Hfw.
      simpl in Hfw.
      destruct (Z.eqb_spec (value v0) (value f)) as [Heq|Hne].
      * left. by injection Hfw as ->.
      * right. destruct Hwhy as [Hflag|Hleast].
        -- split_and!; [by apply singleBitSet_flag|lia|done].
        -- exfalso.
           assert (v0 ∈ map clear_signed values) as Hv0.
           { unfold nonzero_sorted in Hns.
             destruct (drop_zeros_suffix (sort_Stable (map clear_signed values)))
               as (zs & Hzs).
             rewrite Hns in Hzs.
             rewrite <- (sort_Stable_perm (map clear_signed values)), Hzs.
             apply elem_of_app. right. by left. }
           apply list_elem_of_fmap in Hv0 as (v & -> & Hv).
           change (value (clear_signed v)) with (value v) in *.
           specialize (Hleast v Hv Hhd).
           apply find_some in Hfw as [Hin _]. apply list_elem_of_In in Hin.
           apply StronglySorted_inv in Hs as [_ Hall].
           rewrite Forall_forall in Hall. specialize (Hall f Hin).
           unfold value_le in Hall. simpl in Hall. lia.
Qed.

(** X1. [splitIntoBitflagRuns] on any constants that are not all 0: the runs
    hold exactly the kept constants, in increasing order of value, and are
    maximal. *)
Theorem splitIntoBitflagRuns_partition (values : list Value) :
  Forall (λ v, 0 ≤ value v < 2 ^ 64) values →
  Exists (λ v, value v ≠ 0) values →
  ∃ runs,
    splitIntoBitflagRuns values =
      Ok (clear_signed <$> first_zero values, runs) ∧
    (∀ f, f ∈ concat runs ↔ kept values f) ∧
    StronglySorted value_lt (concat runs) ∧
    maximal_runs runs.
Proof.
  intros Hr Hex. apply not_all_zero in Hex.
  exists (runs_loop (length (survivors values)) (survivors values) []).
  destruct (runs_loop_spec (length (survivors values)) (survivors values))
    as (Hcat & Hmax & _); [done|].
  split_and!.
  - by apply splitIntoBitflagRuns_spec.
  - intros f. rewrite Hcat. by apply survivors_kept.
  - rewrite Hcat. by apply survivors_sorted.
  - done.
Qed.

Lemma mixed_in_range : Forall (λ v, 0 ≤ value v < 2 ^ 64) mixed_in_bitflag.
Proof. apply (bool_decide_unpack _). vm_compute. exact I. Qed.

Lemma splitIntoBitflagRuns_partition_witness :
  ∃ runs,
    splitIntoBitflagRuns mixed_in_bitflag =
      Ok (clear_signed <$> first_zero mixed_in_bitflag, runs) ∧
    (∀ f, f ∈ concat runs ↔ kept mixed_in_bitflag f) ∧
    StronglySorted value_lt (concat runs) ∧
    maximal_runs runs.
Proof.
  apply (splitIntoBitflagRuns_partition mixed_in_bitflag).
  - exact mixed_in_range.
  - apply Exists_cons_hd. simpl. lia.
Defined.

(** ** Every outcome of the generator *)

Lemma buildBitflag_all_zero g values typeName :
  Forall (λ v, value v = 0) values →
  buildBitflag g values typeName = Abort PanicIndex.
Proof.
  intros Hz. apply nonzero_sorted_nil in Hz. unfold buildBitflag.
  destruct (splitIntoBitflagRuns values) as [[z runs]|e] eqn:Hsplit.
  - by apply splitIntoBitflagRuns_nonzero in Hsplit.
  - apply splitIntoBitflagRuns_Abort in Hsplit as ->. done.
Qed.

(** X2. [buildBitflag] panics when every constant is 0, exits when a kept
    constant has a name of more than 255 bytes, and returns otherwise; it has
    no other outcome. *)
Theorem buildBitflag_outcomes (g : Generator) (values : list Value)
    (typeName : string) :
  Forall (λ v, 0 ≤ value v < 2 ^ 64) values →
  (Forall (λ v, value v = 0) values →
     buildBitflag g values typeName = Abort PanicIndex) ∧
  (∀ f, kept values f → 255 < name_len f →
     ∃ o n, buildBitflag g values typeName = Abort (ExitNameTooLong o n)) ∧
  (Exists (λ v, value v ≠ 0) values →
   (∀ f, kept values f → name_len f ≤ 255) →
     ∃ code, buildBitflag g values typeName = Ok code).
Proof.
  intros Hr. split_and!.
  - apply buildBitflag_all_zero.
  - intros f Hk Hlong. apply buildBitflag_long_name; [done|].
    apply Exists_exists. exists f. split; [|done]. by apply survivors_kept.
  - intros Hex Hfit. apply not_all_zero in Hex.
    destruct (buildBitflag_outcome g values typeName Hr Hex)
      as [Hok|(o & n & Hexit)]; [done|].
    exfalso.
    destruct (buildBitflag_exit _ _ _ _ _ Hexit)
      as (Ho & -> & z & runs & run & v & Hsplit & Hrun & Hv & <-).
    pose proof (splitIntoBitflagRuns_concat _ _ _ Hr Hsplit) as Hcat.
    assert (v ∈ survivors values) as Hin.
    { rewrite <- Hcat. apply list_elem_of_In, in_concat. exists run.
      split; by apply list_elem_of_In. }
    apply survivors_kept in Hin; [|done].
    specialize (Hfit v Hin). unfold name_len in Hfit. lia.
Qed.

Lemma buildBitflag_outcomes_witness :
  (Forall (λ v, value v = 0) mixed_in_bitflag →
     buildBitflag (mkGenerator true false) mixed_in_bitflag "Mixed" =
       Abort PanicIndex) ∧
  (∀ f, kept mixed_in_bitflag f → 255 < name_len f →
     ∃ o n, buildBitflag (mkGenerator true false) mixed_in_bitflag "Mixed" =
              Abort (ExitNameTooLong o n)) ∧
  (Exists (λ v, value v ≠ 0) mixed_in_bitflag →
   (∀ f, kept mixed_in_bitflag f → name_len f ≤ 255) →
     ∃ code, buildBitflag (mkGenerator true false) mixed_in_bitflag "Mixed" =
               Ok code).
Proof.
  apply (buildBitflag_outcomes (mkGenerator true false) mixed_in_bitflag "Mixed").
  exact mixed_in_range.
Defined.

(** ** The decode loop in closed form *)

Lemma ldiff_disjoint m v : Z.land v m = 0 → Z.ldiff m v = m.
Proof.
  intros H. apply Z.bits_inj'. intros n Hn. rewrite Z.ldiff_spec.
  assert (Z.testbit v n && Z.testbit m n = false) as Hb.
  { by rewrite <- Z.land_spec, H, Z.bits_0. }
  destruct (Z.testbit v n), (Z.testbit m n); simpl in *; congruence.
Qed.

Lemma ldiff_lor m v r : Z.ldiff m (Z.lor v r) = Z.ldiff (Z.ldiff m v) r.
Proof.
  apply Z.bits_inj'. intros n Hn.
  rewrite !Z.ldiff_spec, Z.lor_spec.
  by destruct (Z.testbit m n), (Z.testbit v n), (Z.testbit r n).
Qed.

Lemma land_ldiff_disjoint e m v :
  Z.land e v = 0 → Z.land e (Z.ldiff m v) = Z.land e m.
Proof.
  intros H. apply Z.bits_inj'. intros n Hn.
  rewrite !Z.land_spec, Z.ldiff_spec.
  assert (Z.testbit e n && Z.testbit v n = false) as Hb.
  { by rewrite <- Z.land_spec, H, Z.bits_0. }
  destruct (Z.testbit e n), (Z.testbit v n), (Z.testbit m n);
    simpl in *; congruence.
Qed.

Lemma flag_hit_lxor v m :
  is_flag v → Z.land v m ≠ 0 → Z.lxor m v = Z.ldiff m v.
Proof.
  intros (k & Hk & ->) Hhit. apply Z.bits_inj'. intros n Hn.
  rewrite Z.lxor_spec, Z.ldiff_spec, Z.pow2_bits_eqb by lia.
  destruct (Z.eqb_spec k n) as [->|Hne].
  - destruct (Z.testbit m n) eqn:Hm; [done|].
    exfalso. apply Hhit. apply land_pow2_testbit; [lia|done].
  - by rewrite xorb_false_r, andb_true_r.
Qed.

Lemma unnamed_cons f fs m :
  unnamed (f :: fs) m = unnamed fs (Z.ldiff m (value f)).
Proof. unfold unnamed, flag_bits. simpl. apply ldiff_lor. Qed.

Lemma named_disjoint fs m v :
  Forall (λ f, Z.land (value f) v = 0) fs →
  named fs (Z.ldiff m v) = named fs m.
Proof.
  unfold named. induction 1 as [|f fs Hf _ IH]; [done|].
  rewrite !filter_cons, IH, (land_ldiff_disjoint _ _ _ Hf). done.
Qed.

Lemma named_zero fs : named fs 0 = [].
Proof.
  unfold named. induction fs as [|f fs IH]; [done|].
  rewrite filter_cons, IH, Z.land_0_r. by destruct (decide _).
Qed.

Lemma bar_join_snoc acc p :
  acc ≠ [] → bar_join (acc ++ [p]) = bar_join acc +:+ "|" +:+ p.
Proof.
  induction acc as [|a acc IH]; [done|]. intros _.
  destruct acc as [|a' acc]; [done|].
  change (bar_join ((a :: a' :: acc) ++ [p]))
    with (a +:+ "|" +:+ bar_join ((a' :: acc) ++ [p])).
  rewrite IH by done.
  change (bar_join (a :: a' :: acc)) with (a +:+ "|" +:+ bar_join (a' :: acc)).
  by rewrite !append_assoc.
Qed.

Lemma open_paren_snoc acc p :
  open_paren (acc ++ [p]) =
  if (String.length (open_paren acc) =? 0)%nat then "(" +:+ p
  else open_paren acc +:+ "|" +:+ p.
Proof.
  destruct acc as [|a acc]; [done|].
  change (open_paren ((a :: acc) ++ [p]))
    with ("(" +:+ bar_join ((a :: acc) ++ [p])).
  rewrite bar_join_snoc by done.
  change (open_paren (a :: acc)) with ("(" +:+ bar_join (a :: acc)).
  rewrite append_cons, append_nil_l. simpl String.length.
  change (S _ =? 0)%nat with false. cbv iota.
  by rewrite !append_cons, !append_nil_l.
Qed.

Lemma render_snoc acc p :
  render (acc ++ [p]) =
  if (String.length (open_paren acc) =? 0)%nat then p
  else open_paren acc +:+ "|" +:+ p +:+ ")".
Proof.
  destruct acc as [|a acc]; [done|].
  assert (render ((a :: acc) ++ [p]) = "(" +:+ bar_join ((a :: acc) ++ [p]) +:+ ")")
    as ->.
  { by destruct acc. }
  rewrite bar_join_snoc by done.
  change (open_paren (a :: acc)) with ("(" +:+ bar_join (a :: acc)).
  rewrite (append_cons "("%char "" (bar_join (a :: acc))), append_nil_l.
  simpl String.length. change (S _ =? 0)%nat with false. cbv iota.
  by rewrite !append_cons, !append_nil_l, !append_assoc.
Qed.

Lemma emit_name_acc m acc nm :
  emit_name m (open_paren acc) nm =
  if m =? 0 then inl (render (acc ++ [nm])) else inr (open_paren (acc ++ [nm])).
Proof.
  unfold emit_name. rewrite render_snoc, open_paren_snoc.
  destruct (String.length (open_paren acc) =? 0)%nat; [done|].
  destruct (m =? 0); [|done]. by rewrite !append_assoc.
Qed.

Lemma finish_acc typename m acc :
  finish typename m (open_paren acc) = render (acc ++ [hexname typename m]).
Proof. unfold finish. by rewrite render_snoc. Qed.

Lemma decode_entries_render typename fs : ∀ m acc,
  Forall (λ f, is_flag (value f)) fs →
  StronglySorted value_lt fs →
  m ≠ 0 →
  match decode_entries (map entry fs) m (open_paren acc) with
  | inl s => s
  | inr (m', b) => finish typename m' b
  end =
  render (acc ++ map name (named fs m) ++
          if unnamed fs m =? 0 then [] else [hexname typename (unnamed fs m)]).
Proof.
  induction fs as [|f fs IH]; intros m acc Hfl Hs Hm.
  - simpl. rewrite finish_acc. unfold unnamed, flag_bits. simpl.
    rewrite Z.ldiff_0_r. by destruct (Z.eqb_spec m 0).
  - apply Forall_cons in Hfl as [Hf Hfl].
    apply StronglySorted_inv in Hs as [Hs Hlt].
    assert (Forall (λ f', Z.land (value f') (value f) = 0) fs) as Hdis.
    { apply Forall_forall. intros f' Hin.
      rewrite Forall_forall in Hfl, Hlt.
      specialize (Hlt f' Hin). unfold value_lt in Hlt.
      apply flags_disjoint; [by apply Hfl|done|lia]. }
    rewrite unnamed_cons. unfold named. rewrite filter_cons. fold (named fs m).
    rewrite map_cons. unfold entry at 1.
    cbn [decode_entries].
    destruct (Z.eqb_spec (Z.land (value f) m) 0) as [Hz|Hnz].
    + rewrite decide_False by (intros H; by apply H).
      rewrite ldiff_disjoint by done. by apply IH.
    + rewrite decide_True by done.
      rewrite (flag_hit_lxor _ _ Hf Hnz), emit_name_acc.
      rewrite <- (named_disjoint fs m (value f) Hdis).
      destruct (Z.eqb_spec (Z.ldiff m (value f)) 0) as [Hz|Hnz'].
      * rewrite Hz, named_zero. unfold unnamed. rewrite Z.ldiff_0_l. done.
      * rewrite (IH _ (acc ++ [name f])) by done.
        by rewrite <- app_assoc.
Qed.

Section closed_form.
Context (g : Generator) (values : list Value) (typeName : string)
        (code : template * stringerBitflag).
Hypothesis Hrange : Forall (λ v, 0 ≤ value v < 2 ^ 64) values.
Hypothesis Hsmall : smallest_is_flag values.
Hypothesis Hnames : Forall (λ v, name v ≠ "") values.
Hypothesis Hbuild : buildBitflag g values typeName = Ok code.

Lemma mstring_decoded m :
  m ≠ 0 → mstring (snd code) m = Ok (decoded typeName (survivors values) m).
Proof.
  intros Hm.
  destruct (buildBitflag_in_order _ _ _ _ Hrange Hsmall Hnames Hbuild)
    as [Htn _ Hent _ _ _].
  rewrite (mstring_decode_table _ _ _ Hent Hm), Htn.
  unfold decode_table, decoded.
  apply f_equal.
  apply (decode_entries_render typeName (survivors values) m []);
    [by apply survivors_flags|by apply survivors_sorted|done].
Qed.

End closed_form.

(** X3. [mstring] on a table built from constants in order: the non-zero mask
    [m] decodes to the names of the declared flags it holds, in increasing
    order of their bits, followed by the hex rendering of the bits that belong
    to no declared flag; one part alone is printed bare, several are joined by
    [|] between parentheses. *)
Theorem mstring_closed_form (g : Generator) (values : list Value)
    (typeName : string) (code : template * stringerBitflag) :
  Forall (λ v, 0 ≤ value v < 2 ^ 64) values →
  smallest_is_flag values →
  Forall (λ v, name v ≠ "") values →
  buildBitflag g values typeName = Ok code →
  ∃ fs,
    StronglySorted value_lt fs ∧
    (∀ f, f ∈ fs ↔ declared_flag values f) ∧
    ∀ m, 0 < m < 2 ^ 64 →
         mstring (snd code) m = Ok (decoded typeName fs m).
Proof.
  intros Hr Hsmall Hnames Hb. exists (survivors values). split_and!.
  - by apply survivors_sorted.
  - intros f. by apply survivors_declared.
  - intros m Hm. eapply mstring_decoded; eauto. lia.
Qed.

Lemma gap_in_range : Forall (λ v, 0 ≤ value v < 2 ^ 64) gap_in_bitflag.
Proof. apply (bool_decide_unpack _). vm_compute. exact I. Qed.

Lemma gap_smallest_is_flag : smallest_is_flag gap_in_bitflag.
Proof.
  intros v0 H. vm_compute in H. injection H as <-.
  exists 2. split; [lia|reflexivity].
Qed.

Lemma gap_names : Forall (λ v, name v ≠ "") gap_in_bitflag.
Proof. apply (bool_decide_unpack _). vm_compute. exact I. Qed.

Lemma gap_build :
  buildBitflag (mkGenerator false true) gap_in_bitflag "Gap" =
  Ok (stringBitflagTableDrivenNotCached, gap_table).
Proof. vm_compute. reflexivity. Qed.

Lemma mstring_closed_form_witness :
  ∃ fs,
    StronglySorted value_lt fs ∧
    (∀ f, f ∈ fs ↔ declared_flag gap_in_bitflag f) ∧
    ∀ m, 0 < m < 2 ^ 64 →
         mstring (snd (stringBitflagTableDrivenNotCached, gap_table)) m =
           Ok (decoded "Gap" fs m).
Proof.
  apply (mstring_closed_form (mkGenerator false true) gap_in_bitflag "Gap"
           (stringBitflagTableDrivenNotCached, gap_table)).
  - exact gap_in_range.
  - exact gap_smallest_is_flag.
  - exact gap_names.
  - exact gap_build.
Defined.

(** The closed form on the masks of the package documentation. *)
Example decoded_days :
  decoded "Days" (survivors days_in_bitflag) (Z.lor (2 ^ 0) (Z.lor (2 ^ 2) (2 ^ 6)))
    = "(Monday|Wednesday|Sunday)" ∧
  decoded "Days" (survivors days_in_bitflag) (Z.lor (2 ^ 5) (2 ^ 9))
    = "(Saturday|Days(0x200))" ∧
  decoded "Days" (survivors days_in_bitflag) (2 ^ 9) = "Days(0x200)".
Proof. vm_compute. done. Qed.

(** ** The decode routines at every width *)

Lemma high_bits_zero x w n : 0 ≤ x < 2 ^ w → w ≤ n → Z.testbit x n = false.
Proof.
  intros Hx Hn. destruct (Z.eq_dec x 0) as [->|Hne]; [apply Z.bits_0|].
  apply Z.bits_above_log2; [lia|].
  assert (0 ≤ w).
  { destruct (Z.le_gt_cases 0 w); [done|]. rewrite Z.pow_neg_r in Hx; lia. }
  assert (Z.log2 x < w) by (apply Z.log2_lt_pow2; lia). lia.
Qed.

Lemma top_bit x w :
  0 < w → 0 ≤ x < 2 ^ w → Z.testbit x (w - 1) = (2 ^ (w - 1) <=? x).
Proof.
  intros Hw Hx.
  assert (2 ^ w = 2 * 2 ^ (w - 1)) as Hpow.
  { rewrite <- Z.pow_succ_r by lia. f_equal. lia. }
  assert (0 < 2 ^ (w - 1)) by (apply Z.pow_pos_nonneg; lia).
  rewrite Z.testbit_eqb by lia.
  destruct (Z.leb_spec (2 ^ (w - 1)) x) as [Hle|Hlt].
  - assert (x / 2 ^ (w - 1) = 1) as ->; [|done].
    symmetry. apply (Z.div_unique x _ 1 (x - 2 ^ (w - 1))); lia.
  - rewrite Z.div_small by lia. done.
Qed.

(** [uint64(m)] for [m] of type [T], bit by bit: the bits of [m], and above
    them copies of the sign bit when [T] is signed. *)
Lemma toUint64_testbit T x n :
  0 < bits T ≤ 64 → 0 ≤ x < 2 ^ bits T → 0 ≤ n →
  Z.testbit (toUint64 T x) n =
  if n <? bits T then Z.testbit x n
  else (n <? 64) && is_signed T && Z.testbit x (bits T - 1).
Proof.
  intros Hw Hx Hn. rewrite top_bit by lia.
  unfold toUint64.
  destruct (is_signed T && (2 ^ (bits T - 1) <=? x)) eqn:Hs.
  - apply andb_true_iff in Hs as [-> Hle]. rewrite Hle.
    apply Z.leb_le in Hle. rewrite andb_true_r. unfold uint64.
    destruct (Z.ltb_spec n 64) as [Hn64|Hn64].
    + rewrite Z.mod_pow2_bits_low by lia.
      destruct (Z.ltb_spec n (bits T)) as [Hnw|Hnw].
      * rewrite <- (Z.mod_pow2_bits_low (x - 2 ^ bits T) (bits T)) by lia.
        rewrite <- (Z.mod_add _ 1) by lia.
        replace (x - 2 ^ bits T + 1 * 2 ^ bits T) with x by lia.
        by rewrite Z.mod_pow2_bits_low by lia.
      * apply Z.bits_above_log2_neg; [lia|].
        destruct (Z.eq_dec (Z.pred (- (x - 2 ^ bits T))) 0) as [->|Hp];
          [simpl; lia|].
        assert (Z.log2 (Z.pred (- (x - 2 ^ bits T))) < bits T); [|lia].
        apply Z.log2_lt_pow2; lia.
    + rewrite Z.mod_pow2_bits_high by lia.
      destruct (Z.ltb_spec n (bits T)); [lia|done].
  - destruct (Z.ltb_spec n (bits T)) as [Hnw|Hnw]; [done|].
    rewrite (high_bits_zero x (bits T)) by lia.
    rewrite <- andb_assoc, Hs. by rewrite andb_false_r.
Qed.

Lemma toUint64_range T x :
  0 < bits T ≤ 64 → 0 ≤ x < 2 ^ bits T → 0 ≤ toUint64 T x < 2 ^ 64.
Proof.
  intros Hw Hx. unfold toUint64.
  assert (2 ^ bits T ≤ 2 ^ 64) by (apply Z.pow_le_mono_r; lia).
  destruct (is_signed T && _); [apply uint64_range|lia].
Qed.

Lemma toUint64_eq_0 T m :
  0 < bits T ≤ 64 → 0 ≤ m < 2 ^ bits T → toUint64 T m = 0 → m = 0.
Proof.
  intros Hw Hm H0. apply Z.bits_inj'. intros n Hn. rewrite Z.bits_0.
  destruct (Z.ltb_spec n (bits T)) as [Hlt|Hge].
  - pose proof (toUint64_testbit T m n Hw Hm Hn) as Hb.
    rewrite H0, Z.bits_0 in Hb.
    destruct (Z.ltb_spec n (bits T)); [done|lia].
  - by apply (high_bits_zero m (bits T)).
Qed.

Lemma toUint64_eqb_0 T m :
  0 < bits T ≤ 64 → 0 ≤ m < 2 ^ bits T → (toUint64 T m =? 0) = (m =? 0).
Proof.
  intros Hw Hm. destruct (Z.eqb_spec m 0) as [->|Hne].
  - rewrite toUint64_0 by lia. done.
  - destruct (Z.eqb_spec (toUint64 T m) 0) as [H0|]; [|done].
    by apply toUint64_eq_0 in H0.
Qed.

Lemma land_toUint64 T v m :
  0 < bits T ≤ 64 → 0 ≤ v < 2 ^ bits T → 0 ≤ m < 2 ^ bits T →
  Z.land v (toUint64 T m) = Z.land v m.
Proof.
  intros Hw Hv Hm. apply Z.bits_inj'. intros n Hn.
  rewrite !Z.land_spec, toUint64_testbit by done.
  destruct (Z.ltb_spec n (bits T)) as [Hlt|Hge]; [done|].
  by rewrite (high_bits_zero v (bits T)) by lia.
Qed.

Lemma lxor_range_width w a b :
  0 < w → 0 ≤ a < 2 ^ w → 0 ≤ b < 2 ^ w → 0 ≤ Z.lxor a b < 2 ^ w.
Proof.
  intros Hw Ha Hb.
  assert (0 ≤ Z.lxor a b) by (apply Z.lxor_nonneg; lia).
  split; [done|].
  destruct (Z.eq_dec (Z.lxor a b) 0) as [->|Hne]; [lia|].
  apply Z.log2_lt_pow2; [lia|].
  pose proof (Z.log2_lxor a b ltac:(lia) ltac:(lia)) as Hl.
  assert (Z.log2 a < w).
  { destruct (Z.eq_dec a 0) as [->|]; [simpl; lia|]. apply Z.log2_lt_pow2; lia. }
  assert (Z.log2 b < w).
  { destruct (Z.eq_dec b 0) as [->|]; [simpl; lia|]. apply Z.log2_lt_pow2; lia. }
  lia.
Qed.

Lemma toUint64_lxor T v m :
  0 < bits T ≤ 64 → 0 ≤ v < 2 ^ bits T → toUint64 T v = v →
  0 ≤ m < 2 ^ bits T →
  toUint64 T (Z.lxor m v) = Z.lxor (toUint64 T m) v.
Proof.
  intros Hw Hv Hid Hm. apply Z.bits_inj'. intros n Hn.
  pose proof (lxor_range_width (bits T) m v ltac:(lia) Hm Hv) as Hx.
  rewrite Z.lxor_spec, !toUint64_testbit by done.
  destruct (Z.ltb_spec n (bits T)) as [Hlt|Hge]; [by rewrite Z.lxor_spec|].
  rewrite Z.lxor_spec.
  pose proof (toUint64_testbit T v n Hw Hv Hn) as Hb.
  rewrite Hid in Hb.
  destruct (Z.ltb_spec n (bits T)); [lia|].
  rewrite (high_bits_zero v (bits T) n) in * by lia.
  destruct (n <? 64), (is_signed T), (Z.testbit v (bits T - 1)),
    (Z.testbit m (bits T - 1)); simpl in *; congruence.
Qed.

(** The entries of a table decoded on a mask of type [T] and on its
    conversion to [uint64]. *)
Lemma decode_entries_width T es : ∀ m b,
  0 < bits T ≤ 64 →
  Forall (λ e, 0 ≤ fst e < 2 ^ bits T ∧ toUint64 T (fst e) = fst e) es →
  0 ≤ m < 2 ^ bits T →
  decode_entries es (toUint64 T m) b =
  match decode_entries es m b with
  | inl s => inl s
  | inr (m', b') => inr (toUint64 T m', b')
  end.
Proof.
  induction es as [|[v nm] es IH]; intros m b Hw Hes Hm; [done|].
  apply Forall_cons in Hes as [[Hv Hid] Hes]. simpl in Hv, Hid.
  cbn [decode_entries].
  rewrite land_toUint64 by done.
  destruct (Z.land v m =? 0); [by apply IH|].
  rewrite <- toUint64_lxor by done.
  pose proof (lxor_range_width (bits T) m v ltac:(lia) Hm Hv) as Hx.
  unfold emit_name. rewrite toUint64_eqb_0 by done.
  destruct (String.length b =? 0)%nat, (Z.lxor m v =? 0); try done;
    by apply IH.
Qed.

Lemma shl_mod T x k :
  0 < bits T ≤ 64 → 0 ≤ k →
  shlT T (x mod 2 ^ bits T) k = shl64 x k mod 2 ^ bits T.
Proof.
  intros Hw Hk. unfold shlT, convT, shl64, uint64.
  rewrite !Z.shiftl_mul_pow2 by done.
  assert (0 < 2 ^ bits T) by (apply Z.pow_pos_nonneg; lia).
  rewrite Z.mul_mod_idemp_l by lia.
  rewrite Z.mod_mod_divide; [done|].
  exists (2 ^ (64 - bits T)). rewrite <- Z.pow_add_r by lia. f_equal. lia.
Qed.

Lemma uint8_nonneg z : 0 ≤ uint8 z.
Proof. unfold uint8. apply Z.mod_pos_bound. lia. Qed.

(** The loop of the per-type templates walks the entries of the table. *)
Lemma String_loop_skips_entries T t offs : ∀ v si p1 es m b,
  0 < bits T ≤ 64 →
  table_entries_loop t offs v si p1 = Ok es →
  Forall (λ e, 0 ≤ fst e < 2 ^ bits T) es →
  ∃ e, String_loop_skips T t offs (mkSt m (v mod 2 ^ bits T) si p1 b) = Ok e ∧
       exit_view e = decode_entries es m b.
Proof.
  induction offs as [|o offs IH]; intros v si p1 es m b Hw; simpl.
  - intros [= <-] _. by eexists.
  - destruct (Z.eqb_spec o 0) as [->|Hne].
    + intros Hr Hes. apply rbind_Ok in Hr as (sk & -> & Hr). simpl.
      rewrite !shl_mod by (done || apply uint8_nonneg || lia).
      by apply IH.
    + intros Hr Hes. apply rbind_Ok in Hr as (nm & Hnm & Hr).
      apply rbind_Ok in Hr as (es' & Hes' & [= <-]).
      apply Forall_cons in Hes as [Hv Hes]. simpl in Hv.
      rewrite !shl_mod by (done || lia).
      rewrite (Z.mod_small v) by done.
      cbn [decode_entries].
      destruct (Z.land v m =? 0); [by apply IH|].
      rewrite Hnm. simpl.
      destruct (emit_name _ _ _) as [s|b']; [by eexists|].
      by apply IH.
Qed.

Lemma String_loop_no_gaps T t offs : ∀ st,
  count_zero offs = 0%nat →
  String_loop T t offs st = String_loop_skips T t offs st.
Proof.
  induction offs as [|o offs IH]; intros st Hz; simpl; [done|].
  rewrite count_zero_cons in Hz.
  destruct (o =? 0); [done|].
  destruct (Z.land (st_v st) (st_m st) =? 0); [by apply IH|].
  destruct (slice _ _ _); simpl; [|done].
  destruct (emit_name _ _ _); [done|]. by apply IH.
Qed.

Lemma String_code_skips_width T t es m :
  0 < bits T ≤ 64 →
  table_entries t = Ok es →
  Forall (λ e, 0 ≤ fst e < 2 ^ bits T ∧ toUint64 T (fst e) = fst e) es →
  0 ≤ m < 2 ^ bits T →
  String_code_skips T t m = mstring t (toUint64 T m).
Proof.
  intros Hw Hes Hfit Hm. unfold String_code_skips, mstring.
  rewrite toUint64_eqb_0 by done.
  destruct (Z.eqb_spec m 0) as [->|Hne]; [done|].
  assert (Forall (λ e, 0 ≤ fst e < 2 ^ bits T) es) as Hfit'.
  { eapply Forall_impl; [exact Hfit|]. by intros e [? _]. }
  destruct (String_loop_skips_entries T t (offsets t) (first t) 0 0 es m ""
              Hw Hes Hfit') as (eT & HeT & HvT).
  destruct (mstring_loop_entries t (offsets t) (first t) 0 0 es
              (toUint64 T m) "" Hes) as (e64 & He64 & Hv64).
  unfold convT. rewrite HeT, He64. simpl. f_equal.
  rewrite (decode_entries_width T es m "" Hw Hfit Hm), <- HvT in Hv64.
  destruct eT as [s|st], e64 as [s'|st']; simpl in *; try done.
  - by injection Hv64 as ->.
  - injection Hv64 as -> ->. done.
Qed.

Lemma flag_of_type T f :
  0 < bits T ≤ 64 → typed T f → is_flag (value f) →
  0 ≤ value f < 2 ^ bits T ∧ toUint64 T (value f) = value f.
Proof.
  intros Hw (x & Hx & Hv) (k & Hk & Hflag).
  destruct (Z.eq_dec (toUint64 T x) x) as [Hid|Hne].
  { rewrite Hv, Hid. split; [done|]. by rewrite Hid. }
  exfalso. unfold toUint64 in Hne, Hv.
  destruct (is_signed T && (2 ^ (bits T - 1) <=? x)) eqn:Hs; [|done].
  apply andb_true_iff in Hs as [_ Hle]. apply Z.leb_le in Hle.
  destruct (Z.eq_dec (bits T) 64) as [H64|H64].
  { apply Hne. unfold uint64. rewrite H64 in *.
    rewrite <- (Z.mod_add _ 1) by lia. rewrite Z.mod_small; lia. }
  assert (2 ^ bits T = 2 * 2 ^ (bits T - 1)) as Hpow.
  { rewrite <- Z.pow_succ_r by lia. f_equal. lia. }
  assert (2 ^ (bits T - 1) ≤ 2 ^ 62) by (apply Z.pow_le_mono_r; lia).
  assert (0 < 2 ^ (bits T - 1)) by (apply Z.pow_pos_nonneg; lia).
  assert (2 ^ k ≤ 2 ^ 63) by (apply Z.pow_le_mono_r; lia).
  unfold uint64 in Hv. rewrite <- (Z.mod_add _ 1) in Hv by lia.
  rewrite Z.mod_small in Hv by lia. lia.
Qed.

Lemma typed_range T values :
  0 < bits T ≤ 64 → Forall (typed T) values →
  Forall (λ v, 0 ≤ value v < 2 ^ 64) values.
Proof.
  intros Hw Ht. eapply Forall_impl; [exact Ht|].
  intros v (x & Hx & ->). by apply toUint64_range.
Qed.

Section any_width.
Context (T : IntType) (g : Generator) (values : list Value)
        (typeName : string) (code : template * stringerBitflag).
Hypothesis Hwidth : 0 < bits T ≤ 64.
Hypothesis Htyped : Forall (typed T) values.
Hypothesis Hsmall : smallest_is_flag values.
Hypothesis Hnames : Forall (λ v, name v ≠ "") values.
Hypothesis Hbuild : buildBitflag g values typeName = Ok code.

Lemma String_of_mstring m :
  0 ≤ m < 2 ^ bits T →
  String_of T code m = mstring (snd code) (toUint64 T m).
Proof.
  intros Hm. pose proof (typed_range T values Hwidth Htyped) as Hr.
  destruct (buildBitflag_in_order _ _ _ _ Hr Hsmall Hnames Hbuild)
    as [_ _ Hent Hwf _ _].
  assert (Forall (λ e, 0 ≤ fst e < 2 ^ bits T ∧ toUint64 T (fst e) = fst e)
            (map entry (survivors values))) as Hfit.
  { apply Forall_fmap, Forall_forall. intros f Hf. simpl.
    apply flag_of_type; [done| |].
    - apply survivors_subset, list_elem_of_fmap in Hf as (v & -> & Hv).
      rewrite Forall_forall in Htyped. apply (Htyped v Hv).
    - pose proof (survivors_flags values Hr Hsmall) as Hfl.
      rewrite Forall_forall in Hfl. by apply Hfl. }
  pose proof (String_code_skips_width T _ _ m Hwidth Hent Hfit Hm) as Hskips.
  destruct code as [tpl t]. simpl in *.
  unfold String_of. simpl.
  destruct tpl; simpl; try done.
  - rewrite <- Hskips. unfold String_code, String_code_skips.
    destruct (m =? 0); [done|]. rewrite String_loop_no_gaps; [done|].
    rewrite <- (wf_gaps t Hwf).
    by rewrite (buildBitflag_shape _ _ _ _ _ Hbuild) by auto.
  - rewrite <- Hskips. unfold String_code, String_code_skips.
    destruct (m =? 0); [done|]. rewrite String_loop_no_gaps; [done|].
    rewrite <- (wf_gaps t Hwf).
    by rewrite (buildBitflag_shape _ _ _ _ _ Hbuild) by auto.
  - unfold String_table. by rewrite descriptor_id by apply (wf_first t Hwf).
  - unfold String_table. by rewrite descriptor_id by apply (wf_first t Hwf).
Qed.

End any_width.

(** Flags below the sign bit are constants of the type. *)
Lemma typed_small T v :
  0 < bits T ≤ 64 → 0 ≤ value v < 2 ^ (bits T - 1) → typed T v.
Proof.
  intros Hw Hv. exists (value v).
  assert (2 ^ bits T = 2 * 2 ^ (bits T - 1)) as Hpow.
  { rewrite <- Z.pow_succ_r by lia. f_equal. lia. }
  split; [lia|]. unfold toUint64.
  destruct (Z.leb_spec (2 ^ (bits T - 1)) (value v)); [lia|].
  by rewrite andb_false_r.
Qed.


Lemma days_typed_uint8 : Forall (typed uint8_t) days_in_bitflag.
Proof.
  apply (Forall_impl (λ v, 0 ≤ value v < 2 ^ 7)).
  - apply (bool_decide_unpack _). vm_compute. exact I.
  - intros v Hv. apply typed_small; simpl; lia.
Qed.

Lemma days_smallest_is_flag : smallest_is_flag days_in_bitflag.
Proof.
  intros v0 H. vm_compute in H. injection H as <-.
  exists 0. split; [lia|reflexivity].
Qed.

Lemma days_names : Forall (λ v, name v ≠ "") days_in_bitflag.
Proof. apply (bool_decide_unpack _). vm_compute. exact I. Qed.


(** A mask of a signed 16-bit type with its sign bit set: the bits without a
    name are those of the mask converted to [uint64]. *)
Example String_of_int16_negative :
  String_of int16_t (stringBitflagCode, days_table) (Z.lor (2 ^ 15) (2 ^ 1)) =
    Ok "(Tuesday|Days(0xffffffffffff8000))" ∧
  String_of int16_t (stringBitflagTableDrivenCached, days_table)
    (Z.lor (2 ^ 15) (2 ^ 1)) = Ok "(Tuesday|Days(0xffffffffffff8000))".
Proof. vm_compute. done. Qed.

(** ** The table of runs of flags *)

(** X5. [nameAndRest] on runs of flags with names of 1 to 255 bytes: the blob
    is the names in run order, [offsets] their lengths with one 0 between two
    runs, and [skips] holds for every gap the number of bit positions it leaves
    out, which is at least 1, so that [skips[si] - 1] does not wrap. *)
Theorem nameAndRest_of_runs (runs : list (list Value)) :
  proper_runs runs →
  nameAndRest runs =
    Ok (join (map name (concat runs)), offsets_of runs, skips_of runs) ∧
  Forall (λ k, 1 ≤ k ≤ 62 ∧ uint8 (k - 1) = k - 1) (skips_of runs).
Proof.
  intros Hp. split; [by apply nameAndRest_proper|].
  eapply Forall_impl; [by apply skips_of_proper|].
  intros k [Hk1 Hk2]. split; [done|]. unfold uint8. apply Z.mod_small.
  change (2 ^ 8) with 256. lia.
Qed.

Lemma gap_runs_proper : proper_runs gap_runs.
Proof.
  destruct (splitIntoBitflagRuns_proper gap_in_bitflag
              (Some (mkValue "Zero" 0 false)) gap_runs)
    as (_ & Hp & _); [exact gap_in_range|exact gap_smallest_is_flag| | |done].
  - apply (bool_decide_unpack _). vm_compute. exact I.
  - vm_compute. reflexivity.
Qed.

Lemma nameAndRest_of_runs_witness :
  nameAndRest gap_runs =
    Ok (join (map name (concat gap_runs)), offsets_of gap_runs,
        skips_of gap_runs) ∧
  Forall (λ k, 1 ≤ k ≤ 62 ∧ uint8 (k - 1) = k - 1) (skips_of gap_runs).
Proof. apply (nameAndRest_of_runs gap_runs). exact gap_runs_proper. Defined.

(** ** The generated code does not panic *)

(** X6. Whatever the constants, when none has an empty name the table
    [buildBitflag] returns is well-formed, and the shared routine returns a
    string for every mask. *)
Theorem buildBitflag_table_decodes (g : Generator) (values : list Value)
    (typeName : string) (code : template * stringerBitflag) :
  Forall (λ v, 0 ≤ value v < 2 ^ 64) values →
  Forall (λ v, name v ≠ "") values →
  buildBitflag g values typeName = Ok code →
  well_formed (snd code) ∧
  ∀ m, 0 ≤ m < 2 ^ 64 → ∃ s, mstring (snd code) m = Ok s.
Proof.
  intros Hr Hn Hb.
  pose proof (buildBitflag_wf _ _ _ _ Hr Hn Hb) as Hwf.
  split; [done|]. intros m Hm. by apply mstring_Ok.
Qed.

Lemma buildBitflag_table_decodes_witness :
  well_formed (snd (stringBitflagTableDrivenNotCached, multibit_first_table)) ∧
  ∀ m, 0 ≤ m < 2 ^ 64 →
       ∃ s, mstring (snd (stringBitflagTableDrivenNotCached,
                          multibit_first_table)) m = Ok s.
Proof.
  apply (buildBitflag_table_decodes (mkGenerator false true) multibit_first "T"
           (stringBitflagTableDrivenNotCached, multibit_first_table)).
  - apply (bool_decide_unpack _). vm_compute. exact I.
  - apply (bool_decide_unpack _). vm_compute. exact I.
  - vm_compute. reflexivity.
Defined.

(** ** Every flag prints as its name *)

Lemma declared_flag_typed T values f :
  Forall (typed T) values → declared_flag values f → typed T f.
Proof.
  intros Ht [_ Hf]. apply first_with_value_Some in Hf as [Hin _].
  apply list_elem_of_fmap in Hin as (v & -> & Hv).
  rewrite Forall_forall in Ht. apply (Ht v Hv).
Qed.



(** ** The shared cache holds what the routine computes *)

Lemma cache_room_lookup c k s :
  cache_room c !! k = Some s → cache_map c !! k = Some s.
Proof.
  unfold cache_room, cache_map. destruct (cached c) as [mp|]; simpl; [|done].
  destruct (capCache <=? _); [by rewrite lookup_empty|done].
Qed.

Lemma reachable_coherent t c : reachable t c →
  ∀ k s, cache_map c !! k = Some s → k ≠ 0 ∧ mstring t k = Ok s.
Proof.
  induction 1 as [|c m s' c' Hr IH Hcall]; intros k s.
  - unfold cache_map. simpl. by rewrite lookup_empty.
  - pose proof (reachable_sb _ _ Hr) as Hsb.
    apply cache_mstring_cases in Hcall
      as [->|(Hm & _ & Hs' & ->)]; [by apply IH|].
    unfold cache_map. simpl.
    destruct (decide (k = m)) as [->|Hne].
    + rewrite lookup_insert_eq. intros [= <-]. by rewrite <- Hsb.
    + rewrite lookup_insert_ne by done.
      intros Hk%cache_room_lookup. by apply IH.
Qed.

(** X8. Every entry of the shared cache is the string [mstring] computes for
    its key, and the mask 0 is never a key. *)
Theorem cache_coherent (t : stringerBitflag) (c : stringerBitflagCache)
    (k : Z) (s : string) :
  reachable t c → cache_map c !! k = Some s →
  k ≠ 0 ∧ mstring t k = Ok s.
Proof. intros Hr. by apply reachable_coherent. Qed.

Lemma gap_cache_reachable :
  reachable gap_table
    (mkCache gap_table (Some (<[2 ^ 4 := "Gap(0x10)"%string]> ∅))).
Proof.
  apply (reachable_call gap_table (mkCache gap_table None) (2 ^ 4) "Gap(0x10)").
  - apply reachable_init.
  - vm_compute. reflexivity.
Qed.

Lemma cache_coherent_witness :
  2 ^ 4 ≠ 0 ∧ mstring gap_table (2 ^ 4) = Ok "Gap(0x10)"%string.
Proof.
  apply (cache_coherent gap_table
           (mkCache gap_table (Some (<[2 ^ 4 := "Gap(0x10)"%string]> ∅)))).
  - exact gap_cache_reachable.
  - vm_compute. reflexivity.
Defined.

(** X9. The cache does not change what is returned: in every reachable state
    the cached routine returns [s] for [m] exactly when [mstring] does. *)
Theorem cache_mstring_transparent (t : stringerBitflag)
    (c : stringerBitflagCache) (m : Z) (s : string) :
  reachable t c →
  (∃ c', cache_mstring c m = Ok (s, c')) ↔ mstring t m = Ok s.
Proof.
  intros Hr. pose proof (reachable_sb _ _ Hr) as Hsb.
  assert (∀ s', cache_lookup c m = Some s' → mstring t m = Ok s') as Hcoh.
  { intros s' Hs'. rewrite cache_lookup_map in Hs'.
    by destruct (reachable_coherent t c Hr m s' Hs'). }
  unfold cache_mstring, mstring in *. rewrite Hsb.
  destruct (Z.eqb_spec m 0) as [->|Hne].
  - split; [by intros (c' & [= <- _])|intros [= <-]; by eexists].
  - destruct (cache_lookup c m) as [s'|].
    + rewrite (Hcoh s' eq_refl).
      split; [by intros (c' & [= <- _])|intros [= <-]; by eexists].
    + destruct (mstring_loop _ _ _) as [e|e]; simpl.
      * split; [by intros (c' & [= <- _])|intros [= <-]; by eexists].
      * split; [by intros (c' & ?)|done].
Qed.

Lemma cache_mstring_transparent_witness :
  (∃ c', cache_mstring
           (mkCache gap_table (Some (<[2 ^ 4 := "Gap(0x10)"%string]> ∅)))
           (2 ^ 11) = Ok ("Eleven"%string, c')) ↔
  mstring gap_table (2 ^ 11) = Ok "Eleven"%string.
Proof.
  apply (cache_mstring_transparent gap_table). exact gap_cache_reachable.
Defined.

(** ** The per-type cache *)



(** ** The shift count *)

Lemma shiftCount_loop_least next fuel : ∀ count prev,
  0 < prev < 2 ^ 64 → 2 ^ (63 - Z.of_nat fuel) ≤ prev → next ≤ 2 ^ 63 →
  ∃ j, 0 ≤ j ∧
       shiftCount_loop fuel count prev next = Ok (count + j) ∧
       next ≤ prev * 2 ^ j ∧
       ∀ k, 0 ≤ k < j → prev * 2 ^ k < next.
Proof.
  induction fuel as [|fuel IH]; intros count prev Hp Hlow Hnext; simpl.
  - simpl in Hlow. destruct (Z.ltb_spec prev next); [lia|].
    exists 0. rewrite Z.add_0_r, Z.mul_1_r. split_and!; [done|done|done|lia].
  - destruct (Z.ltb_spec prev next) as [Hlt|Hge].
    2: { exists 0. rewrite Z.add_0_r, Z.mul_1_r.
         split_and!; [done|done|done|lia]. }
    assert (shl64 prev 1 = 2 * prev) as ->.
    { unfold shl64. rewrite Z.shiftl_mul_pow2 by lia.
      rewrite uint64_small; lia. }
    destruct (IH (count + 1) (2 * prev)) as (j & Hj & Hloop & Hreach & Hleast);
      [lia| |done|].
    { destruct (Z.le_gt_cases 0 (63 - Z.of_nat (S fuel))) as [Hge|Hlt'].
      + replace (63 - Z.of_nat fuel) with (63 - Z.of_nat (S fuel) + 1) by lia.
        rewrite Z.pow_add_r by lia. lia.
      + assert (2 ^ (63 - Z.of_nat fuel) ≤ 1); [|lia].
        destruct (Z.eq_dec (63 - Z.of_nat fuel) 0) as [->|]; [done|].
        rewrite Z.pow_neg_r by lia. lia. }
    exists (Z.succ j). rewrite Z.pow_succ_r by lia.
    split_and!; [lia|rewrite Hloop; f_equal; lia|lia|].
    intros k Hk. destruct (Z.eq_dec k 0) as [->|Hk0]; [lia|].
    specialize (Hleast (k - 1) ltac:(lia)).
    replace k with (Z.succ (k - 1)) by lia. rewrite Z.pow_succ_r by lia. lia.
Qed.

(** X11. [shiftCount prev next], for a [next] of at most [2^63] as every flag
    is: the least count of shifts that brings [prev] to [next] or beyond. *)
Theorem shiftCount_least (prev next : Z) :
  0 < prev < 2 ^ 64 → next ≤ 2 ^ 63 →
  ∃ c, shiftCount prev next = Ok c ∧
       0 ≤ c ≤ 63 ∧
       next ≤ prev * 2 ^ c ∧
       ∀ k, 0 ≤ k < c → prev * 2 ^ k < next.
Proof.
  intros Hp Hn.
  destruct (shiftCount_loop_least next 64 0 prev Hp) as (j & Hj & Hl & Hr & Hle);
    [simpl; lia|done|].
  exists j. unfold shiftCount. split_and!; [done|done| |done|done].
  destruct (Z.le_gt_cases j 63) as [|Hbig]; [done|exfalso].
  specialize (Hle 63 ltac:(lia)).
  assert (2 ^ 63 ≤ prev * 2 ^ 63); [|lia].
  assert (0 < 2 ^ 63) by done. nia.
Qed.

Lemma shiftCount_least_witness :
  ∃ c, shiftCount 3 (2 ^ 4) = Ok c ∧
       0 ≤ c ≤ 63 ∧
       2 ^ 4 ≤ 3 * 2 ^ c ∧
       ∀ k, 0 ≤ k < c → 3 * 2 ^ k < 2 ^ 4.
Proof.
  apply (shiftCount_least 3 (2 ^ 4)).
  - apply (bool_decide_unpack _). vm_compute. exact I.
  - apply (bool_decide_unpack _). vm_compute. exact I.
Defined.

(** ** The batch *)

Lemma generate_Ok g typeName values buf out :
  generate g typeName values buf = Ok out ↔
  ∃ code, builds g (typeName, values) code ∧ out = buf ++ [code].
Proof.
  unfold generate, builds. simpl.
  destruct values as [|v values]; simpl.
  - split; [done|]. by intros (code & [? _] & _).
  - destruct (buildBitflag g (v :: values) typeName) as [code|e]; simpl.
    + split; [intros [= <-]; by eexists|].
      by intros (code' & [_ [= <-]] & ->).
    + split; [done|]. by intros (code' & [_ ?] & _).
Qed.

Lemma genFile_loop_Ok g batch : ∀ buf out,
  genFile_loop g batch buf = Ok out ↔
  ∃ codes, out = buf ++ codes ∧ Forall2 (builds g) batch codes.
Proof.
  induction batch as [|[typeName values] batch IH]; intros buf out; simpl.
  - split.
    + intros [= <-]. exists []. by rewrite app_nil_r.
    + intros (codes & -> & ->%Forall2_nil_inv_l). by rewrite app_nil_r.
  - rewrite rbind_Ok. split.
    + intros (buf' & Hgen & Hrest).
      apply generate_Ok in Hgen as (code & Hcode & ->).
      apply IH in Hrest as (codes & -> & Hcodes).
      exists (code :: codes). rewrite <- app_assoc. split; [done|].
      by constructor.
    + intros (codes & -> & Hall).
      apply Forall2_cons_inv_l in Hall as (code & codes' & Hcode & Hall & ->).
      exists (buf ++ [code]). split.
      * apply generate_Ok. by exists code.
      * apply IH. exists codes'. by rewrite <- app_assoc.
Qed.

(** X12. [genFile] returns exactly when every type of the batch has a constant
    and [buildBitflag] returns for it; the buffer then holds, in the order of
    the request, what [buildBitflag] returns for each type on its own. *)
Theorem genFile_each (g : Generator) (batch : list (string * list Value))
    (out : list (template * stringerBitflag)) :
  genFile g batch = Ok out ↔ Forall2 (builds g) batch out.
Proof.
  unfold genFile. rewrite genFile_loop_Ok. split.
  - by intros (codes & -> & ?).
  - intros ?. by exists out.
Qed.

(** X13. A type without constants ends the run with "no values defined for
    type", whatever follows it in the batch, once the types before it have been
    built. *)
Theorem genFile_no_values (g : Generator) (pre post : list (string * list Value))
    (typeName : string) (buf : list (template * stringerBitflag)) :
  genFile g pre = Ok buf →
  genFile g (pre ++ (typeName, []) :: post) = Abort (ExitNoValues typeName).
Proof.
  intros Hpre. unfold genFile in *. rewrite genFile_loop_app, Hpre. done.
Qed.

Lemma genFile_no_values_witness :
  genFile (mkGenerator true false)
    ([("Gap", gap_in_bitflag)] ++ ("Empty", []) :: [("Days", days_in_bitflag)])
  = Abort (ExitNoValues "Empty").
Proof.
  apply (genFile_no_values (mkGenerator true false) [("Gap", gap_in_bitflag)]
           [("Days", days_in_bitflag)] "Empty"
           [(stringBitflagCacheCodeWithSkips, gap_table)]).
  vm_compute. reflexivity.
Defined.

(** ** The integer lists read back *)

Lemma digit_of_dec_digit d : 0 ≤ d < 10 → digit_of (dec_digit d) = Some d.
Proof.
  intros Hd.
  assert (d = 0 ∨ d = 1 ∨ d = 2 ∨ d = 3 ∨ d = 4 ∨ d = 5 ∨ d = 6 ∨ d = 7 ∨
          d = 8 ∨ d = 9) as Hcase by lia.
  repeat destruct Hcase as [->|Hcase]; try reflexivity. by subst.
Qed.

Lemma FormatInt_loop_append fuel : ∀ n acc rest,
  FormatInt_loop fuel n acc +:+ rest = FormatInt_loop fuel n (acc +:+ rest).
Proof.
  induction fuel as [|fuel IH]; intros n acc rest; simpl; [done|].
  destruct (n / 10 =? 0); [by rewrite append_cons|].
  by rewrite IH, append_cons.
Qed.

(** Reading the digits of [n] multiplies what was read before by a power of
    10 and adds [n]. *)
Lemma read_ints_digits fuel : ∀ n rest acc,
  0 ≤ n < 10 ^ Z.of_nat fuel → (0 < fuel)%nat →
  ∃ k, 0 ≤ k ∧ ∀ cur,
    read_ints (FormatInt_loop fuel n rest) cur acc =
    read_ints rest (Some (default 0 cur * 10 ^ k + n)) acc.
Proof.
  induction fuel as [|fuel IH]; intros n rest acc Hn Hf; [lia|].
  assert (0 ≤ n mod 10 < 10) as Hd by (apply Z.mod_pos_bound; lia).
  pose proof (Z.div_mod n 10 ltac:(lia)) as Hdm.
  cbn [FormatInt_loop].
  destruct (Z.eqb_spec (n / 10) 0) as [Hz|Hnz].
  - exists 1. split; [lia|]. intros cur. cbn [read_ints].
    rewrite digit_of_dec_digit by done. do 2 f_equal. lia.
  - assert (0 ≤ n / 10 < 10 ^ Z.of_nat fuel) as Hq.
    { split; [apply Z.div_pos; lia|].
      apply Z.div_lt_upper_bound; [lia|].
      rewrite <- Z.pow_succ_r by lia. rewrite <- Nat2Z.inj_succ. lia. }
    destruct fuel as [|fuel']; [simpl in Hq; lia|].
    destruct (IH (n / 10) (String (dec_digit (n mod 10)) rest) acc Hq
                ltac:(lia)) as (k & Hk0 & Hk).
    exists (Z.succ k). split; [lia|]. intros cur. rewrite Hk. cbn [read_ints].
    rewrite digit_of_dec_digit by done. cbn [default].
    do 2 f_equal. unfold id. rewrite Z.pow_succ_r by done. lia.
Qed.

Lemma read_ints_FormatInt n rest acc :
  0 ≤ n < 2 ^ 63 →
  read_ints (FormatInt n +:+ rest) None acc = read_ints rest (Some n) acc.
Proof.
  intros Hn. unfold FormatInt. destruct (Z.ltb_spec n 0); [lia|].
  rewrite FormatInt_loop_append, append_nil_l.
  destruct (read_ints_digits 19 n rest acc) as (k & _ & Hk); [|lia|].
  { split; [lia|]. assert (2 ^ 63 < 10 ^ Z.of_nat 19) by done. lia. }
  rewrite Hk. simpl. done.
Qed.

Lemma intString_loop_body values : ∀ sep r,
  intString_loop values sep r = r +:+ intString_body values sep.
Proof.
  induction values as [|v values IH]; intros sep r; simpl.
  - by rewrite append_nil_r.
  - by rewrite IH, !append_assoc.
Qed.

Lemma read_ints_body values : ∀ n acc,
  Forall (λ v, 0 ≤ v < 2 ^ 63) values →
  read_ints (intString_body values ", ") (Some n) acc =
  Some (acc ++ n :: values).
Proof.
  induction values as [|v values IH]; intros n acc Hall; [done|].
  apply Forall_cons in Hall as [Hv Hall].
  cbn [intString_body]. rewrite !append_cons, append_nil_l.
  cbn [read_ints]. change (digit_of ","%char) with (@None Z).
  change (digit_of " "%char) with (@None Z). cbn.
  rewrite read_ints_FormatInt by done. rewrite IH by done.
  by rewrite <- app_assoc.
Qed.

(** X14. The list [intString] prints reads back as the list it was given, for
    entries that are not negative: nothing is lost or merged on the way into
    the generated file. *)
Theorem intString_round_trip (values : list Z) :
  Forall (λ v, 0 ≤ v < 2 ^ 63) values →
  read_ints (intString values) None [] = Some values.
Proof.
  intros Hall. unfold intString. rewrite intString_loop_body, append_nil_l.
  destruct values as [|v values]; [done|].
  apply Forall_cons in Hall as [Hv Hall].
  cbn [intString_body]. rewrite append_nil_l.
  rewrite read_ints_FormatInt by done. by rewrite read_ints_body.
Qed.

Lemma intString_round_trip_witness :
  read_ints (intString (offsets gap_table)) None [] = Some (offsets gap_table).
Proof.
  apply (intString_round_trip (offsets gap_table)).
  apply (bool_decide_unpack _). vm_compute. exact I.
Defined.

(** The lists of the golden files. *)
Example intString_gap :
  intString (offsets gap_table) = "3, 5, 0, 4, 3, 5, 5, 4, 0, 6" ∧
  intString (skips gap_table) = "1, 1" ∧
  intString [] = "".
Proof. vm_compute. done. Qed.

(** ** What the output depends on *)

Lemma sorted_lt_NoDup l : StronglySorted value_lt l → NoDup l.
Proof.
  induction 1 as [|x l _ IH Hall]; constructor; [|done].
  intros Hin. rewrite Forall_forall in Hall. specialize (Hall x Hin).
  unfold value_lt in Hall. lia.
Qed.

Lemma survivors_ext values values' :
  Forall (λ v, 0 ≤ value v < 2 ^ 64) values →
  Forall (λ v, 0 ≤ value v < 2 ^ 64) values' →
  (∀ f, kept values f ↔ kept values' f) →
  survivors values = survivors values'.
Proof.
  intros Hr Hr' Hk.
  pose proof (survivors_sorted values Hr) as Hs.
  pose proof (survivors_sorted values' Hr') as Hs'.
  eapply (StronglySorted_unique_strong value_lt); [|done|done|].
  - unfold value_lt. intros; lia.
  - apply NoDup_Permutation; [by apply sorted_lt_NoDup..|].
    intros f. by rewrite !survivors_kept.
Qed.

Lemma buildBitflag_build_from g values typeName :
  Forall (λ v, 0 ≤ value v < 2 ^ 64) values →
  nonzero_sorted values ≠ [] →
  buildBitflag g values typeName =
  build_from g typeName (zero_name values typeName)
    (runs_loop (length (survivors values)) (survivors values) []).
Proof.
  intros Hr Hnz. unfold buildBitflag, build_from.
  rewrite (splitIntoBitflagRuns_spec values Hr Hnz). simpl.
  unfold zero_name. by destruct (first_zero values).
Qed.

Lemma buildBitflag_ext g values values' typeName :
  Forall (λ v, 0 ≤ value v < 2 ^ 64) values →
  Forall (λ v, 0 ≤ value v < 2 ^ 64) values' →
  zero_name values typeName = zero_name values' typeName →
  (∀ f, kept values f ↔ kept values' f) →
  buildBitflag g values typeName = buildBitflag g values' typeName.
Proof.
  intros Hr Hr' Hz Hk.
  pose proof (survivors_ext values values' Hr Hr' Hk) as Hsv.
  destruct (decide (nonzero_sorted values = [])) as [Hnil|Hnz].
  - assert (nonzero_sorted values' = []) as Hnil'.
    { apply survivors_nil. rewrite <- Hsv. by apply survivors_nil. }
    apply nonzero_sorted_nil in Hnil, Hnil'.
    by rewrite !buildBitflag_all_zero.
  - assert (nonzero_sorted values' ≠ []) as Hnz'.
    { intros Hnil. apply Hnz, survivors_nil. rewrite Hsv. by apply survivors_nil. }
    rewrite !buildBitflag_build_from by done. by rewrite Hz, Hsv.
Qed.

Lemma kept_declared values f :
  Forall (λ v, 0 ≤ value v < 2 ^ 64) values →
  smallest_is_flag values →
  kept values f ↔ declared_flag values f.
Proof.
  intros Hr Hsmall.
  by rewrite <- survivors_kept, survivors_declared.
Qed.

Lemma nonzero_sorted_subset values v :
  v ∈ nonzero_sorted values → v ∈ map clear_signed values.
Proof.
  intros Hin. unfold nonzero_sorted in Hin.
  destruct (drop_zeros_suffix (sort_Stable (map clear_signed values)))
    as (zs & Hzs).
  rewrite <- (sort_Stable_perm (map clear_signed values)), Hzs.
  apply elem_of_app. by right.
Qed.

Lemma find_filter {A} (p q : A → bool) l :
  (∀ x, p x = true → q x = true) →
  List.find p (List.filter q l) = List.find p l.
Proof.
  intros Hpq. induction l as [|x l IH]; simpl; [done|].
  destruct (q x) eqn:Hq; simpl.
  - by rewrite IH.
  - destruct (p x) eqn:Hp; [|done]. apply Hpq in Hp. congruence.
Qed.

Lemma map_clear_signed_filter values :
  map clear_signed (List.filter zero_or_flag values) =
  List.filter zero_or_flag (map clear_signed values).
Proof.
  induction values as [|v values IH]; simpl; [done|].
  change (zero_or_flag (clear_signed v)) with (zero_or_flag v).
  destruct (zero_or_flag v); simpl; by rewrite IH.
Qed.

Lemma filter_in_range values :
  Forall (λ v, 0 ≤ value v < 2 ^ 64) values →
  Forall (λ v, 0 ≤ value v < 2 ^ 64) (List.filter zero_or_flag values).
Proof.
  rewrite !Forall_forall. intros Hr v Hin.
  apply list_elem_of_In, filter_In in Hin as [Hin _].
  by apply Hr, list_elem_of_In.
Qed.

Lemma filter_smallest_is_flag values :
  Forall (λ v, 0 ≤ value v < 2 ^ 64) values →
  smallest_is_flag (List.filter zero_or_flag values).
Proof.
  intros Hr v0 Hhd.
  pose proof (drop_zeros_head _ _ Hhd) as Hnz.
  assert (v0 ∈ nonzero_sorted (List.filter zero_or_flag values)) as Hin.
  { destruct (nonzero_sorted _); [done|]. injection Hhd as ->. by left. }
  apply nonzero_sorted_subset in Hin.
  rewrite map_clear_signed_filter in Hin.
  apply list_elem_of_In, filter_In in Hin as [Hin Hq].
  apply list_elem_of_In, list_elem_of_fmap in Hin as (v & -> & Hv).
  change (value (clear_signed v)) with (value v) in *.
  unfold zero_or_flag in Hq. simpl in Hq.
  apply orb_true_iff in Hq as [Hq|Hq]; [lia|].
  rewrite Forall_forall in Hr. by apply flag_singleBitSet; [apply Hr|].
Qed.

Lemma filter_declared_flag values f :
  declared_flag (List.filter zero_or_flag values) f ↔ declared_flag values f.
Proof.
  unfold declared_flag, first_with_value.
  rewrite map_clear_signed_filter.
  split; intros [Hflag Hf]; (split; [done|]).
  - rewrite find_filter in Hf; [done|].
    intros x Hx. unfold zero_or_flag. apply orb_true_iff. right.
    apply Z.eqb_eq in Hx. rewrite Hx. by apply singleBitSet_flag.
  - rewrite find_filter; [done|].
    intros x Hx. unfold zero_or_flag. apply orb_true_iff. right.
    apply Z.eqb_eq in Hx. rewrite Hx. by apply singleBitSet_flag.
Qed.

(** X15. Constants of several bits are ignored, as the package documentation
    says, unless one of them is the smallest constant that is not 0: taking
    them out of the declarations leaves the outcome of [buildBitflag] as it is.
    *)
Theorem multibit_constants_ignored (g : Generator) (values : list Value)
    (typeName : string) :
  Forall (λ v, 0 ≤ value v < 2 ^ 64) values →
  smallest_is_flag values →
  buildBitflag g (List.filter zero_or_flag values) typeName =
  buildBitflag g values typeName.
Proof.
  intros Hr Hsmall.
  pose proof (filter_in_range values Hr) as Hr'.
  apply buildBitflag_ext; [done|done| |].
  - unfold zero_name, first_zero. rewrite find_filter; [done|].
    intros x Hx. unfold zero_or_flag. by rewrite Hx.
  - intros f.
    rewrite (kept_declared values f Hr Hsmall).
    rewrite (kept_declared _ f Hr' (filter_smallest_is_flag values Hr)).
    apply filter_declared_flag.
Qed.

Lemma weekend_in_range : Forall (λ v, 0 ≤ value v < 2 ^ 64) weekend_in_bitflag.
Proof. apply (bool_decide_unpack _). vm_compute. exact I. Qed.

Lemma weekend_smallest_is_flag : smallest_is_flag weekend_in_bitflag.
Proof.
  intros v0 H. vm_compute in H. injection H as <-.
  exists 0. split; [lia|reflexivity].
Qed.

Lemma multibit_constants_ignored_witness :
  buildBitflag (mkGenerator true false)
    (List.filter zero_or_flag weekend_in_bitflag) "Days" =
  buildBitflag (mkGenerator true false) weekend_in_bitflag "Days".
Proof.
  apply (multibit_constants_ignored (mkGenerator true false)
           weekend_in_bitflag "Days").
  - exact weekend_in_range.
  - exact weekend_smallest_is_flag.
Defined.

(** The example of the package documentation: [Weekend = Sat | Sun] prints as
    the two days. *)
Example doc_weekend :
  buildBitflag (mkGenerator true false) weekend_in_bitflag "Days" =
    Ok (stringBitflagCacheCode, days_table) ∧
  String_of int_t (stringBitflagCacheCode, days_table) (Z.lor (2 ^ 5) (2 ^ 6)) =
    Ok "(Saturday|Sunday)".
Proof. vm_compute. done. Qed.

Lemma value_inj_NoDup l x y :
  NoDup (map value l) → x ∈ l → y ∈ l → value x = value y → x = y.
Proof.
  induction l as [|z l IH]; simpl; [by intros _ ?%elem_of_nil|].
  intros [Hz Hnd]%NoDup_cons Hx Hy Hv.
  apply elem_of_cons in Hx as [->|Hx], Hy as [->|Hy]; [done| | |by apply IH].
  - exfalso. apply Hz. rewrite Hv. apply list_elem_of_fmap. eauto.
  - exfalso. apply Hz. rewrite <- Hv. apply list_elem_of_fmap. eauto.
Qed.

Lemma first_with_value_NoDup l c f :
  NoDup (map value l) →
  first_with_value l c = Some f ↔ f ∈ l ∧ value f = c.
Proof.
  intros Hnd. split; [apply first_with_value_Some|].
  intros [Hin <-].
  destruct (first_with_value_elem l f Hin) as (w & Hw). rewrite Hw. f_equal.
  apply first_with_value_Some in Hw as [Hwin Hwv].
  by apply (value_inj_NoDup l).
Qed.

Lemma map_value_clear_signed l : map value (map clear_signed l) = map value l.
Proof. induction l as [|v l IH]; simpl; by f_equal. Qed.

Lemma kept_Permutation values values' f :
  NoDup (map value values) → values ≡ₚ values' →
  kept values f → kept values' f.
Proof.
  intros Hnd Hp (Hf & Hnz & Hwhy).
  assert (NoDup (map value values')) as Hnd'.
  { by rewrite <- Hp. }
  split_and!; [|done|].
  - apply first_with_value_NoDup in Hf as [Hin _];
      [|by rewrite map_value_clear_signed].
    apply first_with_value_NoDup; [by rewrite map_value_clear_signed|].
    split; [|done]. by rewrite <- Hp.
  - destruct Hwhy as [?|Hmin]; [by left|right].
    intros v Hv. apply Hmin. by rewrite Hp.
Qed.

(** X16. The order of the declarations does not matter as long as no two
    constants have the same value: [buildBitflag] has the same outcome on every
    rearrangement of the constants. *)
Theorem declaration_order_irrelevant (g : Generator)
    (values values' : list Value) (typeName : string) :
  Forall (λ v, 0 ≤ value v < 2 ^ 64) values →
  NoDup (map value values) →
  values ≡ₚ values' →
  buildBitflag g values typeName = buildBitflag g values' typeName.
Proof.
  intros Hr Hnd Hp.
  assert (NoDup (map value values')) as Hnd' by (by rewrite <- Hp).
  assert (Forall (λ v, 0 ≤ value v < 2 ^ 64) values') as Hr'.
  { by rewrite <- Hp. }
  apply buildBitflag_ext; [done|done| |].
  - unfold zero_name.
    assert (first_zero values = first_zero values') as ->; [|done].
    change first_zero with (λ l, first_with_value l 0).
    destruct (first_with_value values 0) as [z|] eqn:Hz.
    + symmetry. apply first_with_value_NoDup in Hz as [Hin Hv]; [|done].
      apply first_with_value_NoDup; [done|]. split; [|done]. by rewrite <- Hp.
    + destruct (first_with_value values' 0) as [z'|] eqn:Hz'; [|done].
      apply first_with_value_NoDup in Hz' as [Hin Hv]; [|done].
      assert (first_with_value values 0 = Some z') as Hc; [|congruence].
      apply first_with_value_NoDup; [done|]. split; [|done]. by rewrite Hp.
  - intros f. split; apply kept_Permutation; done.
Qed.

Lemma declaration_order_irrelevant_witness :
  buildBitflag (mkGenerator false true) gap_in_bitflag "Gap" =
  buildBitflag (mkGenerator false true) (reverse gap_in_bitflag) "Gap".
Proof.
  apply (declaration_order_irrelevant (mkGenerator false true) gap_in_bitflag
           (reverse gap_in_bitflag) "Gap").
  - exact gap_in_range.
  - apply (bool_decide_unpack _). vm_compute. exact I.
  - symmetry. apply reverse_Permutation.
Defined.

(** ** The partitioner of the plain stringer *)

Lemma byValue_Less_key a b :
  signed a = signed b → byValue_Less a b = (key a <? key b).
Proof. intros Hs. unfold byValue_Less, key. rewrite <- Hs. by destruct (signed a). Qed.

Lemma int64_inj a b :
  0 ≤ a < 2 ^ 64 → 0 ≤ b < 2 ^ 64 → int64 a = int64 b → a = b.
Proof.
  unfold int64. intros Ha Hb.
  destruct (Z.ltb_spec a (2 ^ 63)), (Z.ltb_spec b (2 ^ 63)); lia.
Qed.

Lemma key_inj s a b :
  of_one_type s a → of_one_type s b → key a = key b ↔ value a = value b.
Proof.
  intros [Ha Hsa] [Hb Hsb]. unfold key. rewrite Hsa, Hsb.
  destruct s; [|done]. split; [by apply int64_inj|by intros ->].
Qed.

Lemma insert_stable_sorted_key s x l :
  of_one_type s x → Forall (of_one_type s) l →
  StronglySorted key_le l → StronglySorted key_le (insert_stable x l).
Proof.
  intros Hx Hl Hs. induction Hs as [|y l Hs IH Hy]; simpl.
  - repeat constructor.
  - apply Forall_cons in Hl as [Hsy Hl].
    rewrite byValue_Less_key by (destruct Hx, Hsy; congruence).
    destruct (Z.ltb_spec (key y) (key x)) as [Hlt|Hge].
    + constructor; [by apply IH|].
      rewrite insert_stable_perm. constructor; [unfold key_le; lia|done].
    + constructor; [by constructor|].
      constructor; [done|].
      eapply Forall_impl; [exact Hy|]. unfold key_le. simpl. intros; lia.
Qed.

Lemma sort_Stable_sorted_key s l :
  Forall (of_one_type s) l → StronglySorted key_le (sort_Stable l).
Proof.
  induction 1 as [|x l Hx Hl IH]; simpl; [constructor|].
  eapply insert_stable_sorted_key; [done| |done].
  by apply sort_Stable_Forall.
Qed.

Lemma insert_stable_find_key s x l c :
  of_one_type s x → Forall (of_one_type s) l →
  List.find (λ v, value v =? c) (insert_stable x l) =
  List.find (λ v, value v =? c) (x :: l).
Proof.
  intros Hx. induction 1 as [|y l Hy Hl IH]; simpl; [done|].
  rewrite byValue_Less_key by (destruct Hx, Hy; congruence).
  destruct (Z.ltb_spec (key y) (key x)) as [Hlt|Hge]; simpl; [|done].
  rewrite IH. simpl.
  destruct (Z.eqb_spec (value y) c), (Z.eqb_spec (value x) c); try done.
  assert (key y = key x); [|lia]. apply (key_inj s); [done|done|lia].
Qed.

Lemma sort_Stable_find_key s l c :
  Forall (of_one_type s) l →
  List.find (λ v, value v =? c) (sort_Stable l) =
  List.find (λ v, value v =? c) l.
Proof.
  induction 1 as [|x l Hx Hl IH]; simpl; [done|].
  rewrite (insert_stable_find_key s); [|done|by apply sort_Stable_Forall].
  simpl. by rewrite IH.
Qed.

Lemma uniq_loop_inv (orig : list Value) : ∀ n i j arr,
  length arr = length orig → (1 ≤ j ≤ i)%nat → (i + n = length orig)%nat →
  (∀ p, (j ≤ p)%nat → arr !! p = orig !! p) →
  arr !! (i - 1)%nat = orig !! (i - 1)%nat →
  ∃ prev, orig !! (i - 1)%nat = Some prev ∧
    take (snd (uniq_loop n i j arr)) (fst (uniq_loop n i j arr)) =
    take j arr ++ uniq_from prev (drop i orig).
Proof.
  induction n as [|n IH]; intros i j arr Hlen Hji Hin Hhi Hprev.
  - destruct (lookup_lt_is_Some_2 orig (i - 1)%nat ltac:(lia)) as [prev Hp].
    exists prev. split; [done|]. simpl.
    rewrite drop_ge by lia. simpl. by rewrite app_nil_r.
  - destruct (lookup_lt_is_Some_2 orig (i - 1)%nat ltac:(lia)) as [prev Hp].
    destruct (lookup_lt_is_Some_2 orig i ltac:(lia)) as [vi Hvi].
    exists prev. split; [done|]. simpl.
    rewrite (Hhi i) by lia. rewrite Hvi, Hprev, Hp.
    rewrite (drop_S _ _ _ Hvi). simpl.
    destruct (negb (value vi =? value prev)).
    + destruct (IH (S i) (S j) (<[j:=vi]> arr)) as (prev' & Hp' & ->).
      * by rewrite length_insert.
      * lia.
      * lia.
      * intros p Hpj. rewrite list_lookup_insert_ne by lia. apply Hhi. lia.
      * simpl. rewrite Nat.sub_0_r. destruct (decide (i = j)) as [->|Hne].
        -- rewrite list_lookup_insert_eq by lia. done.
        -- rewrite list_lookup_insert_ne by lia. rewrite Hhi by lia. done.
      * simpl in Hp'. rewrite Nat.sub_0_r in Hp'.
        assert (prev' = vi) as -> by congruence.
        rewrite (take_S_r _ _ vi).
        2: { apply list_lookup_insert_eq. lia. }
        rewrite take_insert_ge by lia. by rewrite <- app_assoc.
    + destruct (IH (S i) j arr) as (prev' & Hp' & ->).
      * done.
      * lia.
      * lia.
      * done.
      * simpl. rewrite Nat.sub_0_r. rewrite Hhi by lia. done.
      * simpl in Hp'. rewrite Nat.sub_0_r in Hp'.
        assert (prev' = vi) as -> by congruence. done.
Qed.

Lemma uniq_loop_spec v0 rest :
  take (snd (uniq_loop (length (v0 :: rest) - 1) 1 1 (v0 :: rest)))
       (fst (uniq_loop (length (v0 :: rest) - 1) 1 1 (v0 :: rest))) =
  v0 :: uniq_from v0 rest.
Proof.
  destruct (uniq_loop_inv (v0 :: rest) (length (v0 :: rest) - 1) 1 1 (v0 :: rest))
    as (prev & Hp & ->); simpl; try done; try lia.
  simpl in Hp. by injection Hp as <-.
Qed.

Lemma uniq_from_sorted s prev l :
  Forall (of_one_type s) (prev :: l) →
  StronglySorted key_le (prev :: l) →
  Forall (key_lt prev) (uniq_from prev l) ∧
  StronglySorted key_lt (uniq_from prev l).
Proof.
  revert prev. induction l as [|y l IH]; intros prev Ht Hs; simpl.
  - split; constructor.
  - apply StronglySorted_inv in Hs as [Hs Hprev].
    apply Forall_cons in Hprev as [Hpy Hprev]. unfold key_le in Hpy.
    apply Forall_cons in Ht as [Htp Ht].
    pose proof Ht as [Hty _]%Forall_cons.
    destruct (IH y Ht Hs) as [Hlt Hsorted].
    assert (Forall (key_lt prev) (uniq_from y l)) as Hlt'.
    { eapply Forall_impl; [exact Hlt|]. unfold key_lt. simpl. intros; lia. }
    destruct (Z.eqb_spec (value y) (value prev)) as [Heq|Hne]; simpl; [done|].
    assert (key y ≠ key prev) by (by rewrite (key_inj s)).
    split.
    + constructor; [unfold key_lt; lia|done].
    + by constructor.
Qed.

Lemma uniq_from_subset prev l : uniq_from prev l ⊆ l.
Proof.
  revert prev. induction l as [|y l IH]; intros prev x; simpl; [done|].
  destruct (negb (value y =? value prev)).
  - intros [->|Hin]%elem_of_cons; [by left|]. right. by apply (IH y).
  - intros Hin. right. by apply (IH y).
Qed.

Lemma uniq_from_elem s prev l x :
  Forall (of_one_type s) (prev :: l) →
  StronglySorted key_le (prev :: l) →
  x ∈ uniq_from prev l ↔
  value x ≠ value prev ∧ List.find (λ v, value v =? value x) l = Some x.
Proof.
  revert prev. induction l as [|y l IH]; intros prev Ht Hs; simpl.
  - split; [by intros ?%elem_of_nil|by intros (_ & ?)].
  - apply StronglySorted_inv in Hs as [Hs Hprev].
    apply Forall_cons in Hprev as [Hpy Hprev]. unfold key_le in Hpy.
    apply Forall_cons in Ht as [Htp Ht].
    pose proof Ht as [Hty Htl]%Forall_cons.
    specialize (IH y Ht Hs).
    assert (∀ z, z ∈ l → of_one_type s z ∧ key y ≤ key z) as Hyl.
    { intros z Hz. apply StronglySorted_inv in Hs as [_ Hy].
      rewrite Forall_forall in Hy, Htl. split; [by apply Htl|by apply Hy]. }
    assert (x ∈ uniq_from y l → value y ≠ value x) as Hgt.
    { intros Hin Heq. destruct (uniq_from_sorted s y l Ht Hs) as [Hlt _].
      rewrite Forall_forall in Hlt. specialize (Hlt x Hin).
      apply uniq_from_subset, Hyl in Hin as [Htx _].
      apply (key_inj s) in Heq; [|done|done]. unfold key_lt in Hlt. lia. }
    destruct (Z.eqb_spec (value y) (value x)) as [Hyx|Hyx].
    + split.
      * intros Hin.
        destruct (Z.eqb_spec (value y) (value prev)) as [Heq|Hne]; simpl in Hin.
        { by apply Hgt in Hin. }
        apply elem_of_cons in Hin as [->|Hin]; [done|by apply Hgt in Hin].
      * intros (Hne & [= ->]).
        destruct (Z.eqb_spec (value x) (value prev)); [done|]. simpl. by left.
    + assert (x ∈ (if negb (value y =? value prev)
                   then y :: uniq_from y l else uniq_from y l)
              ↔ x ∈ uniq_from y l) as ->.
      { destruct (negb (value y =? value prev)); [|done].
        rewrite elem_of_cons. split; [|by right].
        intros [->|?]; done. }
      rewrite IH. split.
      * intros (Hne & Hfind). split; [|done].
        apply find_some in Hfind as [Hin _].
        apply list_elem_of_In, Hyl in Hin as [Htx Hle].
        intros Heq. apply (key_inj s) in Heq; [|done|done].
        assert (key y = key x) as Hk by lia.
        apply (key_inj s) in Hk; [|done|done]. done.
      * intros (Hne & Hfind). split; [lia|done].
Qed.

Lemma span_succ_app prev l :
  fst (span_succ prev l) ++ snd (span_succ prev l) = l.
Proof.
  revert prev. induction l as [|y l IH]; intros prev; simpl; [done|].
  destruct (value y =? uint64 (value prev + 1)); simpl; [|done].
  by rewrite IH.
Qed.

Lemma succ_end_span l : ∀ pre p,
  succ_end (length l) (S (length pre)) (pre ++ p :: l) =
  (S (length pre) + length (fst (span_succ p l)))%nat.
Proof.
  induction l as [|y l IH]; intros pre p; simpl; [lia|].
  rewrite Nat.sub_0_r.
  rewrite (lookup_app_r pre) by lia.
  replace (S (length pre) - length pre)%nat with 1%nat by lia. simpl.
  rewrite (lookup_app_r pre) by lia. rewrite Nat.sub_diag. simpl.
  destruct (value y =? uint64 (value p + 1)); simpl; [|lia].
  replace (pre ++ p :: y :: l) with ((pre ++ [p]) ++ y :: l)
    by (by rewrite <- app_assoc).
  replace (S (S (length pre))) with (S (length (pre ++ [p])))
    by (rewrite length_app; simpl; lia).
  rewrite IH. rewrite length_app. simpl. lia.
Qed.

Lemma succ_runs_loop_acc fuel : ∀ values runs,
  succ_runs_loop fuel values runs = runs ++ succ_runs_loop fuel values [].
Proof.
  induction fuel as [|fuel IH]; intros values runs; simpl.
  - by rewrite app_nil_r.
  - destruct values as [|x l]; [by rewrite app_nil_r|].
    rewrite IH. rewrite (IH _ [_]). by rewrite <- app_assoc.
Qed.

Lemma succ_runs_loop_step fuel x l :
  succ_runs_loop (S fuel) (x :: l) [] =
  (x :: fst (span_succ x l)) :: succ_runs_loop fuel (snd (span_succ x l)) [].
Proof.
  simpl. rewrite Nat.sub_0_r.
  pose proof (succ_end_span l [] x) as Hend. simpl in Hend. rewrite Hend.
  simpl. rewrite succ_runs_loop_acc. simpl.
  pose proof (span_succ_app x l) as Happ.
  set (a := fst (span_succ x l)) in *. set (b := snd (span_succ x l)) in *.
  clearbody a b. subst l. by rewrite take_app_length, drop_app_length.
Qed.

Lemma span_succ_length prev l :
  (length (snd (span_succ prev l)) ≤ length l)%nat.
Proof.
  revert prev. induction l as [|y l IH]; intros prev; simpl; [done|].
  destruct (value y =? uint64 (value prev + 1)); simpl; [|done].
  specialize (IH y). lia.
Qed.

Lemma succ_chain_span prev l : succ_chain (prev :: fst (span_succ prev l)).
Proof.
  revert prev. induction l as [|y l IH]; intros prev; [done|].
  simpl. destruct (Z.eqb_spec (value y) (uint64 (value prev + 1))); [|done].
  simpl. split; [done|]. apply IH.
Qed.

Lemma span_succ_stop prev l f :
  head (snd (span_succ prev l)) = Some f →
  ∀ lst, last (prev :: fst (span_succ prev l)) = Some lst →
  value f ≠ uint64 (value lst + 1).
Proof.
  revert prev. induction l as [|y l IH]; intros prev; simpl; [done|].
  destruct (Z.eqb_spec (value y) (uint64 (value prev + 1))) as [Heq|Hne]; simpl.
  - intros Hf lst Hl. eapply IH; [done|].
    by destruct (fst (span_succ y l)).
  - intros [= <-] lst [= <-]. done.
Qed.

Lemma succ_runs_loop_spec fuel : ∀ values,
  (length values ≤ fuel)%nat →
  concat (succ_runs_loop fuel values []) = values ∧
  succ_maximal (succ_runs_loop fuel values []) ∧
  head (succ_runs_loop fuel values []) ≫= head = head values.
Proof.
  induction fuel as [|fuel IH]; intros values Hfuel.
  - destruct values; [done|simpl in Hfuel; lia].
  - destruct values as [|x l]; [done|].
    rewrite succ_runs_loop_step.
    pose proof (span_succ_length x l).
    destruct (IH (snd (span_succ x l))) as (Hcat & Hmax & Hhd);
      [simpl in Hfuel; lia|].
    split_and!.
    + simpl. rewrite Hcat. by rewrite span_succ_app.
    + simpl. split; [done|]. split; [apply succ_chain_span|].
      destruct (succ_runs_loop fuel (snd (span_succ x l)) []) as [|next rs]
        eqn:Hrs; [done|].
      split; [|done]. intros lst f Hl Hf.
      eapply span_succ_stop; [|exact Hl].
      rewrite <- Hhd. simpl. done.
    + done.
Qed.

Lemma splitIntoRuns_spec values :
  values ≠ [] →
  ∃ v0 rest,
    sort_Stable values = v0 :: rest ∧
    splitIntoRuns values =
    succ_runs_loop (length (v0 :: uniq_from v0 rest)) (v0 :: uniq_from v0 rest) [].
Proof.
  intros Hne. unfold splitIntoRuns.
  destruct (sort_Stable values) as [|v0 rest] eqn:Hsort.
  { exfalso. apply Hne. apply Permutation_nil_r.
    by rewrite <- (sort_Stable_perm values), Hsort. }
  exists v0, rest. split; [done|].
  pose proof (uniq_loop_spec v0 rest) as Huniq.
  destruct (uniq_loop (length (v0 :: rest) - 1) 1 1 (v0 :: rest))
    as [arr j]. simpl in Huniq. by rewrite Huniq.
Qed.

(** X17. [splitIntoRuns] on the constants of one type: the runs hold, in the
    order of the type, for every declared value the constant declared first
    with it; each value in a run is the one before it plus 1, and no run can be
    extended by the first value of the next. *)
Theorem splitIntoRuns_partition (s : bool) (values : list Value) :
  values ≠ [] →
  Forall (of_one_type s) values →
  (∀ f, f ∈ concat (splitIntoRuns values) ↔
        first_with_value values (value f) = Some f) ∧
  StronglySorted key_lt (concat (splitIntoRuns values)) ∧
  succ_maximal (splitIntoRuns values).
Proof.
  intros Hne Ht.
  destruct (splitIntoRuns_spec values Hne) as (v0 & rest & Hsort & ->).
  pose proof (sort_Stable_sorted_key s values Ht) as Hs.
  pose proof (sort_Stable_Forall _ values Ht) as Hts.
  pose proof (λ c, sort_Stable_find_key s values c Ht) as Hfind.
  rewrite Hsort in Hs, Hts, Hfind.
  destruct (succ_runs_loop_spec (length (v0 :: uniq_from v0 rest))
              (v0 :: uniq_from v0 rest)) as (Hcat & Hmax & _); [done|].
  rewrite Hcat. split_and!; [|by constructor; apply (uniq_from_sorted s)|done].
  intros f. unfold first_with_value. rewrite <- Hfind.
  rewrite elem_of_cons, (uniq_from_elem s v0 rest f Hts Hs). simpl.
  destruct (Z.eqb_spec (value v0) (value f)) as [Heq|Hneq].
  - split; [|intros [= ->]; by left].
    intros [->|[Hn _]]; [done|]. by rewrite Heq in Hn.
  - split; [intros [->|[_ ?]]; done|]. intros Hf. right. split; [lia|done].
Qed.

Lemma signed_in_plain_typed : Forall (of_one_type true) signed_in_plain.
Proof. apply (bool_decide_unpack _). vm_compute. exact I. Qed.

Lemma splitIntoRuns_partition_witness :
  (∀ f, f ∈ concat (splitIntoRuns signed_in_plain) ↔
        first_with_value signed_in_plain (value f) = Some f) ∧
  StronglySorted key_lt (concat (splitIntoRuns signed_in_plain)) ∧
  succ_maximal (splitIntoRuns signed_in_plain).
Proof.
  apply (splitIntoRuns_partition true signed_in_plain).
  - done.
  - exact signed_in_plain_typed.
Defined.

(** A signed type: -1, 0 and 1 make one run, the value 1 under the name
    declared first. *)
Example splitIntoRuns_signed :
  splitIntoRuns signed_in_plain =
  [[mkValue "MinusOne" (2 ^ 64 - 1) true; mkValue "Zero" 0 true;
    mkValue "One" 1 true];
   [mkValue "Five" 5 true]].
Proof. vm_compute. reflexivity. Qed.

Lemma succ_chain_app l1 l2 l f :
  succ_chain (l1 ++ l2) → last l1 = Some l → head l2 = Some f →
  value f = uint64 (value l + 1).
Proof.
  revert l. induction l1 as [|x l1 IH]; intros l; [done|].
  destruct l1 as [|y l1].
  - simpl. intros Hc [= <-] Hf. destruct l2 as [|z l2]; [done|].
    injection Hf as <-. by destruct Hc.
  - intros Hc Hl Hf. apply IH; [|done|done].
    change ((x :: y :: l1) ++ l2) with (x :: y :: (l1 ++ l2)) in Hc.
    by destruct Hc.
Qed.

(** X18. The choice [generate] makes without [-bitflag]: the method for one run
    is chosen exactly when the declared values, each taken once, are
    consecutive; a type without constants ends the run. *)
Theorem generate_plain_one_run (typeName : string) (values : list Value) :
  (values = [] → generate_plain typeName values = Abort (ExitNoValues typeName)) ∧
  (values ≠ [] →
   ∃ runs, generate_plain typeName values = Ok (choose_pattern runs, runs) ∧
           runs = splitIntoRuns values ∧
           (choose_pattern runs = OneRun ↔ succ_chain (concat runs))).
Proof.
  split; [by intros ->|]. intros Hne.
  exists (splitIntoRuns values). split_and!; [by destruct values|done|].
  destruct (splitIntoRuns_spec values Hne) as (v0 & rest & _ & ->).
  destruct (succ_runs_loop_spec (length (v0 :: uniq_from v0 rest))
              (v0 :: uniq_from v0 rest)) as (Hcat & Hmax & _); [done|].
  unfold choose_pattern.
  destruct (succ_runs_loop _ _ _) as [|run [|next rest']]; [done| |].
  - simpl. rewrite app_nil_r. split; [|done]. intros _. by destruct Hmax as (_ & ? & _).
  - split.
    + simpl. destruct (_ <=? _)%nat; intros [=].
    + intros Hc. exfalso.
      destruct Hmax as (Hrun & _ & Hstop & Hnext & _).
      destruct next as [|f next]; [done|].
      assert (∃ l, last run = Some l) as [l Hl].
      { destruct run as [|x run] using rev_ind; [done|].
        rewrite last_snoc. eauto. }
      apply (Hstop l f); [done|done|].
      change (concat (run :: (f :: next) :: rest'))
        with (run ++ (f :: next) ++ concat rest') in Hc.
      by eapply succ_chain_app.
Qed.

Lemma generate_plain_one_run_witness :
  (signed_in_plain = [] →
   generate_plain "Sign" signed_in_plain = Abort (ExitNoValues "Sign")) ∧
  (signed_in_plain ≠ [] →
   ∃ runs, generate_plain "Sign" signed_in_plain = Ok (choose_pattern runs, runs) ∧
           runs = splitIntoRuns signed_in_plain ∧
           (choose_pattern runs = OneRun ↔ succ_chain (concat runs))).
Proof.
  apply (generate_plain_one_run "Sign" signed_in_plain).
Defined.

(** ** The single-bit test *)

(** X19. [singleBitSet] on a [uint64]: true when one and only one bit is set.
    *)
Theorem singleBitSet_one_bit (v : Z) :
  0 ≤ v < 2 ^ 64 →
  singleBitSet v = true ↔
  ∃ k, 0 ≤ k < 64 ∧ ∀ n, 0 ≤ n → Z.testbit v n = (k =? n).
Proof.
  intros Hv. split.
  - intros Hsb. destruct (flag_singleBitSet v Hv Hsb) as (k & Hk & ->).
    exists k. split; [done|]. intros n Hn. apply Z.pow2_bits_eqb. lia.
  - intros (k & Hk & Hbits). apply singleBitSet_flag. exists k.
    split; [done|]. apply Z.bits_inj'. intros n Hn.
    rewrite Hbits by done. symmetry. apply Z.pow2_bits_eqb. lia.
Qed.

Lemma singleBitSet_one_bit_witness :
  singleBitSet (2 ^ 63) = true ↔
  ∃ k, 0 ≤ k < 64 ∧ ∀ n, 0 ≤ n → Z.testbit (2 ^ 63) n = (k =? n).
Proof.
  apply (singleBitSet_one_bit (2 ^ 63)).
  apply (bool_decide_unpack _). vm_compute. exact I.
Defined.

(** ** The sort *)

Lemma insert_stable_filter s x l c :
  of_one_type s x → Forall (of_one_type s) l →
  List.filter (λ v, value v =? c) (insert_stable x l) =
  List.filter (λ v, value v =? c) (x :: l).
Proof.
  intros Hx. induction 1 as [|y l Hy Hl IH]; [done|].
  cbn [insert_stable].
  rewrite byValue_Less_key by (destruct Hx, Hy; congruence).
  destruct (Z.ltb_spec (key y) (key x)) as [Hlt|Hge]; [|done].
  cbn [List.filter] in *. rewrite IH.
  destruct (Z.eqb_spec (value y) c), (Z.eqb_spec (value x) c); try done.
  assert (key y = key x); [|lia]. apply (key_inj s); [done|done|lia].
Qed.

(** X20. [sort.Stable(byValue(values))] on the constants of one type: the same
    constants, in the order of the type (the signed order for a signed type),
    and the constants of equal value in the order of their declarations. *)
Theorem sort_Stable_byValue (s : bool) (values : list Value) (c : Z) :
  Forall (of_one_type s) values →
  sort_Stable values ≡ₚ values ∧
  StronglySorted key_le (sort_Stable values) ∧
  List.filter (λ v, value v =? c) (sort_Stable values) =
    List.filter (λ v, value v =? c) values.
Proof.
  intros Ht. split_and!.
  - apply sort_Stable_perm.
  - by apply (sort_Stable_sorted_key s).
  - induction Ht as [|x l Hx Hl IH]; [done|].
    cbn [sort_Stable].
    rewrite (insert_stable_filter s); [|done|by apply sort_Stable_Forall].
    cbn [List.filter]. by rewrite IH.
Qed.

Lemma sort_Stable_byValue_witness :
  sort_Stable signed_in_plain ≡ₚ signed_in_plain ∧
  StronglySorted key_le (sort_Stable signed_in_plain) ∧
  List.filter (λ v, value v =? 1) (sort_Stable signed_in_plain) =
    List.filter (λ v, value v =? 1) signed_in_plain.
Proof.
  apply (sort_Stable_byValue true signed_in_plain 1).
  exact signed_in_plain_typed.
Defined.

(** ** The numeric rendering *)

Lemma hex_of_hex_digit d : 0 ≤ d < 16 → hex_of (hex_digit d) = Some d.
Proof.
  intros Hd.
  assert (d = 0 ∨ d = 1 ∨ d = 2 ∨ d = 3 ∨ d = 4 ∨ d = 5 ∨ d = 6 ∨ d = 7 ∨
          d = 8 ∨ d = 9 ∨ d = 10 ∨ d = 11 ∨ d = 12 ∨ d = 13 ∨ d = 14 ∨
          d = 15) as Hcase by lia.
  repeat destruct Hcase as [->|Hcase]; try reflexivity. by subst.
Qed.

Lemma read_hex_digits fuel : ∀ m rest,
  0 ≤ m < 16 ^ Z.of_nat fuel → (0 < fuel)%nat →
  ∃ k, 0 ≤ k ∧ ∀ cur,
    read_hex_loop (FormatUint_loop fuel m rest) cur =
    read_hex_loop rest (cur * 16 ^ k + m).
Proof.
  induction fuel as [|fuel IH]; intros m rest Hm Hf; [lia|].
  assert (0 ≤ m mod 16 < 16) as Hd by (apply Z.mod_pos_bound; lia).
  pose proof (Z.div_mod m 16 ltac:(lia)) as Hdm.
  cbn [FormatUint_loop].
  destruct (Z.eqb_spec (m / 16) 0) as [Hz|Hnz].
  - exists 1. split; [lia|]. intros cur. cbn [read_hex_loop].
    rewrite hex_of_hex_digit by done. f_equal. lia.
  - assert (0 ≤ m / 16 < 16 ^ Z.of_nat fuel) as Hq.
    { split; [apply Z.div_pos; lia|].
      apply Z.div_lt_upper_bound; [lia|].
      rewrite <- Z.pow_succ_r by lia. rewrite <- Nat2Z.inj_succ. lia. }
    destruct fuel as [|fuel']; [simpl in Hq; lia|].
    destruct (IH (m / 16) (String (hex_digit (m mod 16)) rest) Hq ltac:(lia))
      as (k & Hk0 & Hk).
    exists (Z.succ k). split; [lia|]. intros cur. rewrite Hk.
    cbn [read_hex_loop]. rewrite hex_of_hex_digit by done.
    f_equal. rewrite Z.pow_succ_r by done. lia.
Qed.

Lemma FormatUint_loop_cons fuel m rest :
  (0 < fuel)%nat → ∃ c s, FormatUint_loop fuel m rest = String c s.
Proof.
  revert m rest. induction fuel as [|fuel IH]; intros m rest Hf; [lia|].
  cbn [FormatUint_loop]. destruct (m / 16 =? 0); [by eexists _, _|].
  destruct fuel as [|fuel']; [by eexists _, _|]. apply IH. lia.
Qed.

(** X21. The numeric rendering [typename(0x...)] holds the mask exactly:
    between [(0x] and [)] stand the lower-case hex digits of the mask, which
    read back as the mask. *)
Theorem hexname_reads_back (typename : string) (m : Z) :
  0 ≤ m < 2 ^ 64 →
  ∃ h, hexname typename m = typename +:+ "(0x" +:+ h +:+ ")" ∧
       read_hex h = Some m.
Proof.
  intros Hm. exists (FormatUint16 m). split; [done|].
  unfold FormatUint16.
  destruct (FormatUint_loop_cons 16 m "" ltac:(lia)) as (c & s & Hcs).
  unfold read_hex. rewrite Hcs, <- Hcs.
  destruct (read_hex_digits 16 m "") as (k & _ & Hk); [|lia|].
  { assert (16 ^ Z.of_nat 16 = 2 ^ 64) as -> by done. lia. }
  rewrite Hk. simpl. done.
Qed.

Lemma hexname_reads_back_witness :
  ∃ h, hexname "Gap" (2 ^ 62) = "Gap" +:+ "(0x" +:+ h +:+ ")" ∧
       read_hex h = Some (2 ^ 62).
Proof.
  apply (hexname_reads_back "Gap" (2 ^ 62)).
  apply (bool_decide_unpack _). vm_compute. exact I.
Defined.

(** ** No template panics on a well-formed table *)

Lemma String_loop_skips_total T t offs : ∀ st,
  Forall (λ o, 0 ≤ o < 256) offs →
  0 ≤ st_p1 st →
  st_p1 st + sum_nonzero offs ≤ Z.of_nat (String.length (names t)) →
  (st_si st + count_zero offs ≤ length (skips t))%nat →
  ∃ e, String_loop_skips T t offs st = Ok e.
Proof.
  induction offs as [|o offs IH]; intros st Hoffs Hp1 Hblob Hgaps.
  - simpl. eauto.
  - apply Forall_cons in Hoffs as [Ho Hoffs].
    rewrite sum_nonzero_cons in Hblob. rewrite count_zero_cons in Hgaps.
    pose proof (sum_nonzero_nonneg offs Hoffs) as Hsum.
    simpl. destruct (Z.eqb_spec o 0) as [->|Hne].
    + destruct (index_or_panic_Ok (skips t) (st_si st)) as (sk & -> & _); [lia|].
      simpl. apply IH; simpl; [done|lia|lia|lia].
    + destruct (Z.land (st_v st) (st_m st) =? 0).
      * apply IH; simpl; [done|lia|lia|lia].
      * rewrite slice_Ok by lia. simpl.
        destruct (emit_name _ _ _) as [s|b]; [by eexists|].
        apply IH; simpl; [done|lia|lia|lia].
Qed.

Lemma String_loop_total T t offs : ∀ st,
  Forall (λ o, 0 ≤ o < 256) offs →
  0 ≤ st_p1 st →
  st_p1 st + sum_nonzero offs ≤ Z.of_nat (String.length (names t)) →
  ∃ e, String_loop T t offs st = Ok e.
Proof.
  induction offs as [|o offs IH]; intros st Hoffs Hp1 Hblob.
  - simpl. eauto.
  - apply Forall_cons in Hoffs as [Ho Hoffs].
    rewrite sum_nonzero_cons in Hblob.
    pose proof (sum_nonzero_nonneg offs Hoffs) as Hsum.
    assert (st_p1 st + o + sum_nonzero offs
            ≤ Z.of_nat (String.length (names t))) as Hblob'.
    { destruct (Z.eqb_spec o 0); lia. }
    simpl. destruct (Z.land (st_v st) (st_m st) =? 0).
    + apply IH; simpl; [done|lia|lia].
    + rewrite slice_Ok by lia. simpl.
      destruct (emit_name _ _ _) as [s|b]; [by eexists|].
      apply IH; simpl; [done|lia|lia].
Qed.

(** X22. The [String] method of every template returns a string on a
    well-formed table, for a flag type of any width and every mask of the type:
    no index into the skips and no slice of the names leaves its bounds,
    whichever template the table is paired with. *)
Theorem String_of_total (T : IntType) (tpl : template) (t : stringerBitflag)
    (m : Z) :
  0 < bits T ≤ 64 → well_formed t → 0 ≤ m < 2 ^ bits T →
  ∃ s, String_of T (tpl, t) m = Ok s.
Proof.
  intros Hw [Hoffs Hsk Hfirst Hblob Hgaps] Hm.
  assert (∃ s, String_code T t m = Ok s) as Hcode.
  { unfold String_code. destruct (m =? 0); [eauto|].
    destruct (String_loop_total T t (offsets t)
                (mkSt m (convT T (first t)) 0 0 "")) as (e & ->);
      simpl; [done|lia|lia|eauto]. }
  assert (∃ s, String_code_skips T t m = Ok s) as Hskips.
  { unfold String_code_skips. destruct (m =? 0); [eauto|].
    destruct (String_loop_skips_total T t (offsets t)
                (mkSt m (convT T (first t)) 0 0 "")) as (e & ->);
      simpl; [done|lia|lia|lia|eauto]. }
  assert (∃ s, String_table T t m = Ok s) as Htable.
  { unfold String_table. rewrite descriptor_id by done.
    apply mstring_Ok; [by constructor|by apply toUint64_range]. }
  unfold String_of. by destruct tpl.
Qed.

Lemma String_of_total_witness :
  ∃ s, String_of int16_t (stringBitflagCode, multibit_first_table) (2 ^ 15)
       = Ok s.
Proof.
  apply (String_of_total int16_t stringBitflagCode multibit_first_table).
  - simpl. lia.
  - apply (buildBitflag_wf (mkGenerator false true) multibit_first "T"
             (stringBitflagTableDrivenNotCached, multibit_first_table)).
    + apply (bool_decide_unpack _). vm_compute. exact I.
    + apply (bool_decide_unpack _). vm_compute. exact I.
    + vm_compute. reflexivity.
  - apply (bool_decide_unpack _). vm_compute. exact I.
Defined.
